(** * The transactional change-log watcher (package [watcher])

    A shallow embedding of the dispatcher of [src/unnamed/part_000]: the
    request handler [handle], the change-log scan [sync], the delivery
    loop [flush] and the goroutine [loop] that runs them, followed by the
    properties the specification states about them and by further
    properties of the code.

    Conventions of the model.
    - Go's [int64] revision numbers are integers of [Z]; the code only
      compares and copies them, so no arithmetic can wrap around.
    - A Go map is a [gmap]; reading a missing key yields the zero value
      of the element type, which each reader below writes out.
    - A slice the code only ranges over, indexes and appends to between
      two calls is a list.  [w.requestEvents], into which [flush] keeps a
      pointer while [handle] appends, is a slice header over a store of
      arrays.
    - A channel is identified by a number; [None] is the nil channel.
    - A panic is the [Panic] result, with the message of the code
      (without its formatted operands); a run-time panic carries the
      message of the Go run-time.
    - The goroutines around the dispatcher are a schedule: the list of
      the outcomes of the [select]s of [flush], in order, and the list of
      those of [loop]. *)

From stdpp Require Import gmap strings list fin_maps.
From Stdlib Require Import ZArith Lia.

Local Open Scope Z_scope.

(** ** Dynamic values *)

(** The values an [interface{}] holds after BSON decoding that Go can
    compare with [==] and hash as a map key.  Two of them are equal when
    they have the same dynamic type and the same value, which is the
    equality of this inductive type. *)
Inductive iface : Type :=
  | INil
  | IInt64 (n : Z)
  | IInt (n : Z)
  | IString (s : string).

(** A decoded BSON value: a comparable value, a [[]interface{}], a
    [bson.D], whose elements are [bson.DocElem{Name, Value}] pairs, or a
    [bson.M].  A document is decoded as a [bson.D] within a [bson.D],
    which is how [sync] reads the log, and as a [bson.M] into a field of
    type [interface{}] of a struct, which is how [initLastId] reads the
    [_id] of the most recent entry. *)
#[local] Unset Elimination Schemes.
Inductive bval : Type :=
  | BScalar (v : iface)
  | BArray (l : list bval)
  | BDoc (d : list (string * bval))
  | BMap (d : list (string * bval)).
#[local] Set Elimination Schemes.

#[global] Instance iface_eq_dec : EqDecision iface.
Proof. solve_decision. Defined.

Definition iface_to_sum (v : iface) : unit + Z + Z + string :=
  match v with
  | INil => inl (inl (inl tt))
  | IInt64 n => inl (inl (inr n))
  | IInt n => inl (inr n)
  | IString s => inr s
  end.

Definition iface_of_sum (x : unit + Z + Z + string) : iface :=
  match x with
  | inl (inl (inl _)) => INil
  | inl (inl (inr n)) => IInt64 n
  | inl (inr n) => IInt n
  | inr s => IString s
  end.

#[global] Instance iface_countable : Countable iface.
Proof.
  refine (inj_countable' iface_to_sum iface_of_sum _).
  by intros [].
Defined.

(** Go's [==] on two [interface{}] values: values of different dynamic
    types are different, and comparing two values whose common dynamic
    type is a slice type ([[]interface{}], [bson.D]) or a map type
    ([bson.M]) is a run-time panic ([None]). *)
Definition iface_eq (a b : bval) : option bool :=
  match a, b with
  | BScalar x, BScalar y => Some (bool_decide (x = y))
  | BArray _, BArray _ => None
  | BDoc _, BDoc _ => None
  | BMap _, BMap _ => None
  | _, _ => Some false
  end.

(** ** The data of the watcher *)

(** [chan<- Change]: a channel identity, or nil. *)
Definition chan : Type := option nat.

(** [type Change struct { C string; Id interface{}; Revno int64 }] *)
Record Change : Type := mkChange {
  C : string;
  Id : iface;
  Revno : Z
}.

(** [type watchKey struct { c string; id interface{} }], [id] being nil
    when watching a collection.  The fields carry a prefix because a
    projection name is global in Rocq. *)
Record watchKey : Type := mkKey {
  wk_c : string;
  wk_id : iface
}.

(** [type watchInfo struct { ch chan<- Change; revno int64 }] *)
Record watchInfo : Type := mkInfo {
  info_ch : chan;
  info_revno : Z
}.

(** [type event struct { ch chan<- Change; key watchKey; revno int64 }] *)
Record event : Type := mkEvent {
  ev_ch : chan;
  ev_key : watchKey;
  ev_revno : Z
}.

#[global] Instance watchKey_eq_dec : EqDecision watchKey.
Proof. solve_decision. Defined.

#[global] Instance watchKey_countable : Countable watchKey.
Proof.
  refine (inj_countable' (λ k, (wk_c k, wk_id k)) (λ p, mkKey p.1 p.2) _).
  by intros [].
Defined.

#[global] Instance watchInfo_eq_dec : EqDecision watchInfo.
Proof. solve_decision. Defined.

#[global] Instance event_eq_dec : EqDecision event.
Proof. solve_decision. Defined.

#[global] Instance Change_eq_dec : EqDecision Change.
Proof. solve_decision. Defined.

(** The key under which the watches of a whole collection are kept. *)
Definition collKey (cname : string) : watchKey := mkKey cname INil.

(** The zero value of [event], which fills a freshly allocated array. *)
Definition zero_event : event := mkEvent None (mkKey EmptyString INil) 0.

(** *** The request-event slice and its backing arrays

    [flush] keeps a pointer [e := &w.requestEvents[i]] across calls of
    [handle], and [handle] appends to [w.requestEvents].  Whether the
    pointer still designates an element of the queue afterwards depends
    on whether [append] wrote in place or moved the elements to a new
    array, so the slice is modelled as Go has it: a header (array, length,
    capacity) over a store of arrays. *)
Record slice : Type := mkSlice {
  s_ptr : nat;
  s_len : nat;
  s_cap : nat
}.

(** The nil slice. No array is read through it, its length being 0. *)
Definition nil_slice : slice := mkSlice 0 0 0.

Definition array_at (heap : list (list event)) (p : nat) : list event :=
  default [] (heap !! p).

(** The elements [s[0], ..., s[len(s)-1]]. *)
Definition slice_elems (heap : list (list event)) (s : slice) : list event :=
  take (s_len s) (array_at heap (s_ptr s)).

(** [&s[i]]: the array and the index. *)
Record pointer : Type := mkPtr {
  p_arr : nat;
  p_idx : nat
}.

Definition deref (heap : list (list event)) (p : pointer) : event :=
  default zero_event (array_at heap (p_arr p) !! p_idx p).

(** [w.next]: nil, [time.After(0)] or [time.After(period)]. *)
Inductive timer : Type := NoTimer | After0 | AfterPeriod.

(** [type Watcher struct], without the tomb, the log collection and the
    request channel, which are the environment of the functions below. *)
Record Watcher : Type := mkWatcher {
  watches : gmap watchKey (list watchInfo);
  current : gmap watchKey Z;
  syncEvents : list event;
  heap : list (list event);
  requestEvents : slice;
  syncDone : list nat;
  lastId : bval;
  next : timer
}.

(** [w.watches[key]]: the nil slice when the key is missing. *)
Definition watches_of (w : Watcher) (key : watchKey) : list watchInfo :=
  default [] (watches w !! key).

(** [w.current[key]] read with one result: 0 when the key is missing. *)
Definition current_or_zero (w : Watcher) (key : watchKey) : Z :=
  default 0 (current w !! key).

(** The request events as a list. *)
Definition request_queue (w : Watcher) : list event :=
  slice_elems (heap w) (requestEvents w).

(** ** Results of code that may panic *)

Inductive result (A : Type) : Type :=
  | Ok (a : A)
  | Panic (msg : string).
Arguments Ok {A} a.
Arguments Panic {A} msg.

Definition bind {A B : Type} (m : result A) (k : A → result B) : result B :=
  match m with
  | Ok a => k a
  | Panic msg => Panic msg
  end.

Notation "'do' x <- m ; k" := (bind m (λ x, k))
  (at level 10, x pattern, m at level 100, k at level 200).

(** ** Requests *)

(** The values sent on [w.request].  The channel carries [interface{}]:
    [reqOther] stands for a value of any other type. *)
Inductive request : Type :=
  | reqSync (done : option nat)
  | reqWatch (key : watchKey) (info : watchInfo)
  | reqUnwatch (key : watchKey) (ch : chan)
  | reqOther.

(** The requests the public API submits. *)
Definition Watch (collection : string) (id : iface) (revno : Z) (ch : chan)
    : result request :=
  if decide (id = INil) then Panic "watcher: cannot watch a document with nil id"
  else Ok (reqWatch (mkKey collection id) (mkInfo ch revno)).

Definition WatchCollection (collection : string) (ch : chan) : request :=
  reqWatch (mkKey collection INil) (mkInfo ch 0).

Definition Unwatch (collection : string) (id : iface) (ch : chan)
    : result request :=
  if decide (id = INil) then Panic "watcher: cannot unwatch a document with nil id"
  else Ok (reqUnwatch (mkKey collection id) ch).

Definition UnwatchCollection (collection : string) (ch : chan) : request :=
  reqUnwatch (mkKey collection INil) ch.

Definition StartSync : request := reqSync None.

(** ** Record updates *)

Definition set_watches (w : Watcher) (m : gmap watchKey (list watchInfo))
    : Watcher :=
  mkWatcher m (current w) (syncEvents w) (heap w) (requestEvents w)
            (syncDone w) (lastId w) (next w).

Definition set_current (w : Watcher) (m : gmap watchKey Z) : Watcher :=
  mkWatcher (watches w) m (syncEvents w) (heap w) (requestEvents w)
            (syncDone w) (lastId w) (next w).

Definition set_syncEvents (w : Watcher) (l : list event) : Watcher :=
  mkWatcher (watches w) (current w) l (heap w) (requestEvents w)
            (syncDone w) (lastId w) (next w).

Definition set_requestEvents (w : Watcher) (h : list (list event)) (s : slice)
    : Watcher :=
  mkWatcher (watches w) (current w) (syncEvents w) h s
            (syncDone w) (lastId w) (next w).

Definition set_syncDone (w : Watcher) (l : list nat) : Watcher :=
  mkWatcher (watches w) (current w) (syncEvents w) (heap w) (requestEvents w)
            l (lastId w) (next w).

Definition set_lastId (w : Watcher) (v : bval) : Watcher :=
  mkWatcher (watches w) (current w) (syncEvents w) (heap w) (requestEvents w)
            (syncDone w) v (next w).

Definition set_next (w : Watcher) (t : timer) : Watcher :=
  mkWatcher (watches w) (current w) (syncEvents w) (heap w) (requestEvents w)
            (syncDone w) (lastId w) t.

(** ** The rule for notifying a subscriber

    [revno > info.revno || revno == -1 && info.revno >= 0] in [handle]
    and [revno > info.revno || revno < 0 && info.revno >= 0] in [sync]. *)
Definition newer_watch (revno known : Z) : bool :=
  (known <? revno) || ((revno =? -1) && (0 <=? known)).

Definition newer_sync (revno known : Z) : bool :=
  (known <? revno) || ((revno <? 0) && (0 <=? known)).

(** ** [sync]: one pass over the change log *)

(** [x, _ = v.([]interface{})] and [x, _ := v.(bson.D)]: nil when the
    value has another type. *)
Definition as_array (v : bval) : list bval :=
  match v with BArray l => l | _ => [] end.

Definition as_doc (v : bval) : list (string * bval) :=
  match v with BDoc d => d | _ => [] end.

(** The lists [d] and [r] of a collection field (the [switch item.Name]
    loop): the last item of each name decides. *)
Definition changed_docs (value : bval) : list bval * list bval :=
  fold_left
    (λ '(d, r) item,
       if decide (item.1 = "d") then (as_array item.2, r)
       else if decide (item.1 = "r") then (d, as_array item.2)
       else (d, r))
    (as_doc value) ([], []).

(** "Queue notifications for per-collection watches." *)
Definition coll_events (key : watchKey) (revno : Z) (infos : list watchInfo)
    : list event :=
  (λ info, mkEvent (info_ch info) key revno) <$> infos.

(** "Queue notifications for per-document watches": the records after
    the loop and the events it appended, in the order of the records. *)
Fixpoint notify_docs (key : watchKey) (revno : Z) (infos : list watchInfo)
    : list watchInfo * list event :=
  match infos with
  | [] => ([], [])
  | info :: rest =>
      let (infos', evs) := notify_docs key revno rest in
      if newer_sync revno (info_revno info)
      then (mkInfo (info_ch info) revno :: infos',
            mkEvent (info_ch info) key revno :: evs)
      else (info :: infos', evs)
  end.

(** [if revno < 0 { revno = -1 }] *)
Definition canonical (revno : Z) : Z := if revno <? 0 then -1 else revno.

(** The state of a pass: the watcher and the [seen] set. *)
Definition pass : Type := Watcher * gset watchKey.

(** The body of [for i := len(d) - 1; i >= 0; i--] for [d[i]] and [r[i]]
    of the field named [cname].  A document id that is not a comparable
    value cannot be hashed as a map key. *)
Definition sync_triple (cname : string) (di ri : bval) (st : pass) : result pass :=
  let (w, seen) := st in
  match di with
  | BScalar docid =>
      let key := mkKey cname docid in
      if decide (key ∈ seen) then Ok (w, seen)
      else
        let seen := {[key]} ∪ seen in
        match ri with
        | BScalar (IInt64 revno) =>
            let revno := canonical revno in
            if current_or_zero w key =? revno then Ok (w, seen)
            else
              let w := set_current w (<[key := revno]> (current w)) in
              let w := set_syncEvents w
                         (syncEvents w
                          ++ coll_events key revno (watches_of w (collKey cname))) in
              let (infos, evs) := notify_docs key revno (watches_of w key) in
              let w := match watches w !! key with
                       | Some _ => set_watches w (<[key := infos]> (watches w))
                       | None => w
                       end in
              Ok (set_syncEvents w (syncEvents w ++ evs), seen)
        | _ => Ok (w, seen)
        end
  | _ => Panic "runtime error: hash of unhashable type"
  end.

(** [for i := len(d) - 1; i >= 0; i--], entered with [n = len(d)]. *)
Fixpoint sync_docs (cname : string) (d r : list bval) (n : nat) (st : pass)
    : result pass :=
  match n with
  | O => Ok st
  | S i =>
      match d !! i, r !! i with
      | Some di, Some ri =>
          do st <- sync_triple cname di ri st;
          sync_docs cname d r i st
      | _, _ => Panic "runtime error: index out of range"
      end
  end.

(** The body of [for _, c := range entry[1:]]. *)
Definition sync_field (c : string * bval) (st : pass) : result pass :=
  let (d, r) := changed_docs c.2 in
  if (length d =? 0)%nat || negb (length d =? length r)%nat then Ok st
  else sync_docs c.1 d r (length d) st.

Fixpoint sync_fields (fields : list (string * bval)) (st : pass) : result pass :=
  match fields with
  | [] => Ok st
  | c :: rest =>
      do st <- sync_field c st;
      sync_fields rest st
  end.

(** [for iter.Next(&entry)] over the entries the iterator yields, newest
    first; [lastId0] is [w.lastId] read before the loop. *)
Fixpoint sync_entries (log : list (list (string * bval))) (first : bool)
    (lastId0 : bval) (st : pass) : result pass :=
  match log with
  | [] => Ok st
  | [] :: rest => sync_entries rest first lastId0 st
  | ((name, value) :: fields) :: rest =>
      if decide (name = "_id") then
        let st := if first then (set_lastId st.1 value, st.2) else st in
        match iface_eq value lastId0 with
        | Some true => Ok st
        | Some false =>
            do st <- sync_fields fields st;
            sync_entries rest false lastId0 st
        | None => Panic "runtime error: comparing uncomparable type"
        end
      else Panic "watcher: _id field isn't first entry"
  end.

(** [sync]: [log] lists the entries [iter.Next] yields and [iterErr] is
    [iter.Err()] after the loop; the second component of the result is the
    error [sync] returns. *)
Definition sync (w : Watcher) (log : list (list (string * bval)))
    (iterErr : option string) : result (Watcher * option string) :=
  do st <- sync_entries log true (lastId w) (w, ∅);
  Ok (st.1, (λ e, "watcher iteration error: " +:+ e) <$> iterErr).

(** [New]: the watcher before its goroutine runs. *)
Definition New : Watcher :=
  mkWatcher ∅ ∅ [] [] nil_slice [] (BScalar INil) NoTimer.

(** The [_id] of an entry as [initLastId] decodes it, into the field
    [Id interface{}] of a struct: a document becomes a [bson.M], where the
    [bson.D] of [sync] has a [bson.D]; the other values are decoded as in
    [sync]. *)
Definition decoded_id (id : bval) : bval :=
  match id with
  | BDoc d => BMap d
  | _ => id
  end.

(** [initLastId], given the [_id] of the most recent entry as the log
    holds it, if there is one ([mgo.ErrNotFound] otherwise; on any other
    error [loop] returns before it selects). *)
Definition initLastId (w : Watcher) (newest : option bval) : Watcher :=
  set_lastId w (default (BScalar INil) (decoded_id <$> newest)).

(** The start of [loop]: [w.next = time.After(0)], then [initLastId]. *)
Definition loop_start (newest : option bval) : Watcher :=
  initLastId (set_next New After0) newest.

(** The start of an iteration of [loop] on the timer: [w.next] is
    rearmed and the pending [done] channels are taken, to be closed after
    the [sync] and the [flush]. *)
Definition on_timer (w : Watcher) : Watcher :=
  set_syncDone (set_next w AfterPeriod) [].

(** ** [handle]: the requests of the public API *)

(** [for _, info := range infos { if info.ch == ch { ... } }] as a search:
    the index of the first record of the channel. *)
Fixpoint find_ch (ch : chan) (infos : list watchInfo) : option nat :=
  match infos with
  | [] => None
  | info :: rest =>
      if decide (info_ch info = ch) then Some 0%nat
      else S <$> find_ch ch rest
  end.

(** [watches[i] = watches[len(watches)-1]] followed by
    [watches[:len(watches)-1]]. *)
Definition remove_at (i : nat) (infos : list watchInfo) : list watchInfo :=
  match infos !! (length infos - 1)%nat with
  | Some lst => take (length infos - 1) (<[i := lst]> infos)
  | None => infos
  end.

(** [if e.key == key && e.ch == ch { e.ch = nil }] *)
Definition tombstone (key : watchKey) (ch : chan) (e : event) : event :=
  if decide (ev_key e = key ∧ ev_ch e = ch)
  then mkEvent None (ev_key e) (ev_revno e)
  else e.

(** [for i := range s { e := &s[i]; ... }] over a backing array: the
    elements below [len(s)] are visited, the others are left alone. *)
Definition tombstone_array (key : watchKey) (ch : chan) (len : nat)
    (arr : list event) : list event :=
  (tombstone key ch <$> take len arr) ++ drop len arr.

Section Dispatcher.

(** The capacity [append] gives a new array is chosen by the Go run-time,
    not by this program: [growcap old] is that choice for a full slice of
    capacity [old]. The language only fixes that [append] writes in place
    while [len(s) < cap(s)] and otherwise allocates an array that holds
    the elements and the new one. *)
Variable growcap : nat → nat.

(** [s = append(s, e)] *)
Definition append_event (h : list (list event)) (s : slice) (e : event)
    : list (list event) * slice :=
  if (s_len s <? s_cap s)%nat then
    (<[s_ptr s := <[s_len s := e]> (array_at h (s_ptr s))]> h,
     mkSlice (s_ptr s) (S (s_len s)) (s_cap s))
  else
    let newcap := (S (s_len s) `max` growcap (s_cap s))%nat in
    (h ++ [slice_elems h s ++ e :: replicate (newcap - S (s_len s)) zero_event],
     mkSlice (length h) (S (s_len s)) newcap).

Definition handle (w : Watcher) (req : request) : result Watcher :=
  match req with
  | reqSync done =>
      let w := set_next w After0 in
      Ok match done with
         | Some d => set_syncDone w (syncDone w ++ [d])
         | None => w
         end
  | reqWatch key info =>
      match find_ch (info_ch info) (watches_of w key) with
      | Some _ => Panic "adding channel twice for the same collection/document"
      | None =>
          let '(w, info) :=
            match current w !! key with
            | Some revno =>
                if newer_watch revno (info_revno info) then
                  let (h, s) := append_event (heap w) (requestEvents w)
                                  (mkEvent (info_ch info) key revno) in
                  (set_requestEvents w h s, mkInfo (info_ch info) revno)
                else (w, info)
            | None => (w, info)
            end in
          Ok (set_watches w (<[key := watches_of w key ++ [info]]> (watches w)))
      end
  | reqUnwatch key ch =>
      let w :=
        match find_ch ch (watches_of w key) with
        | Some i =>
            set_watches w (<[key := remove_at i (watches_of w key)]> (watches w))
        | None => w
        end in
      let s := requestEvents w in
      let arr := tombstone_array key ch (s_len s) (array_at (heap w) (s_ptr s)) in
      let w := set_requestEvents w (<[s_ptr s := arr]> (heap w)) s in
      Ok (set_syncEvents w (tombstone key ch <$> syncEvents w))
  | reqOther => Panic "unknown request"
  end.

(** ** [flush]: delivery

    Each [select] of [flush] has three ways to go; which one is taken is
    decided by the other goroutines, so [flush] is run against a schedule
    that lists the outcome of each [select] in turn. *)
Inductive outcome : Type :=
  | selDying
  | selRequest (req : request)
  | selSend.

(** How a [flush] ends, with the values sent, each with its channel:
    - [Flushed]: it ran to completion; [rest] is the schedule left over;
    - [Killed]: the tomb was dying, [flush] returned where it was;
    - [Crashed]: [handle] panicked;
    - [Blocked]: the schedule is used up while a [select] still waits;
    - [Exhausted]: the bound of [flush_request] below was reached. *)
Inductive flushed : Type :=
  | Flushed (w : Watcher) (rest : list outcome) (sent : list (nat * Change))
  | Killed (w : Watcher) (rest : list outcome) (sent : list (nat * Change))
  | Crashed (msg : string) (sent : list (nat * Change))
  | Blocked (w : Watcher) (sent : list (nat * Change))
  | Exhausted.

(** How [for e.ch != nil { select { ... } }] ends: the loop is left, or
    [flush] is. *)
Inductive waited : Type :=
  | Left (w : Watcher) (rest : list outcome) (sent : list (nat * Change))
  | Stop (f : flushed).

Definition change_of (e : event) : Change :=
  mkChange (wk_c (ev_key e)) (wk_id (ev_key e)) (ev_revno e).

(** [for e.ch != nil { select { ... } }], [read w] being [*e] in the
    state [w]. *)
Fixpoint send_loop (read : Watcher → event) (sched : list outcome) (w : Watcher)
    (sent : list (nat * Change)) {struct sched} : waited :=
  match ev_ch (read w) with
  | None => Left w sched sent
  | Some ch =>
      match sched with
      | [] => Stop (Blocked w sent)
      | selDying :: rest => Stop (Killed w rest sent)
      | selRequest req :: rest =>
          match handle w req with
          | Ok w => send_loop read rest w sent
          | Panic msg => Stop (Crashed msg sent)
          end
      | selSend :: rest => Left w rest (sent ++ [(ch, change_of (read w))])
      end
  end.

(** [e := &w.syncEvents[i]]. [handle] never appends to [w.syncEvents], so
    the element stays where it is. *)
Definition sync_event_at (i : nat) (w : Watcher) : event :=
  default zero_event (syncEvents w !! i).

(** [w.syncEvents = w.syncEvents[:0]] and
    [w.requestEvents = w.requestEvents[:0]]: the request events keep
    their array and capacity. *)
Definition truncate_queues (w : Watcher) : Watcher :=
  let s := requestEvents w in
  set_requestEvents (set_syncEvents w []) (heap w) (mkSlice (s_ptr s) 0 (s_cap s)).

(** [for i := 0; i < len(w.requestEvents); i++], then the truncations.
    The queue may grow while the loop runs, by one event for each request
    taken from the schedule, so the recursion is on a [bound] of the
    number of iterations: [flush] passes the length of the queue plus the
    length of the schedule, which is never reached ([flush_ends]). *)
Fixpoint flush_request (bound i : nat) (sched : list outcome) (w : Watcher)
    (sent : list (nat * Change)) : flushed :=
  if (i <? s_len (requestEvents w))%nat then
    match bound with
    | O => Exhausted
    | S bound =>
        let e := mkPtr (s_ptr (requestEvents w)) i in
        match send_loop (λ w, deref (heap w) e) sched w sent with
        | Left w rest sent => flush_request bound (S i) rest w sent
        | Stop f => f
        end
    end
  else Flushed (truncate_queues w) sched sent.

(** [for i := len(w.syncEvents) - 1; i >= 0; i--], entered with
    [n = len(w.syncEvents)], then the rest of [flush]. *)
Fixpoint flush_sync (n : nat) (sched : list outcome) (w : Watcher)
    (sent : list (nat * Change)) : flushed :=
  match n with
  | O => flush_request (s_len (requestEvents w) + length sched) 0 sched w sent
  | S i =>
      match send_loop (sync_event_at i) sched w sent with
      | Left w rest sent => flush_sync i rest w sent
      | Stop f => f
      end
  end.

Definition flush (w : Watcher) (sched : list outcome) : flushed :=
  flush_sync (length (syncEvents w)) sched w [].

End Dispatcher.

(** ** [loop]: the goroutine of the watcher *)

(** The request [Sync] submits; it then waits until [done], a channel it
    has just made, is closed, or until the tomb is dying. *)
Definition Sync (done : nat) : request := reqSync (Some done).

(** The result of [w.log.Find(nil).Sort("-$natural").One(&entry)] in
    [initLastId]: the [_id] of the most recent entry, [mgo.ErrNotFound],
    or another error. *)
Inductive found : Type :=
  | FoundEntry (id : bval)
  | ErrNotFound
  | FindError (err : string).

(** The errors [loop] returns: [tomb.ErrDying], or the error of
    [initLastId] or [sync]. *)
Inductive error : Type :=
  | ErrDying
  | Err (msg : string).

(** What the other goroutines see of the watcher: a value received from a
    subscriber's channel, and a [done] channel closed. *)
Inductive action : Type :=
  | Sent (ch : nat) (c : Change)
  | Closed (done : nat).

#[global] Instance action_eq_dec : EqDecision action.
Proof. solve_decision. Defined.

(** The deliveries of a [flush], as actions. *)
Definition sent_actions (sent : list (nat * Change)) : list action :=
  (λ p, Sent p.1 p.2) <$> sent.

(** [for _, done := range syncDone { close(done) }]: closing a channel
    that is closed already is a run-time panic. *)
Fixpoint close_all (dones : list nat) (acts : list action)
    : option string * list action :=
  match dones with
  | [] => (None, acts)
  | d :: rest =>
      if decide (Closed d ∈ acts) then (Some "close of closed channel", acts)
      else close_all rest (acts ++ [Closed d])
  end.

Section Loop.

Variable growcap : nat → nat.

(** The [select] of [loop] has three ways to go, like those of [flush]:
    [loop] is run against the list of the outcomes of its [select]s.  A
    turn on the timer comes with the entries the iterator of [sync] yields
    and its final error, and a turn that reaches [flush] with the schedule
    of that [flush], of which the outcomes the [flush] does not use are
    dropped. *)
Inductive turn : Type :=
  | onDying
  | onTimer (log : list (list (string * bval))) (iterErr : option string)
            (sched : list outcome)
  | onRequest (req : request) (sched : list outcome).

(** The calls of [loop] that may panic. *)
Inductive place : Type := inSync | inHandle | inFlush | inClose.

(** How a run of [loop] ends:
    - [Returned]: [loop] returned the error;
    - [Panicked]: the call panicked, with the message;
    - [Idle]: the turns are used up, [loop] waits at its [select];
    - [Flushing]: the schedule of a [flush] is used up while it waits;
    - [Unbounded]: the bound of [flush_request] was reached. *)
Inductive looped : Type :=
  | Returned (err : error) (w : Watcher)
  | Panicked (at_ : place) (msg : string)
  | Idle (w : Watcher)
  | Flushing (w : Watcher)
  | Unbounded.

(** [w.flush()] followed by [k], the rest of the iteration. *)
Definition after_flush (f : flushed) (acts : list action)
    (k : Watcher → list action → looped * list action) : looped * list action :=
  match f with
  | Flushed w _ sent | Killed w _ sent => k w (acts ++ sent_actions sent)
  | Crashed msg sent => (Panicked inFlush msg, acts ++ sent_actions sent)
  | Blocked w sent => (Flushing w, acts ++ sent_actions sent)
  | Exhausted => (Unbounded, acts)
  end.

(** [for { select { ... } }] *)
Fixpoint loop_from (turns : list turn) (w : Watcher) (acts : list action)
    : looped * list action :=
  match turns with
  | [] => (Idle w, acts)
  | onDying :: _ => (Returned ErrDying w, acts)
  | onTimer log iterErr sched :: rest =>
      let pending := syncDone w in
      match sync (on_timer w) log iterErr with
      | Panic msg => (Panicked inSync msg, acts)
      | Ok (w, Some err) => (Returned (Err err) w, acts)
      | Ok (w, None) =>
          after_flush (flush growcap w sched) acts
            (λ w acts,
               match close_all pending acts with
               | (None, acts) => loop_from rest w acts
               | (Some msg, acts) => (Panicked inClose msg, acts)
               end)
      end
  | onRequest req sched :: rest =>
      match handle growcap w req with
      | Panic msg => (Panicked inHandle msg, acts)
      | Ok w => after_flush (flush growcap w sched) acts (loop_from rest)
      end
  end.

(** [loop]: the timer is armed, [initLastId] reads the most recent
    entry, and the [select]s follow. *)
Definition loop (first : found) (turns : list turn) : looped * list action :=
  let w := set_next New After0 in
  match first with
  | FindError err => (Returned (Err err) w, [])
  | FoundEntry id => loop_from turns (initLastId w (Some id)) []
  | ErrNotFound => loop_from turns (initLastId w None) []
  end.

End Loop.

(** * The vocabulary of the properties *)

(** ** The notification rule *)

(** The rule as the specification words it: the revision [v] is news for
    a subscriber that knows [k]. *)
Definition newer (v k : Z) : Prop := k < v ∨ (v = -1 ∧ 0 ≤ k).

#[global] Instance newer_dec v k : Decision (newer v k).
Proof. unfold newer. apply _. Defined.

(** What the rule does to a subscriber record, and the event it queues. *)
Definition advance (v : Z) (info : watchInfo) : watchInfo :=
  if decide (newer v (info_revno info)) then mkInfo (info_ch info) v else info.

Definition doc_event (key : watchKey) (v : Z) (info : watchInfo) : option event :=
  if decide (newer v (info_revno info)) then Some (mkEvent (info_ch info) key v)
  else None.

(** The values that pass the check [r[i].(int64)]. *)
Definition is_int64 (v : bval) : Prop := ∃ n, v = BScalar (IInt64 n).

#[global] Instance is_int64_dec v : Decision (is_int64 v).
Proof.
  destruct v as [[| n | |]| | |];
    solve [left; by eexists | right; intros [? [=]]].
Defined.

(** ** The request-event slice *)

(** The slice header fits its backing array. *)
Definition wf_slice (h : list (list event)) (s : slice) : Prop :=
  (s_len s ≤ s_cap s)%nat ∧ (s_cap s ≤ length (array_at h (s_ptr s)))%nat.

Definition wf_queue (w : Watcher) : Prop :=
  wf_slice (heap w) (requestEvents w).

(** The state after a [reqWatch] that catches up, and after one that
    does not. *)
Definition attached_caught_up (growcap : nat → nat) (w : Watcher)
    (key : watchKey) (ch : chan) (v : Z) : Watcher :=
  let hs := append_event growcap (heap w) (requestEvents w) (mkEvent ch key v) in
  set_watches (set_requestEvents w hs.1 hs.2)
    (<[key := watches_of w key ++ [mkInfo ch v]]> (watches w)).

Definition attached (w : Watcher) (key : watchKey) (ch : chan) (k : Z) : Watcher :=
  set_watches w (<[key := watches_of w key ++ [mkInfo ch k]]> (watches w)).

(** [handle w req = Ok w1] appended [ev] to the request events and left
    everything queued before as it was. *)
Definition appends (growcap : nat → nat) (w : Watcher) (req : request)
    (w1 : Watcher) (ev : event) : Prop :=
  handle growcap w req = Ok w1 ∧
  syncEvents w1 = syncEvents w ∧
  request_queue w1 = request_queue w ++ [ev] ∧
  length (request_queue w) = s_len (requestEvents w) ∧
  s_len (requestEvents w1) = S (s_len (requestEvents w)) ∧
  ∀ i, (i < s_len (requestEvents w))%nat →
       deref (heap w1) (mkPtr (s_ptr (requestEvents w)) i)
       = deref (heap w) (mkPtr (s_ptr (requestEvents w)) i).

(** ** The subscription table *)

(** The subscribers of a key are on different channels. *)
Definition distinct_channels (w : Watcher) : Prop :=
  ∀ key, NoDup (info_ch <$> watches_of w key).

(** The same channels are attached to every key. *)
Definition same_channels (w w' : Watcher) : Prop :=
  ∀ key, info_ch <$> watches_of w' key = info_ch <$> watches_of w key.

(** ** Passes *)

(** A run of [sync_triple] over the triples of a field, in the order of
    the list. *)
Fixpoint sync_list (cname : string) (l : list (bval * bval)) (st : pass)
    : result pass :=
  match l with
  | [] => Ok st
  | (di, ri) :: rest =>
      do st <- sync_triple cname di ri st;
      sync_list cname rest st
  end.

(** Nothing a pass keeps about [key] differs between [w] and [w']. *)
Definition untouched (key : watchKey) (w w' : Watcher) : Prop :=
  current w' !! key = current w !! key ∧
  watches_of w' key = watches_of w key ∧
  filter (λ e, ev_key e = key) (syncEvents w')
  = filter (λ e, ev_key e = key) (syncEvents w).

(** The request events and their arrays are the same. *)
Definition same_queue (w w' : Watcher) : Prop :=
  heap w' = heap w ∧ requestEvents w' = requestEvents w.

(** No field of the log lists a nil document id. *)
Definition ids_non_nil (log : list (list (string * bval))) : Prop :=
  ∀ entry c, entry ∈ log → c ∈ tail entry → BScalar INil ∉ (changed_docs c.2).1.

(** The field of a collection: its document ids and their revisions. *)
Definition doc_field (cname : string) (d r : list iface) : string * bval :=
  (cname, BDoc [("d", BArray (BScalar <$> d)); ("r", BArray (BScalar <$> r))]).

(** An entry as [mgo/txn] logs it: [_id] first, then the collections. *)
Definition log_entry (id : iface) (fields : list (string * bval))
    : list (string * bval) :=
  ("_id", BScalar id) :: fields.

(** The doubling of small slices by the [gc] run-time. *)
Definition double (cap : nat) : nat := 2 * cap.

(** ** Delivery *)

(** What an event sends when its turn comes: nothing once its channel
    is cleared. *)
Definition delivery (e : event) : option (nat * Change) :=
  (λ ch, (ch, change_of e)) <$> ev_ch e.

Definition deliveries (l : list event) : list (nat * Change) := omap delivery l.

(** A schedule in which every [select] sends. *)
Definition sends (n : nat) : list outcome := replicate n selSend.

(** The deliveries made by a [flush], however it ended. *)
Definition flushed_sent (f : flushed) : list (nat * Change) :=
  match f with
  | Flushed _ _ sent | Killed _ _ sent | Crashed _ sent | Blocked _ sent => sent
  | Exhausted => []
  end.

(** The watcher a [flush] leaves, unless it panicked. *)
Definition flushed_state (f : flushed) : option Watcher :=
  match f with
  | Flushed w _ _ | Killed w _ _ | Blocked w _ => Some w
  | Crashed _ _ | Exhausted => None
  end.

(** ** The new entries of a log *)

(** A log entry as the specification has it: its [_id] and, for each
    collection it names, the documents changed with their new revisions,
    in the order of the lists [d] and [r]. *)
Definition new_entry : Type := iface * list (string * list (iface * Z)).

(** The entry as the iterator yields it. *)
Definition encode_field (f : string * list (iface * Z)) : string * bval :=
  doc_field f.1 (fst <$> f.2) (IInt64 <$> (snd <$> f.2)).

Definition encode_entry (e : new_entry) : list (string * bval) :=
  log_entry e.1 (encode_field <$> e.2).

(** The order in which the specification has a pass take the triples of
    a log: the entries in the order of the iterator, the newest first; the
    collections of an entry in their order; the documents of a collection
    from the last to the first. *)
Definition field_triples (f : string * list (iface * Z)) : list (watchKey * Z) :=
  (λ p, (mkKey f.1 p.1, p.2)) <$> reverse f.2.

Definition entry_triples (e : new_entry) : list (watchKey * Z) :=
  e.2 ≫= field_triples.

Definition pass_triples (log : list new_entry) : list (watchKey * Z) :=
  log ≫= entry_triples.

(** The revision of the first occurrence of a key in a list of triples. *)
Fixpoint first_rev (l : list (watchKey * Z)) (k : watchKey) : option Z :=
  match l with
  | [] => None
  | (k', v) :: rest => if decide (k' = k) then Some v else first_rev rest k
  end.

(** A run of the body of the index loop over a list of triples, in the
    order of the list and with one [seen] set for the whole list. *)
Fixpoint sync_triples (l : list (watchKey * Z)) (st : pass) : result pass :=
  match l with
  | [] => Ok st
  | (k, v) :: rest =>
      do st <- sync_triple (wk_c k) (BScalar (wk_id k)) (BScalar (IInt64 v)) st;
      sync_triples rest st
  end.

(** ** Logs *)

(** The first field of the first entry that is not empty: a pass takes
    its value for [w.lastId]. *)
Fixpoint newest_field (log : list (list (string * bval))) : option (string * bval) :=
  match log with
  | [] => None
  | [] :: rest => newest_field rest
  | (c :: _) :: _ => Some c
  end.

(** The error [sync] makes of the error of its iterator. *)
Definition iteration_error (iterErr : option string) : option string :=
  (λ e, "watcher iteration error: " +:+ e) <$> iterErr.

(** A comparable value: not an array, not a document. *)
Definition scalar (v : bval) : Prop := ∃ x, v = BScalar x.

(** An entry as [mgo/txn] writes it, or an empty one: the first field is
    [_id] and holds a comparable value, and the document ids of the other
    fields are comparable values. *)
Definition well_formed (entry : list (string * bval)) : Prop :=
  match entry with
  | [] => True
  | (name, value) :: fields =>
      name = "_id" ∧ scalar value ∧
      ∀ c, c ∈ fields → Forall scalar (changed_docs c.2).1
  end.

(** ** What the watcher keeps between its steps *)

(** The timer is set, and set to fire at once while a [Sync] waits for
    its [done] channel to be closed. *)
Definition armed (w : Watcher) : Prop :=
  next w ≠ NoTimer ∧ (syncDone w ≠ [] → next w = After0).

(** No subscriber record is behind the registry: the revision the
    registry holds for a key is not news for any record of the key. *)
Definition caught_up (w : Watcher) : Prop :=
  ∀ key v info,
    current w !! key = Some v → info ∈ watches_of w key →
    ¬ newer v (info_revno info).

(** The registry holds canonical revisions only. *)
Definition canonical_registry (w : Watcher) : Prop :=
  ∀ key v, current w !! key = Some v → -1 ≤ v.

(** ** What a [flush] has to deliver *)

(** The deliveries of a [flush] of [w] that nothing interrupts, in
    order. *)
Definition due (w : Watcher) : list (nat * Change) :=
  deliveries (reverse (syncEvents w)) ++ deliveries (request_queue w).

(** ** The [done] channels *)

(** The [done] channels of the [Sync] requests of a schedule, in order. *)
Definition sync_done (o : outcome) : option nat :=
  match o with
  | selRequest (reqSync (Some d)) => Some d
  | _ => None
  end.

Definition sync_dones (sched : list outcome) : list nat := omap sync_done sched.

(** The pending [done] channels of [w'] are those of [w], followed by
    those of the requests taken from the schedule, of which [used] is the
    part gone through. *)
Definition pending_since (w : Watcher) (sched : list outcome) (w' : Watcher) : Prop :=
  ∃ used rest, sched = used ++ rest ∧ syncDone w' = syncDone w ++ sync_dones used.

(** The [done] channels of the [Sync] requests of the turns of a run. *)
Definition turn_dones (t : turn) : list nat :=
  match t with
  | onDying => []
  | onTimer _ _ sched => sync_dones sched
  | onRequest req sched => sync_dones (selRequest req :: sched)
  end.

Definition dones_of (turns : list turn) : list nat := turns ≫= turn_dones.

(** The channels still to be closed are distinct and none is closed. *)
Definition to_close (dones : list nat) (acts : list action) : Prop :=
  NoDup dones ∧ ∀ d, d ∈ dones → Closed d ∉ acts.

(** The run ended in a panic of [close]. *)
Definition close_panicked (l : looped) : bool :=
  match l with
  | Panicked inClose _ => true
  | _ => false
  end.

(** ** Runs of [loop] *)

(** The watcher a run of [loop] ends with, unless it panicked. *)
Definition looped_state (l : looped) : option Watcher :=
  match l with
  | Returned _ w | Idle w | Flushing w => Some w
  | Panicked _ _ | Unbounded => None
  end.

(** Every log a turn on the timer reads satisfies [P]. *)
Definition logs_satisfy (P : list (list (string * bval)) → Prop)
    (turns : list turn) : Prop :=
  ∀ log iterErr sched, onTimer log iterErr sched ∈ turns → P log.

(** The tomb is not dying in any [select] of the [flush] of the turn. *)
Definition undisturbed (t : turn) : Prop :=
  match t with
  | onDying => True
  | onTimer _ _ sched | onRequest _ sched => selDying ∉ sched
  end.

(** ** Reachable states *)

(** The states of a watcher whose change log satisfies [P] at every
    pass.  The steps are the ones [loop] makes, taken in any order, so
    every state of a run of [loop] is among them. *)
Inductive reachable (growcap : nat → nat)
    (P : list (list (string * bval)) → Prop) : Watcher → Prop :=
  | reach_New newest :
      reachable growcap P (loop_start newest)
  | reach_timer w :
      reachable growcap P w → reachable growcap P (on_timer w)
  | reach_handle w req w' :
      reachable growcap P w → handle growcap w req = Ok w' →
      reachable growcap P w'
  | reach_sync w log err w' err' :
      reachable growcap P w → P log → sync w log err = Ok (w', err') →
      reachable growcap P w'
  | reach_flush w sched w' :
      reachable growcap P w → flushed_state (flush growcap w sched) = Some w' →
      reachable growcap P w'.

(** ** States used as examples *)

(** Two subscribers of document 7 of "users", whose registry value is 3. *)
Definition registry_example : Watcher :=
  mkWatcher {[mkKey "users" (IInt 7) := [mkInfo (Some 1%nat) 0; mkInfo (Some 2%nat) 5]]}
            {[mkKey "users" (IInt 7) := 3]} [] [] nil_slice [] (BScalar INil) After0.

(** The same, with a subscriber of the collection "users" on channel 3
    and another on channel 4. *)
Definition collection_example : Watcher :=
  mkWatcher (<[collKey "users" := [mkInfo (Some 3%nat) 0; mkInfo (Some 4%nat) 9]]>
               {[mkKey "users" (IInt 7) := [mkInfo (Some 1%nat) 0; mkInfo (Some 2%nat) 5]]})
            {[mkKey "users" (IInt 7) := 3]} [] [] nil_slice [] (BScalar INil) After0.

(** A sync event waiting for channel 1, and a registry value to catch up
    on. *)
Definition pending_example : Watcher :=
  mkWatcher ∅ {[mkKey "users" (IInt 7) := 3]}
    [mkEvent (Some 1%nat) (mkKey "users" (IInt 8)) 2]
    [] nil_slice [] (BScalar INil) After0.

(** [registry_example] after a pass that finds document 7 of "users"
    deleted, in an entry with the identifier 100. *)
Definition deleted_example : Watcher :=
  mkWatcher {[mkKey "users" (IInt 7) := [mkInfo (Some 1%nat) (-1); mkInfo (Some 2%nat) (-1)]]}
            {[mkKey "users" (IInt 7) := -1]}
            [mkEvent (Some 1%nat) (mkKey "users" (IInt 7)) (-1);
             mkEvent (Some 2%nat) (mkKey "users" (IInt 7)) (-1)]
            [] nil_slice [] (BScalar (IInt 100)) After0.

(** The watcher after a [Watch] of document 7 of "users" that declares the
    revision 5, followed by a pass over a log whose only entry records the
    deletion of the document. *)
Definition observed_example : Watcher :=
  mkWatcher {[mkKey "users" (IInt 7) := [mkInfo (Some 1%nat) (-1)]]}
            {[mkKey "users" (IInt 7) := -1]}
            [mkEvent (Some 1%nat) (mkKey "users" (IInt 7)) (-1)]
            [] nil_slice [] (BScalar (IInt 100)) After0.

(** [observed_example] after two more subscribers of the document have
    attached, on channels 2 and 3, each of which is queued a catch-up
    event. *)
Definition grown_example : Watcher :=
  attached_caught_up double
    (attached_caught_up double observed_example (mkKey "users" (IInt 7))
       (Some 2%nat) (-1))
    (mkKey "users" (IInt 7)) (Some 3%nat) (-1).

(** The same [Watch], then a turn on the timer over the same log, with a
    receiver for the event. *)
Definition example_turns : list turn :=
  [onRequest (reqWatch (mkKey "users" (IInt 7)) (mkInfo (Some 1%nat) 5)) [];
   onTimer [log_entry (IInt 100) [doc_field "users" [IInt 7] [IInt64 (-3)]]] None
     (sends 1)].

(** The watcher after these turns. *)
Definition idle_example : Watcher :=
  mkWatcher {[mkKey "users" (IInt 7) := [mkInfo (Some 1%nat) (-1)]]}
            {[mkKey "users" (IInt 7) := -1]}
            [] [] nil_slice [] (BScalar (IInt 100)) AfterPeriod.

(** A watcher with a subscriber of document 7 of "users" and a [Sync]
    waiting on channel 9. *)
Definition waiting_example : Watcher :=
  mkWatcher {[mkKey "users" (IInt 7) := [mkInfo (Some 1%nat) 5]]} ∅
            [] [] nil_slice [9%nat] (BScalar INil) After0.

(** Two [Sync]s, the second taken by the [flush] of the turn that answers
    the first, and the turns that answer them. *)
Definition sync_turns : list turn :=
  [onRequest (reqWatch (mkKey "users" (IInt 7)) (mkInfo (Some 1%nat) 5)) [];
   onRequest (Sync 8) [];
   onTimer [log_entry (IInt 100) [doc_field "users" [IInt 7] [IInt64 (-3)]]] None
     [selRequest (Sync 9); selSend];
   onTimer [log_entry (IInt 100) [doc_field "users" [IInt 7] [IInt64 (-3)]]] None []].

(** * Properties *)

(** ** The notification rule *)

Lemma newer_watch_spec v k : newer_watch v k = bool_decide (newer v k).
Proof.
  unfold newer_watch, newer.
  destruct (bool_decide_reflect (k < v ∨ v = -1 ∧ 0 ≤ k)) as [H|H];
    destruct (Z.ltb_spec k v), (Z.eqb_spec v (-1)), (Z.leb_spec 0 k);
    simpl; try reflexivity; exfalso; lia.
Qed.

(** In [sync] the revision is canonical: negative means -1. *)
Lemma newer_sync_spec v k : -1 ≤ v → newer_sync v k = bool_decide (newer v k).
Proof.
  intros Hv. unfold newer_sync, newer.
  destruct (bool_decide_reflect (k < v ∨ v = -1 ∧ 0 ≤ k)) as [H|H];
    destruct (Z.ltb_spec k v), (Z.ltb_spec v 0), (Z.leb_spec 0 k);
    simpl; try reflexivity; exfalso; lia.
Qed.

Lemma canonical_ge revno : -1 ≤ canonical revno.
Proof. unfold canonical. destruct (Z.ltb_spec revno 0); lia. Qed.

(** ** Searching a subscriber list *)

Lemma find_ch_None ch infos :
  find_ch ch infos = None ↔ ∀ info, info ∈ infos → info_ch info ≠ ch.
Proof.
  induction infos as [|info infos IH]; simpl.
  - split; [intros _ x Hx; inversion Hx | done].
  - destruct (decide (info_ch info = ch)) as [Heq|Hne].
    + split; [done | intros H; exfalso; apply (H info); [left | done]].
    + rewrite fmap_None, IH. split.
      * intros H x Hx. apply elem_of_cons in Hx as [->|Hx]; auto.
      * intros H x Hx. apply H. by right.
Qed.

Lemma find_ch_Some ch infos i :
  find_ch ch infos = Some i →
  ∃ info, infos !! i = Some info ∧ info_ch info = ch ∧
          ∀ j info', (j < i)%nat → infos !! j = Some info' → info_ch info' ≠ ch.
Proof.
  revert i. induction infos as [|info infos IH]; intros i; simpl; [done|].
  destruct (decide (info_ch info = ch)) as [Heq|Hne].
  - intros [= <-]. exists info. split_and!; [done..|]. intros; lia.
  - destruct (find_ch ch infos) as [i'|] eqn:Hf; [|done].
    intros [= <-]. destruct (IH i' eq_refl) as (x & Hx & Hch & Hmin).
    exists x. split_and!; [done..|].
    intros [|j] info' Hj Hl; simpl in Hl; [by inversion Hl; subst|].
    eapply Hmin; [|done]. lia.
Qed.

Lemma find_ch_is_Some ch infos info :
  info ∈ infos → info_ch info = ch → is_Some (find_ch ch infos).
Proof.
  intros Hin Hch. destruct (find_ch ch infos) eqn:Hf; [by eexists|].
  exfalso. by eapply find_ch_None.
Qed.

(** ** The request-event slice *)

Lemma array_at_insert_eq h p arr :
  (p < length h)%nat → array_at (<[p := arr]> h) p = arr.
Proof. intros. unfold array_at. by rewrite list_lookup_insert_eq. Qed.

Lemma array_at_insert_ne h p q arr :
  p ≠ q → array_at (<[p := arr]> h) q = array_at h q.
Proof. intros. unfold array_at. by rewrite list_lookup_insert_ne. Qed.

Lemma array_at_valid h p : (0 < length (array_at h p))%nat → (p < length h)%nat.
Proof.
  unfold array_at. destruct (h !! p) eqn:Hl; simpl; [|lia].
  intros _. by eapply lookup_lt_Some.
Qed.

Lemma array_at_app h p arr :
  (p < length h)%nat → array_at (h ++ [arr]) p = array_at h p.
Proof. intros. unfold array_at. by rewrite lookup_app_l. Qed.

Lemma array_at_app_new h arr : array_at (h ++ [arr]) (length h) = arr.
Proof. unfold array_at. by rewrite list_lookup_middle. Qed.

Section Append.
Variable growcap : nat → nat.

Lemma append_event_elems h s e :
  wf_slice h s →
  slice_elems (append_event growcap h s e).1 (append_event growcap h s e).2
  = slice_elems h s ++ [e].
Proof.
  intros [Hlen Hcap]. unfold append_event, slice_elems.
  destruct (Nat.ltb_spec (s_len s) (s_cap s)) as [Hlt|Hge]; simpl.
  - rewrite array_at_insert_eq by (apply array_at_valid; lia).
    rewrite (take_S_r _ _ e) by (apply list_lookup_insert_eq; lia).
    by rewrite take_insert_ge by lia.
  - rewrite array_at_app_new.
    assert (length (take (s_len s) (array_at h (s_ptr s))) = s_len s) as Hl
      by (rewrite length_take; lia).
    rewrite take_app_ge by lia. rewrite Hl.
    by replace (S (s_len s) - s_len s)%nat with 1%nat by lia.
Qed.

Lemma append_event_wf h s e :
  wf_slice h s →
  wf_slice (append_event growcap h s e).1 (append_event growcap h s e).2.
Proof.
  intros [Hlen Hcap]. unfold append_event, wf_slice.
  destruct (Nat.ltb_spec (s_len s) (s_cap s)) as [Hlt|Hge]; simpl.
  - rewrite array_at_insert_eq by (apply array_at_valid; lia).
    rewrite length_insert. lia.
  - rewrite array_at_app_new. unfold slice_elems.
    rewrite length_app, length_take. simpl. rewrite length_replicate. lia.
Qed.

Lemma append_event_len h s e :
  s_len (append_event growcap h s e).2 = S (s_len s).
Proof. unfold append_event. by destruct (_ <? _)%nat. Qed.

(** A pointer to an element of the slice reads the same event after an
    [append], whether the elements were moved or not. *)
Lemma append_event_deref h s e i :
  wf_slice h s → (i < s_len s)%nat →
  deref (append_event growcap h s e).1 (mkPtr (s_ptr s) i) = deref h (mkPtr (s_ptr s) i).
Proof.
  intros [Hlen Hcap] Hi. unfold append_event, deref.
  destruct (Nat.ltb_spec (s_len s) (s_cap s)) as [Hlt|Hge]; simpl.
  - rewrite array_at_insert_eq by (apply array_at_valid; lia).
    by rewrite list_lookup_insert_ne by lia.
  - by rewrite array_at_app by (apply array_at_valid; lia).
Qed.

End Append.

(** ** Attaching a subscriber *)

Lemma watches_of_set_watches w m key :
  watches_of (set_watches w m) key = default [] (m !! key).
Proof. done. Qed.

Lemma handle_watch_fresh growcap w key ch k :
  find_ch ch (watches_of w key) = None →
  handle growcap w (reqWatch key (mkInfo ch k))
  = Ok match current w !! key with
       | Some v => if decide (newer v k) then attached_caught_up growcap w key ch v
                   else attached w key ch k
       | None => attached w key ch k
       end.
Proof.
  intros Hfresh. unfold handle. simpl. rewrite Hfresh.
  destruct (current w !! key) as [v|]; [|done].
  rewrite newer_watch_spec. destruct (decide (newer v k)) as [Hn|Hn].
  - rewrite bool_decide_eq_true_2 by done. unfold attached_caught_up.
    by destruct (append_event _ _ _ _).
  - by rewrite bool_decide_eq_false_2.
Qed.

Lemma attached_caught_up_queue growcap w key ch v :
  wf_queue w →
  request_queue (attached_caught_up growcap w key ch v)
  = request_queue w ++ [mkEvent ch key v].
Proof. intros Hwf. by apply append_event_elems. Qed.

(** C1. Handling [reqWatch{key, {ch, k}}] for a channel that is not yet
    attached to [key]: when the registry holds a revision [v] for [key]
    that is news for [k] ([v > k], or [v = -1] and [k >= 0]), exactly one
    event [(ch, key, v)] is appended to the request events and the
    subscriber is appended with its revision advanced to [v]; in every
    other case, a key missing from the registry included, no event is
    queued and the subscriber is appended with [k]. *)
Theorem handle_watch_catch_up (growcap : nat → nat) (w : Watcher)
    (key : watchKey) (ch : chan) (k : Z) :
  wf_queue w →
  (∀ info, info ∈ watches_of w key → info_ch info ≠ ch) →
  ∃ w', handle growcap w (reqWatch key (mkInfo ch k)) = Ok w' ∧
    syncEvents w' = syncEvents w ∧
    (∀ v, current w !! key = Some v → newer v k →
       request_queue w' = request_queue w ++ [mkEvent ch key v] ∧
       watches_of w' key = watches_of w key ++ [mkInfo ch v]) ∧
    (¬ (∃ v, current w !! key = Some v ∧ newer v k) →
       request_queue w' = request_queue w ∧
       watches_of w' key = watches_of w key ++ [mkInfo ch k]).
Proof.
  intros Hwf Hfresh. apply find_ch_None in Hfresh.
  rewrite (handle_watch_fresh growcap w key ch k Hfresh).
  eexists. split; [reflexivity|].
  destruct (current w !! key) as [v|] eqn:Hcur.
  - destruct (decide (newer v k)) as [Hn|Hn].
    + split; [done|]. split.
      * intros v' [= <-] _. split; [by apply attached_caught_up_queue|].
        unfold attached_caught_up. rewrite watches_of_set_watches.
        by rewrite lookup_insert_eq.
      * intros Hno. exfalso. apply Hno. by exists v.
    + split; [done|]. split.
      * intros v' [= <-] Hv. by destruct Hn.
      * intros _. split; [done|].
        unfold attached. rewrite watches_of_set_watches. by rewrite lookup_insert_eq.
  - split; [done|]. split.
    + intros v' [=].
    + intros _. split; [done|].
      unfold attached. rewrite watches_of_set_watches. by rewrite lookup_insert_eq.
Qed.

Lemma handle_watch_catch_up_witness :
  ∃ w', handle double registry_example
          (reqWatch (mkKey "users" (IInt 7)) (mkInfo (Some 3%nat) 1)) = Ok w' ∧
    syncEvents w' = syncEvents registry_example ∧
    (∀ v, current registry_example !! mkKey "users" (IInt 7) = Some v → newer v 1 →
       request_queue w'
       = request_queue registry_example ++ [mkEvent (Some 3%nat) (mkKey "users" (IInt 7)) v] ∧
       watches_of w' (mkKey "users" (IInt 7))
       = watches_of registry_example (mkKey "users" (IInt 7)) ++ [mkInfo (Some 3%nat) v]) ∧
    (¬ (∃ v, current registry_example !! mkKey "users" (IInt 7) = Some v ∧ newer v 1) →
       request_queue w' = request_queue registry_example ∧
       watches_of w' (mkKey "users" (IInt 7))
       = watches_of registry_example (mkKey "users" (IInt 7)) ++ [mkInfo (Some 3%nat) 1]).
Proof.
  apply (handle_watch_catch_up double registry_example (mkKey "users" (IInt 7))
           (Some 3%nat) 1).
  - split; vm_compute; lia.
  - intros info Hin. vm_compute in Hin.
    apply elem_of_cons in Hin as [->|Hin]; [discriminate|].
    apply elem_of_cons in Hin as [->|Hin]; [discriminate|].
    by apply elem_of_nil in Hin.
Defined.

(** C8. Handling [reqWatch] for a channel that already has a record under
    the same key panics, whatever the key and the declared revision. *)
Theorem handle_watch_duplicate_panics (growcap : nat → nat) (w : Watcher)
    (key : watchKey) (ch : chan) (k : Z) (info : watchInfo) :
  info ∈ watches_of w key →
  info_ch info = ch →
  handle growcap w (reqWatch key (mkInfo ch k))
  = Panic "adding channel twice for the same collection/document".
Proof.
  intros Hin Hch. unfold handle. simpl.
  by destruct (find_ch_is_Some ch (watches_of w key) info Hin Hch) as [i ->].
Qed.

Lemma handle_watch_duplicate_panics_witness :
  handle double registry_example
    (reqWatch (mkKey "users" (IInt 7)) (mkInfo (Some 2%nat) 0))
  = Panic "adding channel twice for the same collection/document".
Proof.
  apply (handle_watch_duplicate_panics double registry_example
           (mkKey "users" (IInt 7)) (Some 2%nat) 0 (mkInfo (Some 2%nat) 5)).
  - vm_compute. right. left.
  - reflexivity.
Defined.

(** ** One triple of a pass *)

Lemma notify_docs_spec key v infos :
  -1 ≤ v →
  notify_docs key v infos = (advance v <$> infos, omap (doc_event key v) infos).
Proof.
  intros Hv. induction infos as [|info infos IH]; simpl; [done|].
  rewrite IH, newer_sync_spec by done.
  unfold advance, doc_event.
  by destruct (decide (newer v (info_revno info))) as [Hn|Hn];
    [rewrite bool_decide_eq_true_2 | rewrite bool_decide_eq_false_2].
Qed.

Lemma sync_triple_seen cname docid ri w (seen : gset watchKey) :
  mkKey cname docid ∈ seen →
  sync_triple cname (BScalar docid) ri (w, seen) = Ok (w, seen).
Proof. intros Hin. simpl. by rewrite decide_True. Qed.

Lemma sync_triple_not_int64 cname docid ri w (seen : gset watchKey) :
  mkKey cname docid ∉ seen →
  ¬ is_int64 ri →
  sync_triple cname (BScalar docid) ri (w, seen)
  = Ok (w, {[mkKey cname docid]} ∪ seen).
Proof.
  intros Hin Hri. simpl. rewrite decide_False by done.
  destruct ri as [[]| | |]; try done. destruct Hri. by eexists.
Qed.

Lemma sync_triple_same cname docid revno w (seen : gset watchKey) :
  mkKey cname docid ∉ seen →
  current_or_zero w (mkKey cname docid) = canonical revno →
  sync_triple cname (BScalar docid) (BScalar (IInt64 revno)) (w, seen)
  = Ok (w, {[mkKey cname docid]} ∪ seen).
Proof.
  intros Hin Heq. simpl. rewrite decide_False by done.
  by rewrite Heq, Z.eqb_refl.
Qed.

Lemma sync_triple_update cname docid revno w (seen : gset watchKey) :
  let key := mkKey cname docid in
  let v := canonical revno in
  key ∉ seen →
  current_or_zero w key ≠ v →
  ∃ w', sync_triple cname (BScalar docid) (BScalar (IInt64 revno)) (w, seen)
        = Ok (w', {[key]} ∪ seen) ∧
    current w' = <[key := v]> (current w) ∧
    syncEvents w' = syncEvents w ++ coll_events key v (watches_of w (collKey cname))
                    ++ omap (doc_event key v) (watches_of w key) ∧
    watches w' = match watches w !! key with
                 | Some infos => <[key := advance v <$> infos]> (watches w)
                 | None => watches w
                 end ∧
    heap w' = heap w ∧ requestEvents w' = requestEvents w ∧
    syncDone w' = syncDone w ∧ lastId w' = lastId w ∧ next w' = next w.
Proof.
  intros key v Hin Hne. simpl. rewrite decide_False by done.
  fold key v. destruct (Z.eqb_spec (current_or_zero w key) v) as [|_]; [done|].
  rewrite notify_docs_spec by apply canonical_ge.
  destruct (watches w !! key) as [infos|] eqn:Hw;
    (eexists; split; [reflexivity|]); simpl; unfold watches_of; simpl;
    rewrite ?Hw; simpl; split_and!; try done.
  all: by rewrite (assoc_L (++)).
Qed.

(** C3. When a pass updates the registry value of a per-document key to
    the canonical revision [v], every subscriber of the collection is
    queued one event [(ch, key, v)], whatever the revision of its record,
    and its record is left as it is; then every subscriber record
    [(ch, k)] of the key for which [v] is news ([v > k], or [v = -1] and
    [k >= 0]) is queued one event [(ch, key, v)] and advanced to [v], in
    the order of the records, while a record for which it is not is left
    as it is and is queued nothing. *)
Theorem sync_triple_notifies (cname : string) (docid : iface) (revno : Z)
    (w : Watcher) (seen : gset watchKey) :
  let key := mkKey cname docid in
  let v := canonical revno in
  docid ≠ INil →
  key ∉ seen →
  current_or_zero w key ≠ v →
  ∃ w', sync_triple cname (BScalar docid) (BScalar (IInt64 revno)) (w, seen)
        = Ok (w', {[key]} ∪ seen) ∧
    current w' !! key = Some v ∧
    syncEvents w' = syncEvents w
                    ++ ((λ info, mkEvent (info_ch info) key v)
                          <$> watches_of w (mkKey cname INil))
                    ++ omap (λ info, if decide (newer v (info_revno info))
                                     then Some (mkEvent (info_ch info) key v)
                                     else None)
                            (watches_of w key) ∧
    watches_of w' key
    = (λ info, if decide (newer v (info_revno info))
               then mkInfo (info_ch info) v else info) <$> watches_of w key ∧
    watches_of w' (mkKey cname INil) = watches_of w (mkKey cname INil).
Proof.
  intros key v Hid Hseen Hne.
  destruct (sync_triple_update cname docid revno w seen Hseen Hne)
    as (w' & Hrun & Hcur & Hev & Hwat & _).
  exists w'. split; [exact Hrun|]. split_and!.
  - rewrite Hcur. apply lookup_insert_eq.
  - exact Hev.
  - unfold watches_of. rewrite Hwat. fold key.
    destruct (watches w !! key) as [infos|] eqn:Hw.
    + by rewrite lookup_insert_eq.
    + by rewrite Hw.
  - unfold watches_of. rewrite Hwat. fold key.
    destruct (watches w !! key) as [infos|] eqn:Hw; [|done].
    rewrite lookup_insert_ne; [done|]. unfold key. congruence.
Qed.

Lemma sync_triple_notifies_witness :
  ∃ w', sync_triple "users" (BScalar (IInt 7)) (BScalar (IInt64 4))
          (collection_example, ∅)
        = Ok (w', {[mkKey "users" (IInt 7)]} ∪ ∅) ∧
    current w' !! mkKey "users" (IInt 7) = Some (canonical 4) ∧
    syncEvents w'
    = syncEvents collection_example
      ++ ((λ info, mkEvent (info_ch info) (mkKey "users" (IInt 7)) (canonical 4))
            <$> watches_of collection_example (mkKey "users" INil))
      ++ omap (λ info, if decide (newer (canonical 4) (info_revno info))
                       then Some (mkEvent (info_ch info) (mkKey "users" (IInt 7))
                                    (canonical 4))
                       else None)
              (watches_of collection_example (mkKey "users" (IInt 7))) ∧
    watches_of w' (mkKey "users" (IInt 7))
    = (λ info, if decide (newer (canonical 4) (info_revno info))
               then mkInfo (info_ch info) (canonical 4) else info)
        <$> watches_of collection_example (mkKey "users" (IInt 7)) ∧
    watches_of w' (mkKey "users" INil)
    = watches_of collection_example (mkKey "users" INil).
Proof.
  apply (sync_triple_notifies "users" (IInt 7) 4 collection_example ∅).
  - discriminate.
  - apply not_elem_of_empty.
  - vm_compute. discriminate.
Defined.

(** The events of the witness: one for each subscriber of the collection,
    whatever its revision, and one for the subscriber of the document that
    knows the revision 0; the one that knows 5 is queued nothing. *)
Example sync_triple_notifies_example :
  (do st <- sync_triple "users" (BScalar (IInt 7)) (BScalar (IInt64 4))
              (collection_example, ∅);
   Ok (syncEvents st.1, watches_of st.1 (mkKey "users" (IInt 7)),
       watches_of st.1 (mkKey "users" INil)))
  = Ok ([mkEvent (Some 3%nat) (mkKey "users" (IInt 7)) 4;
         mkEvent (Some 4%nat) (mkKey "users" (IInt 7)) 4;
         mkEvent (Some 1%nat) (mkKey "users" (IInt 7)) 4],
        [mkInfo (Some 1%nat) 4; mkInfo (Some 2%nat) 5],
        [mkInfo (Some 3%nat) 0; mkInfo (Some 4%nat) 9]).
Proof. vm_compute. reflexivity. Qed.

(** ** What a pass leaves alone *)

Lemma untouched_refl key w : untouched key w w.
Proof. done. Qed.

Lemma untouched_trans key w1 w2 w3 :
  untouched key w1 w2 → untouched key w2 w3 → untouched key w1 w3.
Proof. intros (?&?&?) (?&?&?). split_and!; congruence. Qed.

Lemma filter_coll_events_ne key key' v infos :
  key' ≠ key → filter (λ e, ev_key e = key) (coll_events key' v infos) = [].
Proof.
  intros Hne. induction infos as [|info infos IH]; [done|].
  unfold coll_events in *. rewrite fmap_cons, filter_cons_False; done.
Qed.

Lemma filter_doc_events_ne key key' v infos :
  key' ≠ key → filter (λ e, ev_key e = key) (omap (doc_event key' v) infos) = [].
Proof.
  intros Hne. induction infos as [|info infos IH]; [done|].
  simpl. unfold doc_event at 1. destruct (decide _); [|done].
  rewrite filter_cons_False; done.
Qed.

Lemma sync_triple_frame key cname di ri w (seen : gset watchKey) w' seen' :
  key ∈ seen →
  sync_triple cname di ri (w, seen) = Ok (w', seen') →
  key ∈ seen' ∧ untouched key w w'.
Proof.
  intros Hin Hrun. destruct di as [docid| | |]; [|done..].
  destruct (decide (mkKey cname docid ∈ seen)) as [Hs|Hs].
  { rewrite sync_triple_seen in Hrun by done. by inversion Hrun; subst. }
  assert (mkKey cname docid ≠ key) as Hne by congruence.
  destruct (decide (is_int64 ri)) as [[n ->]|Hri].
  - destruct (decide (current_or_zero w (mkKey cname docid) = canonical n))
      as [Heq|Hneq].
    + rewrite sync_triple_same in Hrun by done.
      inversion Hrun; subst. split; [set_solver|done].
    + destruct (sync_triple_update cname docid n w seen Hs Hneq)
        as (w1 & Hrun1 & Hcur & Hev & Hwat & _).
      rewrite Hrun1 in Hrun. inversion Hrun; subst. split; [set_solver|].
      split_and!.
      * rewrite Hcur. by apply lookup_insert_ne.
      * unfold watches_of. rewrite Hwat.
        destruct (watches w !! mkKey cname docid); [|done].
        by rewrite lookup_insert_ne.
      * rewrite Hev, !filter_app, filter_coll_events_ne, filter_doc_events_ne by done.
        by rewrite !app_nil_r.
  - rewrite sync_triple_not_int64 in Hrun by done.
    inversion Hrun; subst. split; [set_solver|done].
Qed.

#[local] Arguments sync_triple : simpl never.

Lemma sync_docs_frame key cname d r n w (seen : gset watchKey) w' seen' :
  key ∈ seen →
  sync_docs cname d r n (w, seen) = Ok (w', seen') →
  key ∈ seen' ∧ untouched key w w'.
Proof.
  revert w seen. induction n as [|i IH]; intros w seen Hin Hrun; simpl in Hrun.
  - by inversion Hrun; subst.
  - destruct (d !! i) as [di|]; [|done]. destruct (r !! i) as [ri|]; [|done].
    destruct (sync_triple cname di ri (w, seen)) as [[w1 seen1]|] eqn:Ht; simpl in Hrun; [|done].
    destruct (sync_triple_frame key cname di ri w seen w1 seen1 Hin Ht) as [Hin1 Hu1].
    destruct (IH w1 seen1 Hin1 Hrun) as [Hin2 Hu2].
    split; [done|]. by eapply untouched_trans.
Qed.

Lemma sync_field_frame key c w (seen : gset watchKey) w' seen' :
  key ∈ seen →
  sync_field c (w, seen) = Ok (w', seen') →
  key ∈ seen' ∧ untouched key w w'.
Proof.
  intros Hin. unfold sync_field. destruct (changed_docs c.2) as [d r].
  destruct (_ || _).
  - by intros [= <- <-].
  - by apply sync_docs_frame.
Qed.

Lemma sync_fields_frame key fields w (seen : gset watchKey) w' seen' :
  key ∈ seen →
  sync_fields fields (w, seen) = Ok (w', seen') →
  key ∈ seen' ∧ untouched key w w'.
Proof.
  revert w seen. induction fields as [|c fields IH]; intros w seen Hin Hrun;
    simpl in Hrun.
  - by inversion Hrun; subst.
  - destruct (sync_field c (w, seen)) as [[w1 seen1]|] eqn:Hf; simpl in Hrun; [|done].
    destruct (sync_field_frame key c w seen w1 seen1 Hin Hf) as [Hin1 Hu1].
    destruct (IH w1 seen1 Hin1 Hrun) as [Hin2 Hu2].
    split; [done|]. by eapply untouched_trans.
Qed.

Lemma untouched_set_lastId key w v : untouched key w (set_lastId w v).
Proof. done. Qed.

Lemma sync_entries_frame key log first lastId0 w (seen : gset watchKey) w' seen' :
  key ∈ seen →
  sync_entries log first lastId0 (w, seen) = Ok (w', seen') →
  key ∈ seen' ∧ untouched key w w'.
Proof.
  revert first w seen.
  induction log as [|entry log IH]; intros first w seen Hin Hrun; simpl in Hrun.
  - by inversion Hrun; subst.
  - destruct entry as [|[name value] fields]; [by eapply IH|].
    destruct (decide (name = "_id")); [|done].
    assert (∃ w0, (if first then (set_lastId w value, seen) else (w, seen))
                  = (w0, seen) ∧ untouched key w w0)
      as (w0 & Hst & Hu0).
    { destruct first; eexists; (split; [reflexivity|]); done. }
    rewrite Hst in Hrun.
    destruct (iface_eq value lastId0) as [[]|]; [| |done].
    + by inversion Hrun; subst.
    + simpl in Hrun.
      destruct (sync_fields fields (w0, seen)) as [[w1 seen1]|] eqn:Hf; simpl in Hrun; [|done].
      destruct (sync_fields_frame key fields w0 seen w1 seen1 Hin Hf) as [Hin1 Hu1].
      destruct (IH false w1 seen1 Hin1 Hrun) as [Hin2 Hu2].
      split; [done|]. eapply untouched_trans; [|done]. by eapply untouched_trans.
Qed.

(** The index loop of a field visits the pairs of [d] and [r] from the
    last to the first. *)
Lemma sync_docs_take cname d r n st :
  (n ≤ length d)%nat → (n ≤ length r)%nat →
  sync_docs cname d r n st = sync_list cname (reverse (take n (zip d r))) st.
Proof.
  revert st. induction n as [|i IH]; intros st Hd Hr; simpl; [done|].
  destruct (lookup_lt_is_Some_2 d i) as [di Hdi]; [lia|].
  destruct (lookup_lt_is_Some_2 r i) as [ri Hri]; [lia|].
  rewrite Hdi, Hri.
  assert (zip d r !! i = Some (di, ri)) as Hz.
  { apply lookup_zip_with_Some. by exists di, ri. }
  rewrite (take_S_r _ _ _ Hz), reverse_snoc. simpl.
  destruct (sync_triple cname di ri st); simpl; [|done].
  apply IH; lia.
Qed.

Lemma sync_docs_reverse cname d r st :
  length d = length r →
  sync_docs cname d r (length d) st = sync_list cname (reverse (zip d r)) st.
Proof.
  intros Hlen. rewrite sync_docs_take by lia.
  by rewrite take_ge by (rewrite length_zip_with; lia).
Qed.

Lemma sync_triple_marks cname docid ri w (seen : gset watchKey) w' seen' :
  sync_triple cname (BScalar docid) ri (w, seen) = Ok (w', seen') →
  mkKey cname docid ∈ seen'.
Proof.
  intros Hrun. destruct (decide (mkKey cname docid ∈ seen)) as [Hs|Hs].
  { rewrite sync_triple_seen in Hrun by done. by inversion Hrun; subst. }
  destruct (decide (is_int64 ri)) as [[n ->]|Hri].
  - destruct (decide (current_or_zero w (mkKey cname docid) = canonical n))
      as [Heq|Hneq].
    + rewrite sync_triple_same in Hrun by done. inversion Hrun; set_solver.
    + destruct (sync_triple_update cname docid n w seen Hs Hneq) as (w1 & Hrun1 & _).
      rewrite Hrun1 in Hrun. inversion Hrun; set_solver.
  - rewrite sync_triple_not_int64 in Hrun by done. inversion Hrun; set_solver.
Qed.

(** C10. A triple whose revision is not an [int64] has put its key in
    [seen] before the check and changes nothing else; whatever the rest of
    the pass processes (the triples before it in the field, the fields
    after it in the entry, the older entries), the registry value of the
    key, its subscribers and the events queued for it stay as they were.
    The next pass starts from an empty [seen]. *)
Theorem sync_revno_type_error_shadows (cname : string) (docid : iface)
    (ri : bval) (w : Watcher) (seen : gset watchKey) :
  let key := mkKey cname docid in
  key ∉ seen →
  ¬ is_int64 ri →
  sync_triple cname (BScalar docid) ri (w, seen) = Ok (w, {[key]} ∪ seen) ∧
  (∀ ri' w0 (seen0 : gset watchKey), key ∈ seen0 →
     sync_triple cname (BScalar docid) ri' (w0, seen0) = Ok (w0, seen0)) ∧
  (∀ d r i fields log lastId0 w' seen',
     (do st <- sync_docs cname d r i (w, {[key]} ∪ seen);
      do st <- sync_fields fields st;
      sync_entries log false lastId0 st) = Ok (w', seen') →
     untouched key w w').
Proof.
  intros key Hseen Hri. split_and!.
  - by apply sync_triple_not_int64.
  - intros ri' w0 seen0 Hin. by apply sync_triple_seen.
  - intros d r i fields log lastId0 w' seen' Hrun.
    destruct (sync_docs cname d r i (w, {[key]} ∪ seen)) as [[w1 seen1]|] eqn:H1;
      simpl in Hrun; [|done].
    destruct (sync_fields fields (w1, seen1)) as [[w2 seen2]|] eqn:H2;
      simpl in Hrun; [|done].
    apply (sync_docs_frame key) in H1 as [Hin1 Hu1]; [|set_solver].
    apply (sync_fields_frame key) in H2 as [Hin2 Hu2]; [|done].
    apply (sync_entries_frame key) in Hrun as [Hin3 Hu3]; [|done].
    eapply untouched_trans; [|done]. by eapply untouched_trans.
Qed.

Lemma sync_revno_type_error_shadows_witness :
  sync_triple "apps" (BScalar (IInt 1)) (BScalar (IString "12")) (New, ∅)
  = Ok (New, {[mkKey "apps" (IInt 1)]} ∪ ∅) ∧
  (∀ ri' w0 (seen0 : gset watchKey), mkKey "apps" (IInt 1) ∈ seen0 →
     sync_triple "apps" (BScalar (IInt 1)) ri' (w0, seen0) = Ok (w0, seen0)) ∧
  (∀ d r i fields log lastId0 w' seen',
     (do st <- sync_docs "apps" d r i (New, {[mkKey "apps" (IInt 1)]} ∪ ∅);
      do st <- sync_fields fields st;
      sync_entries log false lastId0 st) = Ok (w', seen') →
     untouched (mkKey "apps" (IInt 1)) New w').
Proof.
  apply (sync_revno_type_error_shadows "apps" (IInt 1) (BScalar (IString "12")) New ∅).
  - apply not_elem_of_empty.
  - intros [n Hn]. discriminate Hn.
Defined.

(** A newest entry with a revision of the wrong type hides the valid
    revision of an older entry of the same pass. *)
Example sync_revno_type_error_example :
  (do r <- sync New [log_entry (IInt 101) [doc_field "apps" [IInt 1] [IString "12"]];
                     log_entry (IInt 100) [doc_field "apps" [IInt 1] [IInt64 11]]]
                None;
   Ok (current r.1 !! mkKey "apps" (IInt 1), syncEvents r.1))
  = Ok (None, []).
Proof. vm_compute. reflexivity. Qed.

(** ** A revision equal to the registry value *)

Lemma sync_triple_same_iff cname docid revno w (seen : gset watchKey) :
  mkKey cname docid ∉ seen →
  sync_triple cname (BScalar docid) (BScalar (IInt64 revno)) (w, seen)
  = Ok (w, {[mkKey cname docid]} ∪ seen)
  ↔ current_or_zero w (mkKey cname docid) = canonical revno.
Proof.
  intros Hseen. split.
  - intros Hrun.
    destruct (decide (current_or_zero w (mkKey cname docid) = canonical revno))
      as [|Hne]; [done|].
    destruct (sync_triple_update cname docid revno w seen Hseen Hne)
      as (w' & Hrun' & Hcur & _).
    rewrite Hrun in Hrun'. inversion Hrun'; subst w'.
    exfalso. apply Hne. unfold current_or_zero. rewrite Hcur.
    by rewrite lookup_insert_eq.
  - by apply sync_triple_same.
Qed.

(** The pass reads the registry with the one-result form [w.current[key]]:
    a triple whose key is new to the pass is passed over exactly when its
    canonical revision is the revision the registry holds for the key or,
    for a key the registry does not hold, when it is 0. *)
Theorem sync_triple_passes_over (cname : string) (docid : iface) (revno : Z)
    (w : Watcher) (seen : gset watchKey) :
  mkKey cname docid ∉ seen →
  sync_triple cname (BScalar docid) (BScalar (IInt64 revno)) (w, seen)
  = Ok (w, {[mkKey cname docid]} ∪ seen)
  ↔ canonical revno = match current w !! mkKey cname docid with
                      | Some held => held
                      | None => 0
                      end.
Proof.
  intros Hseen. rewrite (sync_triple_same_iff cname docid revno w seen Hseen).
  unfold current_or_zero. by destruct (current w !! mkKey cname docid).
Qed.

Lemma sync_triple_passes_over_witness :
  sync_triple "users" (BScalar (IInt 8)) (BScalar (IInt64 0)) (registry_example, ∅)
  = Ok (registry_example, {[mkKey "users" (IInt 8)]} ∪ ∅)
  ↔ canonical 0 = match current registry_example !! mkKey "users" (IInt 8) with
                  | Some held => held
                  | None => 0
                  end.
Proof.
  apply (sync_triple_passes_over "users" (IInt 8) 0 registry_example ∅).
  apply not_elem_of_empty.
Defined.

(** The two sides of the witness hold: document 8 is not in the registry
    and the triple that gives it the revision 0 is passed over, while the
    one that gives it the revision -1 is recorded. *)
Example sync_triple_passes_over_example :
  (current registry_example !! mkKey "users" (IInt 8),
   sync_triple "users" (BScalar (IInt 8)) (BScalar (IInt64 0)) (registry_example, ∅),
   (λ st, current st.1 !! mkKey "users" (IInt 8))
     <$> match sync_triple "users" (BScalar (IInt 8)) (BScalar (IInt64 (-1)))
                 (registry_example, ∅) with
         | Ok st => Some st
         | Panic _ => None
         end)
  = (None, Ok (registry_example, {[mkKey "users" (IInt 8)]} ∪ ∅), Some (Some (-1))).
Proof. vm_compute. reflexivity. Qed.

(** C2, as stated, fails: over an empty registry, with a watcher of
    collection "apps" on channel 7 and a watcher of document 1 that
    declared revision 5 on channel 8, a first triple for document 1 with
    canonical revision -1 is recorded and both are notified. *)
Lemma sync_deletion_of_unobserved_key_fires :
  (do w <- handle double New (WatchCollection "apps" (Some 7%nat));
   do q <- Watch "apps" (IInt 1) 5 (Some 8%nat);
   do w <- handle double w q;
   do r <- sync w [log_entry (IInt 100) [doc_field "apps" [IInt 1] [IInt64 (-1)]]] None;
   Ok (current w !! mkKey "apps" (IInt 1),
       current r.1 !! mkKey "apps" (IInt 1), syncEvents r.1))
  = Ok (None, Some (-1),
        [mkEvent (Some 7%nat) (mkKey "apps" (IInt 1)) (-1);
         mkEvent (Some 8%nat) (mkKey "apps" (IInt 1)) (-1)]).
Proof. vm_compute. reflexivity. Qed.

(** C2, amended. A triple whose key is new to the pass is passed over, with
    no registry update and no event, exactly when its canonical revision
    equals the value the registry holds for the key.  A key the registry
    does not hold is not taken to have revision -1: a first triple with
    canonical revision -1, or any canonical revision other than 0, is
    recorded and notified. *)
Theorem sync_skips_equal_revno :
  (∀ cname docid revno cur w (seen : gset watchKey),
     mkKey cname docid ∉ seen →
     current w !! mkKey cname docid = Some cur →
     sync_triple cname (BScalar docid) (BScalar (IInt64 revno)) (w, seen)
     = Ok (w, {[mkKey cname docid]} ∪ seen)
     ↔ cur = canonical revno) ∧
  (∀ cname docid revno w (seen : gset watchKey),
     let key := mkKey cname docid in
     let v := canonical revno in
     key ∉ seen →
     current w !! key = None →
     v ≠ 0 →
     ∃ w', sync_triple cname (BScalar docid) (BScalar (IInt64 revno)) (w, seen)
           = Ok (w', {[key]} ∪ seen) ∧
       current w' !! key = Some v ∧
       syncEvents w' = syncEvents w
                       ++ coll_events key v (watches_of w (collKey cname))
                       ++ omap (doc_event key v) (watches_of w key)).
Proof.
  split.
  - intros cname docid revno cur w seen Hseen Hcur.
    assert (current_or_zero w (mkKey cname docid) = cur) as <-
      by (unfold current_or_zero; by rewrite Hcur).
    by apply sync_triple_same_iff.
  - intros cname docid revno w seen key v Hseen Hcur Hv.
    assert (current_or_zero w key ≠ v) as Hne
      by (unfold current_or_zero; rewrite Hcur; simpl; congruence).
    destruct (sync_triple_update cname docid revno w seen Hseen Hne)
      as (w' & Hrun & Hcur' & Hev & _).
    exists w'. split; [exact Hrun|]. split; [|exact Hev].
    fold key v in Hcur'. rewrite Hcur'. apply lookup_insert_eq.
Qed.

Lemma sync_skips_equal_revno_witness :
  ∃ w', sync_triple "users" (BScalar (IInt 8)) (BScalar (IInt64 (-2)))
          (registry_example, ∅)
        = Ok (w', {[mkKey "users" (IInt 8)]} ∪ ∅) ∧
    current w' !! mkKey "users" (IInt 8) = Some (canonical (-2)) ∧
    syncEvents w'
    = syncEvents registry_example
      ++ coll_events (mkKey "users" (IInt 8)) (canonical (-2))
           (watches_of registry_example (collKey "users"))
      ++ omap (doc_event (mkKey "users" (IInt 8)) (canonical (-2)))
           (watches_of registry_example (mkKey "users" (IInt 8))).
Proof.
  apply (proj2 sync_skips_equal_revno "users" (IInt 8) (-2) registry_example ∅).
  - apply not_elem_of_empty.
  - vm_compute. reflexivity.
  - vm_compute. discriminate.
Defined.

(** ** Malformed entries *)




(** ** Delivery *)

#[local] Arguments handle : simpl never.

Lemma deliveries_app l1 l2 : deliveries (l1 ++ l2) = deliveries l1 ++ deliveries l2.
Proof. apply omap_app. Qed.

Lemma sends_S n : sends (S n) = selSend :: sends n.
Proof. done. Qed.

Section Flush.
Variable growcap : nat → nat.

Lemma send_loop_cleared read sched w sent :
  ev_ch (read w) = None →
  send_loop growcap read sched w sent = Left w sched sent.
Proof. intros H. destruct sched; simpl; by rewrite H. Qed.

Lemma send_loop_send read rest w sent ch :
  ev_ch (read w) = Some ch →
  send_loop growcap read (selSend :: rest) w sent
  = Left w rest (sent ++ [(ch, change_of (read w))]).
Proof. intros H. simpl. by rewrite H. Qed.

Lemma send_loop_request read req rest w w' sent ch :
  ev_ch (read w) = Some ch →
  handle growcap w req = Ok w' →
  send_loop growcap read (selRequest req :: rest) w sent
  = send_loop growcap read rest w' sent.
Proof. intros H Hh. simpl. by rewrite H, Hh. Qed.

(** One event under a schedule of sends. *)
Lemma send_loop_sends read e rest w sent :
  read w = e →
  send_loop growcap read (sends (length (deliveries [e])) ++ rest) w sent
  = Left w rest (sent ++ deliveries [e]).
Proof.
  intros <-. unfold deliveries. simpl. unfold delivery.
  destruct (ev_ch (read w)) as [ch|] eqn:Hch; simpl.
  - by rewrite Hch.
  - rewrite app_nil_r. by apply send_loop_cleared.
Qed.

Lemma deref_request_queue w i :
  (i < s_len (requestEvents w))%nat →
  deref (heap w) (mkPtr (s_ptr (requestEvents w)) i)
  = default zero_event (request_queue w !! i).
Proof.
  intros Hi. unfold deref, request_queue, slice_elems. simpl.
  by rewrite lookup_take_lt.
Qed.

Lemma request_queue_length w : (length (request_queue w) ≤ s_len (requestEvents w))%nat.
Proof. unfold request_queue, slice_elems. rewrite length_take. lia. Qed.

Lemma flush_request_sends bound i rest w sent :
  (s_len (requestEvents w) - i ≤ bound)%nat →
  flush_request growcap bound i
    (sends (length (deliveries (drop i (request_queue w)))) ++ rest) w sent
  = Flushed (truncate_queues w) rest (sent ++ deliveries (drop i (request_queue w))).
Proof.
  revert i sent. induction bound as [|bound IH]; intros i sent Hb.
  - simpl. destruct (Nat.ltb_spec i (s_len (requestEvents w))); [lia|].
    rewrite drop_ge by (pose proof (request_queue_length w); lia).
    simpl. by rewrite app_nil_r.
  - simpl. destruct (Nat.ltb_spec i (s_len (requestEvents w))) as [Hi|Hi].
    + destruct (request_queue w !! i) as [e|] eqn:He.
      * rewrite (drop_S _ _ _ He).
        change (e :: drop (S i) (request_queue w))
          with ([e] ++ drop (S i) (request_queue w)).
        rewrite deliveries_app, length_app. unfold sends.
        rewrite replicate_add, <- (assoc_L (++)).
        rewrite (send_loop_sends _ e) by (by rewrite deref_request_queue, He).
        rewrite IH by lia. by rewrite (assoc_L (++)).
      * rewrite send_loop_cleared by (by rewrite deref_request_queue, He).
        rewrite drop_ge by (by apply lookup_ge_None).
        specialize (IH (S i) sent).
        rewrite drop_ge in IH by (apply lookup_ge_None in He; lia).
        apply IH. lia.
    + rewrite drop_ge by (pose proof (request_queue_length w); lia).
      simpl. by rewrite app_nil_r.
Qed.

Lemma sync_event_at_lookup i w e :
  syncEvents w !! i = Some e → sync_event_at i w = e.
Proof. intros H. unfold sync_event_at. by rewrite H. Qed.

Lemma flush_sync_sends n rest w sent :
  (n ≤ length (syncEvents w))%nat →
  flush_sync growcap n
    (sends (length (deliveries (reverse (take n (syncEvents w)))
                    ++ deliveries (request_queue w))) ++ rest) w sent
  = Flushed (truncate_queues w) rest
      (sent ++ deliveries (reverse (take n (syncEvents w)))
            ++ deliveries (request_queue w)).
Proof.
  revert sent. induction n as [|i IH]; intros sent Hn.
  - simpl. rewrite <- (drop_0 (request_queue w)).
    rewrite flush_request_sends by lia. done.
  - destruct (lookup_lt_is_Some_2 (syncEvents w) i) as [e He]; [lia|].
    rewrite (take_S_r _ _ _ He), reverse_snoc.
    change (e :: reverse (take i (syncEvents w)))
      with ([e] ++ reverse (take i (syncEvents w))).
    rewrite deliveries_app, <- !(assoc_L (++)), length_app. unfold sends.
    rewrite replicate_add, <- (assoc_L (++)). simpl flush_sync.
    rewrite (send_loop_sends _ e) by (by apply sync_event_at_lookup).
    fold (sends (length (deliveries (reverse (take i (syncEvents w)))
                         ++ deliveries (request_queue w)))).
    rewrite IH by lia. by rewrite !(assoc_L (++)).
Qed.

End Flush.

(** ** What [handle] keeps *)

Section HandleFacts.
Variable growcap : nat → nat.

Lemma handle_current w req w' :
  handle growcap w req = Ok w' → current w' = current w.
Proof.
  unfold handle. destruct req as [[d|]|key info|key ch|]; simpl.
  - by intros [= <-].
  - by intros [= <-].
  - destruct (find_ch _ _); [done|].
    destruct (current w !! key) as [v|]; [|by intros [= <-]].
    destruct (newer_watch _ _); [|by intros [= <-]].
    destruct (append_event _ _ _ _). by intros [= <-].
  - intros [= <-]. by destruct (find_ch _ _).
  - done.
Qed.

Lemma tombstone_array_length key ch len arr :
  length (tombstone_array key ch len arr) = length arr.
Proof.
  unfold tombstone_array.
  rewrite length_app, length_fmap, length_take, length_drop. lia.
Qed.

Lemma handle_wf w req w' :
  wf_queue w → handle growcap w req = Ok w' → wf_queue w'.
Proof.
  unfold handle, wf_queue. intros Hwf.
  destruct req as [[d|]|key info|key ch|]; simpl.
  - by intros [= <-].
  - by intros [= <-].
  - destruct (find_ch _ _); [done|].
    destruct (current w !! key) as [v|]; [|by intros [= <-]].
    destruct (newer_watch _ _); [|by intros [= <-]].
    pose proof (append_event_wf growcap _ _ (mkEvent (info_ch info) key v) Hwf) as H.
    destruct (append_event _ _ _ _). by intros [= <-].
  - intros [= <-]. destruct Hwf as [Hlen Hcap].
    assert (wf_slice
      (<[s_ptr (requestEvents w) :=
           tombstone_array key ch (s_len (requestEvents w))
             (array_at (heap w) (s_ptr (requestEvents w)))]> (heap w))
      (requestEvents w)) as Hwf'.
    { split; [done|].
      destruct (decide (s_ptr (requestEvents w) < length (heap w))%nat).
      - rewrite array_at_insert_eq by done. by rewrite tombstone_array_length.
      - by rewrite list_insert_ge by lia. }
    by destruct (find_ch _ _).
  - done.
Qed.

Lemma handle_len w req w' :
  handle growcap w req = Ok w' →
  (s_len (requestEvents w') ≤ S (s_len (requestEvents w)))%nat.
Proof.
  unfold handle. destruct req as [[d|]|key info|key ch|]; simpl.
  - intros [= <-]. simpl. lia.
  - intros [= <-]. simpl. lia.
  - destruct (find_ch _ _); [done|].
    destruct (current w !! key) as [v|]; [|intros [= <-]; simpl; lia].
    destruct (newer_watch _ _); [|intros [= <-]; simpl; lia].
    pose proof (append_event_len growcap (heap w) (requestEvents w)
                  (mkEvent (info_ch info) key v)) as H.
    destruct (append_event _ _ _ _). intros [= <-]. simpl in *. lia.
  - intros [= <-]. destruct (find_ch _ _); simpl; lia.
  - done.
Qed.

End HandleFacts.

(** ** What a [flush] preserves *)

(** A property of the watcher that [handle] and the truncations keep
    holds of the state a [flush] leaves. *)
Section FlushInvariant.
Variable growcap : nat → nat.
Variable I : Watcher → Prop.
Hypothesis I_handle : ∀ w req w', I w → handle growcap w req = Ok w' → I w'.
Hypothesis I_truncate : ∀ w, I w → I (truncate_queues w).

Lemma send_loop_Left_inv read sched w sent w' rest sent' :
  I w → send_loop growcap read sched w sent = Left w' rest sent' → I w'.
Proof.
  revert w. induction sched as [|o sched IH]; intros w Hw; simpl.
  - destruct (ev_ch (read w)); [done|]. by intros [= <- <- <-].
  - destruct (ev_ch (read w)); [|by intros [= <- <- <-]].
    destruct o as [|req|]; [done| |by intros [= <- <- <-]].
    destruct (handle growcap w req) as [w1|] eqn:Hh; [|done].
    apply IH. by eapply I_handle.
Qed.

Lemma send_loop_Stop_inv read sched w sent f w' :
  I w → send_loop growcap read sched w sent = Stop f →
  flushed_state f = Some w' → I w'.
Proof.
  revert w. induction sched as [|o sched IH]; intros w Hw; simpl.
  - destruct (ev_ch (read w)); [|done]. by intros [= <-] [= <-].
  - destruct (ev_ch (read w)); [|done].
    destruct o as [|req|]; [by intros [= <-] [= <-]| |done].
    destruct (handle growcap w req) as [w1|] eqn:Hh.
    + apply IH. by eapply I_handle.
    + by intros [= <-].
Qed.

Lemma flush_request_inv bound i sched w sent w' :
  I w → flushed_state (flush_request growcap bound i sched w sent) = Some w' → I w'.
Proof.
  revert i sched w sent. induction bound as [|bound IH]; intros i sched w sent Hw;
    simpl; destruct (_ <? _)%nat; try done.
  - intros [= <-]. by apply I_truncate.
  - destruct (send_loop growcap _ sched w sent) as [w1 rest1 sent1|f1] eqn:Hs.
    + apply IH. by eapply send_loop_Left_inv.
    + by eapply send_loop_Stop_inv.
  - intros [= <-]. by apply I_truncate.
Qed.

Lemma flush_inv w sched w' :
  I w → flushed_state (flush growcap w sched) = Some w' → I w'.
Proof.
  unfold flush. generalize (@nil (nat * Change)) as sent.
  generalize (length (syncEvents w)) as n. intros n. revert sched w.
  induction n as [|i IH]; intros sched w sent Hw; simpl.
  - by apply flush_request_inv.
  - destruct (send_loop growcap _ sched w sent) as [w1 rest1 sent1|f1] eqn:Hs.
    + apply IH. by eapply send_loop_Left_inv.
    + by eapply send_loop_Stop_inv.
Qed.

End FlushInvariant.

(** ** How a [flush] ends *)

Section FlushEnds.
Variable growcap : nat → nat.

Lemma send_loop_Left_len read sched w sent w' rest sent' :
  send_loop growcap read sched w sent = Left w' rest sent' →
  (s_len (requestEvents w') + length rest ≤ s_len (requestEvents w) + length sched)%nat.
Proof.
  revert w. induction sched as [|o sched IH]; intros w; simpl.
  - destruct (ev_ch (read w)); [done|]. by intros [= <- <- <-].
  - destruct (ev_ch (read w)); [|intros [= <- <- <-]; done].
    destruct o as [|req|]; [done| |intros [= <- <- <-]; simpl; lia].
    destruct (handle growcap w req) as [w1|] eqn:Hh; [|done].
    intros Hrun. apply IH in Hrun. apply handle_len in Hh. simpl. lia.
Qed.

Lemma send_loop_Stop read sched w sent f :
  send_loop growcap read sched w sent = Stop f →
  f ≠ Exhausted ∧ ∀ w' rest sent', f ≠ Flushed w' rest sent'.
Proof.
  revert w. induction sched as [|o sched IH]; intros w; simpl.
  - destruct (ev_ch (read w)); [|done]. by intros [= <-].
  - destruct (ev_ch (read w)); [|done].
    destruct o as [|req|]; [by intros [= <-]| |done].
    destruct (handle growcap w req) as [w1|] eqn:Hh; [apply IH|by intros [= <-]].
Qed.

Lemma truncate_queues_empty w :
  syncEvents (truncate_queues w) = [] ∧ request_queue (truncate_queues w) = [].
Proof. done. Qed.

Lemma flush_request_end bound i sched w sent f :
  (s_len (requestEvents w) + length sched ≤ bound + i)%nat →
  flush_request growcap bound i sched w sent = f →
  f ≠ Exhausted ∧
  ∀ w' rest sent', f = Flushed w' rest sent' →
    syncEvents w' = [] ∧ request_queue w' = [].
Proof.
  revert i sched w sent. induction bound as [|bound IH]; intros i sched w sent Hb.
  - simpl. destruct (Nat.ltb_spec i (s_len (requestEvents w))); [lia|].
    intros <-. split; [done|].
    intros w' rest sent' [= <- _ _]. apply truncate_queues_empty.
  - simpl. destruct (Nat.ltb_spec i (s_len (requestEvents w))) as [Hi|Hi].
    + destruct (send_loop growcap _ sched w sent) as [w1 rest1 sent1|f1] eqn:Hs.
      * pose proof (send_loop_Left_len _ _ _ _ _ _ _ Hs) as Hl.
        apply IH. lia.
      * intros <-. destruct (send_loop_Stop _ _ _ _ _ Hs) as (He & Hf).
        split; [done|]. intros w' rest sent' ->. by destruct (Hf w' rest sent').
    + intros <-. split; [done|].
      intros w' rest sent' [= <- _ _]. apply truncate_queues_empty.
Qed.

Lemma flush_sync_end n sched w sent f :
  flush_sync growcap n sched w sent = f →
  f ≠ Exhausted ∧
  ∀ w' rest sent', f = Flushed w' rest sent' →
    syncEvents w' = [] ∧ request_queue w' = [].
Proof.
  revert sched w sent. induction n as [|i IH]; intros sched w sent; simpl.
  - apply flush_request_end. lia.
  - destruct (send_loop growcap _ sched w sent) as [w1 rest1 sent1|f1] eqn:Hs.
    + apply IH.
    + intros <-. destruct (send_loop_Stop _ _ _ _ _ Hs) as (He & Hf).
      split; [done|]. intros w' rest sent' ->. by destruct (Hf w' rest sent').
Qed.

End FlushEnds.

Lemma truncate_queues_wf w : wf_queue w → wf_queue (truncate_queues w).
Proof. unfold wf_queue, wf_slice. simpl. lia. Qed.

Lemma flush_current growcap w sched w' :
  flushed_state (flush growcap w sched) = Some w' → current w' = current w.
Proof.
  apply (flush_inv growcap (λ w0, current w0 = current w)); [|done..].
  intros w1 req w2 Hw1 Hh. rewrite <- Hw1. by eapply handle_current.
Qed.

Lemma flush_wf growcap w sched w' :
  wf_queue w → flushed_state (flush growcap w sched) = Some w' → wf_queue w'.
Proof.
  apply (flush_inv growcap wf_queue).
  - intros w1 req w2. apply handle_wf.
  - apply truncate_queues_wf.
Qed.

(** ** A request that appends while [flush] waits *)

#[local] Arguments send_loop : simpl never.

Section Grow.
Variable growcap : nat → nat.

Lemma handle_watch_appends w key ch k v :
  wf_queue w →
  (∀ info, info ∈ watches_of w key → info_ch info ≠ ch) →
  current w !! key = Some v →
  newer v k →
  appends growcap w (reqWatch key (mkInfo ch k))
    (attached_caught_up growcap w key ch v) (mkEvent ch key v).
Proof.
  intros Hwf Hfresh Hcur Hn. apply find_ch_None in Hfresh.
  unfold appends. split_and!.
  - rewrite handle_watch_fresh, Hcur by done. by rewrite decide_True.
  - done.
  - by apply attached_caught_up_queue.
  - unfold request_queue, slice_elems. rewrite length_take.
    destruct Hwf. lia.
  - apply append_event_len.
  - intros i Hi. by apply append_event_deref.
Qed.

Lemma flush_request_step bound i sched w sent :
  (i < s_len (requestEvents w))%nat →
  flush_request growcap (S bound) i sched w sent
  = match send_loop growcap
            (λ w', deref (heap w') (mkPtr (s_ptr (requestEvents w)) i)) sched w sent with
    | Left w rest sent => flush_request growcap bound (S i) rest w sent
    | Stop f => f
    end.
Proof.
  intros Hi. simpl. by destruct (Nat.ltb_spec i (s_len (requestEvents w))); [|lia].
Qed.

Lemma flush_sync_step i sched w sent :
  flush_sync growcap (S i) sched w sent
  = match send_loop growcap (sync_event_at i) sched w sent with
    | Left w rest sent => flush_sync growcap i rest w sent
    | Stop f => f
    end.
Proof. done. Qed.

Lemma deliveries_cons e l :
  deliveries (e :: l)
  = match ev_ch e with
    | Some ch => (ch, change_of e) :: deliveries l
    | None => deliveries l
    end.
Proof. unfold deliveries. simpl. unfold delivery. by destruct (ev_ch e). Qed.

Lemma deliveries_drop_live l i :
  deliveries (drop i l) ≠ [] → (i < length l)%nat.
Proof.
  intros H. destruct (decide (i < length l)%nat); [done|].
  by rewrite drop_ge in H by lia.
Qed.

Lemma flush_request_grows w req w1 ev bound i rest sent :
  appends growcap w req w1 ev →
  (s_len (requestEvents w) - i < bound)%nat →
  deliveries (drop i (request_queue w)) ≠ [] →
  flush_request growcap bound i
    (selRequest req
     :: sends (length (deliveries (drop i (request_queue w ++ [ev])))) ++ rest) w sent
  = Flushed (truncate_queues w1) rest
      (sent ++ deliveries (drop i (request_queue w ++ [ev]))).
Proof.
  intros (Hh & Hse & Hq & Hlen & Hs & Hd).
  revert i sent. induction bound as [|bound IH]; intros i sent Hb Hlive; [lia|].
  pose proof (deliveries_drop_live _ _ Hlive) as Hi.
  destruct (lookup_lt_is_Some_2 (request_queue w) i Hi) as [e He].
  assert (drop i (request_queue w ++ [ev])
          = e :: drop (S i) (request_queue w ++ [ev])) as Hdrop.
  { apply drop_S. by rewrite lookup_app_l. }
  rewrite Hdrop. rewrite (drop_S _ _ _ He) in Hlive.
  rewrite flush_request_step by lia.
  assert (deref (heap w) (mkPtr (s_ptr (requestEvents w)) i) = e) as Hread
    by (rewrite deref_request_queue, He by lia; done).
  rewrite deliveries_cons in Hlive |- *.
  destruct (ev_ch e) as [ch|] eqn:Hch.
  - rewrite (send_loop_request growcap _ req _ w w1 sent ch) by (by rewrite ?Hread).
    rewrite length_cons, sends_S. simpl app.
    rewrite (send_loop_send growcap _ _ w1 sent ch)
      by (by rewrite Hd, Hread by lia).
    rewrite Hd, Hread by lia. rewrite <- Hq.
    rewrite flush_request_sends by lia.
    by rewrite <- (assoc_L (++)).
  - rewrite send_loop_cleared by (by rewrite Hread).
    apply IH; [lia|done].
Qed.

Lemma flush_sync_grows w req w1 ev n rest sent :
  appends growcap w req w1 ev →
  (n ≤ length (syncEvents w))%nat →
  deliveries (reverse (take n (syncEvents w))) ++ deliveries (request_queue w) ≠ [] →
  flush_sync growcap n
    (selRequest req
     :: sends (length (deliveries (reverse (take n (syncEvents w)))
                       ++ deliveries (request_queue w ++ [ev]))) ++ rest) w sent
  = Flushed (truncate_queues w1) rest
      (sent ++ deliveries (reverse (take n (syncEvents w)))
            ++ deliveries (request_queue w ++ [ev])).
Proof.
  intros Happ. pose proof Happ as (Hh & Hse & Hq & Hlen & Hs & Hd).
  revert sent. induction n as [|i IH]; intros sent Hn Hlive.
  - simpl in *. rewrite <- (drop_0 (request_queue w ++ [ev])).
    apply flush_request_grows; [done|lia|by rewrite drop_0].
  - destruct (lookup_lt_is_Some_2 (syncEvents w) i) as [e He]; [lia|].
    rewrite (take_S_r _ _ _ He), reverse_snoc in Hlive |- *.
    rewrite flush_sync_step.
    rewrite deliveries_cons in Hlive |- *.
    destruct (ev_ch e) as [ch|] eqn:Hch.
    + rewrite (send_loop_request growcap _ req _ w w1 sent ch)
        by (by rewrite ?(sync_event_at_lookup i w e)).
      assert (sync_event_at i w1 = e) as Hread
        by (apply sync_event_at_lookup; by rewrite Hse).
      simpl app.
      fold (sends (length (deliveries (reverse (take i (syncEvents w)))
                           ++ deliveries (request_queue w ++ [ev])))).
      rewrite (send_loop_send growcap _ _ w1 sent ch) by (by rewrite Hread).
      rewrite Hread, <- Hq, <- Hse.
      rewrite flush_sync_sends by (rewrite Hse; lia).
      by rewrite <- (assoc_L (++)).
    + rewrite send_loop_cleared by (by rewrite (sync_event_at_lookup i w e)).
      apply IH; [lia|done].
Qed.

End Grow.

(** ** The registry is written by passes only *)

Lemma sync_triple_current k cname di ri w (seen : gset watchKey) w' seen' :
  (∀ docid, di = BScalar docid → mkKey cname docid ≠ k) →
  sync_triple cname di ri (w, seen) = Ok (w', seen') →
  current w' !! k = current w !! k.
Proof.
  intros Hk Hrun. destruct di as [docid| | |]; [|done..].
  specialize (Hk docid eq_refl).
  destruct (decide (mkKey cname docid ∈ seen)) as [Hs|Hs].
  { rewrite sync_triple_seen in Hrun by done. by inversion Hrun; subst. }
  destruct (decide (is_int64 ri)) as [[n ->]|Hri].
  - destruct (decide (current_or_zero w (mkKey cname docid) = canonical n))
      as [Heq|Hneq].
    + rewrite sync_triple_same in Hrun by done. by inversion Hrun; subst.
    + destruct (sync_triple_update cname docid n w seen Hs Hneq)
        as (w1 & Hrun1 & Hcur & _).
      rewrite Hrun1 in Hrun. inversion Hrun; subst.
      rewrite Hcur. by apply lookup_insert_ne.
  - rewrite sync_triple_not_int64 in Hrun by done. by inversion Hrun; subst.
Qed.

Lemma sync_docs_current k cname d r n w (seen : gset watchKey) w' seen' :
  (∀ docid, BScalar docid ∈ d → mkKey cname docid ≠ k) →
  sync_docs cname d r n (w, seen) = Ok (w', seen') →
  current w' !! k = current w !! k.
Proof.
  intros Hk. revert w seen. induction n as [|i IH]; intros w seen Hrun;
    simpl in Hrun.
  - by inversion Hrun; subst.
  - destruct (d !! i) as [di|] eqn:Hdi; [|done].
    destruct (r !! i) as [ri|]; [|done].
    destruct (sync_triple cname di ri (w, seen)) as [[w1 seen1]|] eqn:Ht;
      simpl in Hrun; [|done].
    rewrite (IH w1 seen1 Hrun).
    eapply sync_triple_current; [|done].
    intros docid ->. apply Hk. by eapply list_elem_of_lookup_2.
Qed.

Lemma sync_fields_current k fields w (seen : gset watchKey) w' seen' :
  (∀ c docid, c ∈ fields → BScalar docid ∈ (changed_docs c.2).1 →
              mkKey c.1 docid ≠ k) →
  sync_fields fields (w, seen) = Ok (w', seen') →
  current w' !! k = current w !! k.
Proof.
  revert w seen. induction fields as [|c fields IH]; intros w seen Hk Hrun;
    simpl in Hrun.
  - by inversion Hrun; subst.
  - destruct (sync_field c (w, seen)) as [[w1 seen1]|] eqn:Hf;
      simpl in Hrun; [|done].
    assert (∀ c0 docid, c0 ∈ fields → BScalar docid ∈ (changed_docs c0.2).1 →
              mkKey c0.1 docid ≠ k) as Hk'
      by (intros ???; apply Hk; by right).
    rewrite (IH w1 seen1 Hk' Hrun).
    unfold sync_field in Hf. specialize (Hk c).
    destruct (changed_docs c.2) as [d r]. destruct (_ || _).
    + by inversion Hf; subst.
    + eapply sync_docs_current; [|done]. intros docid Hd. apply Hk; [by left|done].
Qed.

Lemma sync_entries_current k log first lastId0 w (seen : gset watchKey) w' seen' :
  (∀ entry c docid, entry ∈ log → c ∈ tail entry →
     BScalar docid ∈ (changed_docs c.2).1 → mkKey c.1 docid ≠ k) →
  sync_entries log first lastId0 (w, seen) = Ok (w', seen') →
  current w' !! k = current w !! k.
Proof.
  revert first w seen.
  induction log as [|entry log IH]; intros first w seen Hk Hrun; simpl in Hrun.
  - by inversion Hrun; subst.
  - assert (∀ entry0 c docid, entry0 ∈ log → c ∈ tail entry0 →
              BScalar docid ∈ (changed_docs c.2).1 → mkKey c.1 docid ≠ k) as Hk'
      by (intros ????; apply Hk; by right).
    destruct entry as [|[name value] fields]; [by eapply IH|].
    destruct (decide (name = "_id")); [|done].
    assert (∃ w0, (if first then (set_lastId w value, seen) else (w, seen))
                  = (w0, seen) ∧ current w0 = current w) as (w0 & Hst & Hc0).
    { destruct first; eexists; (split; [reflexivity|]); done. }
    rewrite Hst in Hrun.
    destruct (iface_eq value lastId0) as [[]|]; [| |done].
    + inversion Hrun; subst. by rewrite Hc0.
    + simpl in Hrun.
      destruct (sync_fields fields (w0, seen)) as [[w1 seen1]|] eqn:Hf;
        simpl in Hrun; [|done].
      rewrite (IH false w1 seen1 Hk' Hrun).
      rewrite <- Hc0. eapply sync_fields_current; [|done].
      intros c docid Hc. apply (Hk ((name, value) :: fields)); [by left|done].
Qed.

Lemma sync_current k w log err w' err' :
  (∀ entry c docid, entry ∈ log → c ∈ tail entry →
     BScalar docid ∈ (changed_docs c.2).1 → mkKey c.1 docid ≠ k) →
  sync w log err = Ok (w', err') →
  current w' !! k = current w !! k.
Proof.
  intros Hk. unfold sync.
  destruct (sync_entries log true (lastId w) (w, ∅)) as [[w1 seen1]|] eqn:Hs;
    simpl; [|done].
  intros [= <- _]. by eapply sync_entries_current.
Qed.

Lemma reachable_doc_keys growcap w cname :
  reachable growcap ids_non_nil w → current w !! collKey cname = None.
Proof.
  induction 1 as [newest|w _ IH|w req w' _ IH Hh|w log err w' err' _ IH Hlog Hs
                 |w sched w' _ IH Hf].
  - done.
  - done.
  - by rewrite (handle_current growcap w req w' Hh).
  - rewrite (sync_current (collKey cname) w log err w' err'); [done| |done].
    intros entry c docid He Hc Hd Heq. inversion Heq; subst.
    by apply (Hlog entry c).
  - by rewrite (flush_current growcap w sched w' Hf).
Qed.

(** The pass builds its keys from whatever the list [d] holds.  A nil
    there, which a log maintained by [mgo/txn] does not hold, would make
    the key of the collection: the condition on the log in C9 below is
    needed. *)
Example watch_collection_catches_up_on_nil_id :
  (do r <- sync New [log_entry (IInt 100) [doc_field "apps" [INil] [IInt64 5]]] None;
   do w <- handle double r.1 (WatchCollection "apps" (Some 7%nat));
   Ok (current r.1 !! collKey "apps", request_queue w))
  = Ok (Some 5, [mkEvent (Some 7%nat) (collKey "apps") 5]).
Proof. vm_compute. reflexivity. Qed.

(** C9. No request handler and no [flush] writes the registry; a pass,
    its sole writer, writes only keys made of a collection name and a
    document id listed in the log.  The log is maintained by [mgo/txn]
    (the contract of [New]) and lists the ids of documents, none of which
    is nil, the id a [watchKey] keeps for a collection ([ids_non_nil]).
    Hence the registry holds no collection key in any state the watcher
    reaches, and a [WatchCollection] never finds its key there and never
    queues a catch-up event when it attaches. *)
Theorem registry_holds_document_keys (growcap : nat → nat) :
  (∀ w req w', handle growcap w req = Ok w' → current w' = current w) ∧
  (∀ w sched w',
     flushed_state (flush growcap w sched) = Some w' → current w' = current w) ∧
  (∀ k w log err w' err',
     (∀ entry c docid, entry ∈ log → c ∈ tail entry →
        BScalar docid ∈ (changed_docs c.2).1 → mkKey c.1 docid ≠ k) →
     sync w log err = Ok (w', err') →
     current w' !! k = current w !! k) ∧
  (∀ w cname ch,
     reachable growcap ids_non_nil w →
     current w !! collKey cname = None ∧
     ((∀ info, info ∈ watches_of w (collKey cname) → info_ch info ≠ ch) →
      ∃ w', handle growcap w (WatchCollection cname ch) = Ok w' ∧
            request_queue w' = request_queue w ∧
            watches_of w' (collKey cname)
            = watches_of w (collKey cname) ++ [mkInfo ch 0])).
Proof.
  split_and!.
  - apply handle_current.
  - apply flush_current.
  - apply sync_current.
  - intros w cname ch Hreach.
    pose proof (reachable_doc_keys growcap w cname Hreach) as Hnone.
    split; [done|]. intros Hfresh. apply find_ch_None in Hfresh.
    unfold WatchCollection. fold (collKey cname).
    rewrite handle_watch_fresh, Hnone by done.
    eexists. split; [reflexivity|]. split; [done|].
    unfold attached. rewrite watches_of_set_watches. by rewrite lookup_insert_eq.
Qed.

(** ** Requests taken while [flush] waits *)

(** C5. An event whose channel was cleared is sent all the same when the
    queue has moved.  An event is queued for channel 7 and fills the
    slice.  While [flush] waits on it, a [Watch] for another document
    appends an event, which moves the queue to a new array, and an
    [Unwatch] clears the event of channel 7 in the queue ([w3] below);
    [flush] still reads the old array through [e] and sends it.  With room
    left in the slice the same requests leave the event unsent. *)
Theorem flush_sends_event_cleared_in_moved_queue :
  (do r <- sync New [log_entry (IInt 100)
                       [doc_field "apps" [IInt 1; IInt 2] [IInt64 3; IInt64 4]]] None;
   do q1 <- Watch "apps" (IInt 1) 0 (Some 7%nat);
   do q2 <- Watch "apps" (IInt 2) 0 (Some 8%nat);
   do q3 <- Unwatch "apps" (IInt 1) (Some 7%nat);
   do w1 <- handle double r.1 q1;
   do w2 <- handle double w1 q2;
   do w3 <- handle double w2 q3;
   Ok (request_queue w1, requestEvents w1, requestEvents w3, request_queue w3,
       deref (heap w3) (mkPtr (s_ptr (requestEvents w1)) 0),
       flushed_sent (flush double w1 [selRequest q2; selRequest q3; selSend; selSend])))
  = Ok ([mkEvent (Some 7%nat) (mkKey "apps" (IInt 1)) 3],
        mkSlice 0 1 1, mkSlice 1 2 2,
        [mkEvent None (mkKey "apps" (IInt 1)) 3;
         mkEvent (Some 8%nat) (mkKey "apps" (IInt 2)) 4],
        mkEvent (Some 7%nat) (mkKey "apps" (IInt 1)) 3,
        [(7%nat, mkChange "apps" (IInt 1) 3);
         (8%nat, mkChange "apps" (IInt 2) 4)]) ∧
  (do r <- sync New [log_entry (IInt 100)
                       [doc_field "apps" [IInt 1; IInt 2] [IInt64 3; IInt64 4]]] None;
   do q1 <- Watch "apps" (IInt 1) 0 (Some 7%nat);
   do q2 <- Watch "apps" (IInt 2) 0 (Some 8%nat);
   do q3 <- Unwatch "apps" (IInt 1) (Some 7%nat);
   do w1 <- handle (λ _, 4%nat) r.1 q1;
   Ok (requestEvents w1,
       flushed_sent (flush (λ _, 4%nat) w1 [selRequest q2; selRequest q3; selSend])))
  = Ok (mkSlice 0 1 4, [(8%nat, mkChange "apps" (IInt 2) 4)]).
Proof. split; vm_compute; reflexivity. Qed.

(** C6. A channel receives events after its unwatch was handled.
    (1) [UnwatchCollection] taken while [flush] waits: the record of
    channel 7 is removed, but the events queued for it carry document
    keys, which the collection key does not equal, so none is cleared and
    both are still sent.  (2) [Unwatch] of a document taken after the
    queue has moved: the record is removed and the event cleared in the
    queue, and [flush] sends it from the old array. *)
Theorem unwatch_during_flush_still_delivers :
  (do w <- handle double New (WatchCollection "apps" (Some 7%nat));
   do r <- sync w [log_entry (IInt 100)
                     [doc_field "apps" [IInt 1; IInt 2] [IInt64 10; IInt64 11]]] None;
   let f := flush double r.1
              [selRequest (UnwatchCollection "apps" (Some 7%nat)); selSend; selSend] in
   Ok ((λ w', watches_of w' (collKey "apps")) <$> flushed_state f, flushed_sent f))
  = Ok (Some [], [(7%nat, mkChange "apps" (IInt 1) 10);
                  (7%nat, mkChange "apps" (IInt 2) 11)]) ∧
  (do r <- sync New [log_entry (IInt 100)
                       [doc_field "apps" [IInt 1; IInt 2] [IInt64 3; IInt64 4]]] None;
   do q1 <- Watch "apps" (IInt 1) 0 (Some 7%nat);
   do q2 <- Watch "apps" (IInt 2) 0 (Some 8%nat);
   do q3 <- Unwatch "apps" (IInt 1) (Some 7%nat);
   do w1 <- handle double r.1 q1;
   let f := flush double w1 [selRequest q2; selRequest q3; selSend; selSend] in
   Ok ((λ w', watches_of w' (mkKey "apps" (IInt 1))) <$> flushed_state f,
       flushed_sent f))
  = Ok (Some [], [(7%nat, mkChange "apps" (IInt 1) 3);
                  (8%nat, mkChange "apps" (IInt 2) 4)]).
Proof. split; vm_compute; reflexivity. Qed.

(** ** Further properties of delivery *)

(** When every [select] sends, [flush] delivers the sync events from the
    last queued to the first, then the request events from the first queued
    to the last, passes over the events whose channel is nil without using
    a send, and leaves both queues empty. *)
Theorem flush_delivers_in_order (growcap : nat → nat) (w : Watcher)
    (rest : list outcome) :
  flush growcap w
    (sends (length (deliveries (reverse (syncEvents w))
                    ++ deliveries (request_queue w))) ++ rest)
  = Flushed (truncate_queues w) rest
      (deliveries (reverse (syncEvents w)) ++ deliveries (request_queue w)).
Proof.
  unfold flush.
  pose proof (flush_sync_sends growcap (length (syncEvents w)) rest w []) as H.
  rewrite firstn_all in H. by apply H.
Qed.

(** The request loop of [flush] reads the length of the queue at each
    turn: the catch-up event of a [reqWatch] taken while [flush] waits is
    delivered by the same [flush], after everything queued before. *)
Theorem flush_delivers_appended_event (growcap : nat → nat) (w : Watcher)
    (key : watchKey) (ch : chan) (k v : Z) (rest : list outcome) :
  wf_queue w →
  (∀ info, info ∈ watches_of w key → info_ch info ≠ ch) →
  current w !! key = Some v →
  newer v k →
  deliveries (reverse (syncEvents w)) ++ deliveries (request_queue w) ≠ [] →
  flush growcap w
    (selRequest (reqWatch key (mkInfo ch k))
     :: sends (length (deliveries (reverse (syncEvents w))
                       ++ deliveries (request_queue w ++ [mkEvent ch key v])))
        ++ rest)
  = Flushed (truncate_queues (attached_caught_up growcap w key ch v)) rest
      (deliveries (reverse (syncEvents w))
       ++ deliveries (request_queue w ++ [mkEvent ch key v])).
Proof.
  intros Hwf Hfresh Hcur Hn Hlive. unfold flush.
  pose proof (flush_sync_grows growcap w _ _ _ (length (syncEvents w)) rest []
                (handle_watch_appends growcap w key ch k v Hwf Hfresh Hcur Hn)) as H.
  rewrite firstn_all in H. by apply H.
Qed.

Lemma flush_delivers_appended_event_witness :
  flush double pending_example
    (selRequest (reqWatch (mkKey "users" (IInt 7)) (mkInfo (Some 2%nat) 0))
     :: sends (length (deliveries (reverse (syncEvents pending_example))
                       ++ deliveries (request_queue pending_example
                                      ++ [mkEvent (Some 2%nat) (mkKey "users" (IInt 7)) 3])))
        ++ [])
  = Flushed (truncate_queues
               (attached_caught_up double pending_example
                  (mkKey "users" (IInt 7)) (Some 2%nat) 3)) []
      (deliveries (reverse (syncEvents pending_example))
       ++ deliveries (request_queue pending_example
                      ++ [mkEvent (Some 2%nat) (mkKey "users" (IInt 7)) 3])).
Proof.
  apply (flush_delivers_appended_event double pending_example
           (mkKey "users" (IInt 7)) (Some 2%nat) 0 3 []).
  - split; vm_compute; lia.
  - intros info Hin. vm_compute in Hin. by apply elem_of_nil in Hin.
  - vm_compute. reflexivity.
  - left. lia.
  - vm_compute. discriminate.
Defined.

(** [flush] ends within the bound its request loop is given, and when it
    runs to completion both queues are empty. *)
Theorem flush_ends (growcap : nat → nat) (w : Watcher) (sched : list outcome) :
  flush growcap w sched ≠ Exhausted ∧
  ∀ w' rest sent,
    flush growcap w sched = Flushed w' rest sent →
    syncEvents w' = [] ∧ request_queue w' = [].
Proof.
  exact (flush_sync_end growcap (length (syncEvents w)) sched w []
           (flush growcap w sched) eq_refl).
Qed.

(** ** The slice header in every reachable state *)

Lemma same_queue_trans w1 w2 w3 :
  same_queue w1 w2 → same_queue w2 w3 → same_queue w1 w3.
Proof. intros [] []. split; congruence. Qed.

Lemma sync_triple_queue cname di ri w (seen : gset watchKey) w' seen' :
  sync_triple cname di ri (w, seen) = Ok (w', seen') → same_queue w w'.
Proof.
  intros Hrun. destruct di as [docid| | |]; [|done..].
  destruct (decide (mkKey cname docid ∈ seen)) as [Hs|Hs].
  { rewrite sync_triple_seen in Hrun by done. by inversion Hrun; subst. }
  destruct (decide (is_int64 ri)) as [[n ->]|Hri].
  - destruct (decide (current_or_zero w (mkKey cname docid) = canonical n))
      as [Heq|Hneq].
    + rewrite sync_triple_same in Hrun by done. by inversion Hrun; subst.
    + destruct (sync_triple_update cname docid n w seen Hs Hneq)
        as (w1 & Hrun1 & _ & _ & _ & Hh & Hr & _).
      rewrite Hrun1 in Hrun. by inversion Hrun; subst.
  - rewrite sync_triple_not_int64 in Hrun by done. by inversion Hrun; subst.
Qed.

Lemma sync_docs_queue cname d r n w (seen : gset watchKey) w' seen' :
  sync_docs cname d r n (w, seen) = Ok (w', seen') → same_queue w w'.
Proof.
  revert w seen. induction n as [|i IH]; intros w seen Hrun; simpl in Hrun.
  - by inversion Hrun; subst.
  - destruct (d !! i) as [di|]; [|done]. destruct (r !! i) as [ri|]; [|done].
    destruct (sync_triple cname di ri (w, seen)) as [[w1 seen1]|] eqn:Ht;
      simpl in Hrun; [|done].
    eapply same_queue_trans; [by eapply sync_triple_queue | by eapply IH].
Qed.

Lemma sync_fields_queue fields w (seen : gset watchKey) w' seen' :
  sync_fields fields (w, seen) = Ok (w', seen') → same_queue w w'.
Proof.
  revert w seen. induction fields as [|c fields IH]; intros w seen Hrun;
    simpl in Hrun.
  - by inversion Hrun; subst.
  - destruct (sync_field c (w, seen)) as [[w1 seen1]|] eqn:Hf;
      simpl in Hrun; [|done].
    eapply same_queue_trans; [|by eapply IH].
    unfold sync_field in Hf. destruct (changed_docs c.2) as [d r].
    destruct (_ || _); [by inversion Hf; subst | by eapply sync_docs_queue].
Qed.

Lemma sync_entries_queue log first lastId0 w (seen : gset watchKey) w' seen' :
  sync_entries log first lastId0 (w, seen) = Ok (w', seen') → same_queue w w'.
Proof.
  revert first w seen.
  induction log as [|entry log IH]; intros first w seen Hrun; simpl in Hrun.
  - by inversion Hrun; subst.
  - destruct entry as [|[name value] fields]; [by eapply IH|].
    destruct (decide (name = "_id")); [|done].
    assert (∃ w0, (if first then (set_lastId w value, seen) else (w, seen))
                  = (w0, seen) ∧ same_queue w w0) as (w0 & Hst & Hq0).
    { destruct first; eexists; (split; [reflexivity|]); done. }
    rewrite Hst in Hrun.
    destruct (iface_eq value lastId0) as [[]|]; [| |done].
    + by inversion Hrun; subst.
    + simpl in Hrun.
      destruct (sync_fields fields (w0, seen)) as [[w1 seen1]|] eqn:Hf;
        simpl in Hrun; [|done].
      eapply same_queue_trans; [done|].
      eapply same_queue_trans; [by eapply sync_fields_queue | by eapply IH].
Qed.

Lemma sync_queue w log err w' err' :
  sync w log err = Ok (w', err') → same_queue w w'.
Proof.
  unfold sync.
  destruct (sync_entries log true (lastId w) (w, ∅)) as [[w1 seen1]|] eqn:Hs;
    simpl; [|done].
  intros [= <- _]. by eapply sync_entries_queue.
Qed.

(** In every state the watcher reaches, the length of the request events
    is at most their capacity, which is at most the size of the array. *)
Theorem reachable_wf_queue (growcap : nat → nat)
    (P : list (list (string * bval)) → Prop) (w : Watcher) :
  reachable growcap P w → wf_queue w.
Proof.
  induction 1 as [newest|w _ IH|w req w' _ IH Hh|w log err w' err' _ IH Hlog Hs
                 |w sched w' _ IH Hf].
  - unfold wf_queue, wf_slice. simpl. lia.
  - done.
  - by eapply handle_wf.
  - destruct (sync_queue w log err w' err' Hs) as [Hh Hr].
    unfold wf_queue. by rewrite Hh, Hr.
  - by eapply flush_wf.
Qed.

(** ** Detaching a subscriber *)

Lemma find_ch_None_channels ch infos :
  find_ch ch infos = None ↔ ch ∉ info_ch <$> infos.
Proof.
  rewrite find_ch_None, list_elem_of_fmap. split.
  - intros H (info & -> & Hin). by apply (H info).
  - intros H info Hin Heq. apply H. by exists info.
Qed.

(** Moving the last record to index [i] and dropping the last slot
    removes the record at [i] and keeps the others. *)
Lemma remove_at_delete i (infos : list watchInfo) :
  (i < length infos)%nat → remove_at i infos ≡ₚ delete i infos.
Proof.
  intros Hi. unfold remove_at.
  destruct (lookup_lt_is_Some_2 infos i Hi) as [x Hx].
  apply list_elem_of_split_length in Hx as (l1 & l2 & -> & ->).
  rewrite delete_middle.
  destruct l2 as [|y l2 _] using rev_ind.
  - rewrite length_app. simpl.
    replace (length l1 + 1 - 1)%nat with (length l1) by lia.
    rewrite list_lookup_middle by done.
    rewrite insert_app_r_alt, Nat.sub_diag by lia. simpl.
    rewrite take_app_length' by done. by rewrite app_nil_r.
  - replace (l1 ++ x :: l2 ++ [y]) with ((l1 ++ x :: l2) ++ [y])
      by (by rewrite <- (assoc_L (++))).
    rewrite length_app. simpl.
    replace (length (l1 ++ x :: l2) + 1 - 1)%nat with (length (l1 ++ x :: l2)) by lia.
    rewrite list_lookup_middle by done.
    rewrite <- (assoc_L (++)). simpl.
    rewrite insert_app_r_alt, Nat.sub_diag by lia. simpl.
    replace (l1 ++ y :: l2 ++ [y]) with ((l1 ++ y :: l2) ++ [y])
      by (by rewrite <- (assoc_L (++))).
    rewrite take_app_length' by (rewrite !length_app; simpl; lia).
    apply Permutation_app_head. apply Permutation_cons_append.
Qed.

Lemma find_ch_lt ch infos i : find_ch ch infos = Some i → (i < length infos)%nat.
Proof.
  intros H. destruct (find_ch_Some ch infos i H) as (info & Hl & _).
  by eapply lookup_lt_Some.
Qed.

Lemma tombstone_spec key ch e :
  ev_key (tombstone key ch e) = key → ev_ch (tombstone key ch e) = ch → ch = None.
Proof.
  unfold tombstone. destruct (decide (ev_key e = key ∧ ev_ch e = ch)) as [[? ?]|Hn].
  - simpl. by intros _ <-.
  - intros ??. by destruct Hn.
Qed.

Lemma tombstone_array_take key ch len arr :
  take len (tombstone_array key ch len arr) = tombstone key ch <$> take len arr.
Proof.
  unfold tombstone_array.
  destruct (decide (len ≤ length arr)%nat).
  - rewrite take_app_length'; [done|]. rewrite length_fmap, length_take. lia.
  - rewrite drop_ge, app_nil_r by lia. apply take_ge.
    rewrite length_fmap, length_take. lia.
Qed.

(** The queues after [reqUnwatch]: every event goes through [tombstone]. *)
Lemma handle_unwatch_queues growcap w key ch w' :
  handle growcap w (reqUnwatch key ch) = Ok w' →
  syncEvents w' = tombstone key ch <$> syncEvents w ∧
  request_queue w' = tombstone key ch <$> request_queue w ∧
  current w' = current w.
Proof.
  unfold handle. intros [= <-]. split_and!.
  - by destruct (find_ch _ _).
  - assert (∀ w0, request_queue
      (set_syncEvents
         (set_requestEvents w0
            (<[s_ptr (requestEvents w0) :=
                 tombstone_array key ch (s_len (requestEvents w0))
                   (array_at (heap w0) (s_ptr (requestEvents w0)))]> (heap w0))
            (requestEvents w0))
         (tombstone key ch <$> syncEvents w0))
      = tombstone key ch <$> request_queue w0) as Hq.
    { intros w0. unfold request_queue, slice_elems. simpl.
      destruct (decide (s_ptr (requestEvents w0) < length (heap w0))%nat).
      - rewrite array_at_insert_eq by done. apply tombstone_array_take.
      - rewrite list_insert_ge by lia.
        unfold array_at. rewrite lookup_ge_None_2 by lia. simpl.
        by rewrite take_nil. }
    destruct (find_ch _ _); by rewrite Hq.
  - by destruct (find_ch _ _).
Qed.

(** After [reqUnwatch{key, ch}] is handled, no record of [ch] is left
    under [key] while the other records of the key are kept, and no event
    queued for [key] still carries [ch]; the registry is as it was. *)
Theorem handle_unwatch_detaches (growcap : nat → nat) (w : Watcher)
    (key : watchKey) (ch : chan) :
  NoDup (info_ch <$> watches_of w key) →
  ∃ w', handle growcap w (reqUnwatch key ch) = Ok w' ∧
    (∀ info, info ∈ watches_of w' key → info_ch info ≠ ch) ∧
    (∀ info, info ∈ watches_of w key → info_ch info ≠ ch →
             info ∈ watches_of w' key) ∧
    (∀ e, e ∈ syncEvents w' ++ request_queue w' →
          ev_key e = key → ev_ch e = ch → ch = None) ∧
    current w' = current w.
Proof.
  intros Hnd. destruct (handle growcap w (reqUnwatch key ch)) as [w'|] eqn:Hh;
    [|done].
  exists w'. split; [done|].
  destruct (handle_unwatch_queues growcap w key ch w' Hh) as (Hse & Hrq & Hcur).
  split_and!; [| |
    intros e He; rewrite Hse, Hrq, <- fmap_app in He;
    apply list_elem_of_fmap in He as (e0 & -> & _); apply tombstone_spec | done].
  - unfold handle in Hh. inversion Hh as [Hw']. clear Hh Hw' Hse Hrq Hcur.
    destruct (find_ch ch (watches_of w key)) as [i|] eqn:Hf; simpl.
    + unfold watches_of at 1. simpl. rewrite lookup_insert_eq. simpl.
      pose proof (find_ch_lt _ _ _ Hf) as Hi.
      destruct (find_ch_Some _ _ _ Hf) as (x & Hx & Hch & _).
      intros info Hin Heq.
      rewrite (remove_at_delete i _ Hi) in Hin.
      apply list_elem_of_split_length in Hx as (l1 & l2 & Hl & ->).
      rewrite Hl in *. rewrite delete_middle in Hin.
      rewrite fmap_app, fmap_cons in Hnd.
      apply NoDup_app in Hnd as (_ & Hdis & Hnd2).
      apply NoDup_cons in Hnd2 as [Hx2 _].
      apply elem_of_app in Hin as [Hin|Hin].
      * apply (Hdis (info_ch info)); [by apply list_elem_of_fmap_2|].
        rewrite Heq, <- Hch. by left.
      * apply Hx2. rewrite Hch, <- Heq. by apply list_elem_of_fmap_2.
    + pose proof (proj1 (find_ch_None _ _) Hf) as Hf'.
      intros info Hin. by apply Hf'.
  - unfold handle in Hh. inversion Hh as [Hw']. clear Hh Hw' Hse Hrq Hcur.
    destruct (find_ch ch (watches_of w key)) as [i|] eqn:Hf; simpl; [|done].
    unfold watches_of at 2. simpl. rewrite lookup_insert_eq. simpl.
    pose proof (find_ch_lt _ _ _ Hf) as Hi.
    destruct (find_ch_Some _ _ _ Hf) as (x & Hx & Hch & _).
    intros info Hin Hne. rewrite (remove_at_delete i _ Hi).
    apply list_elem_of_split_length in Hx as (l1 & l2 & Hl & ->).
    rewrite Hl in *. rewrite delete_middle.
    apply elem_of_app in Hin as [Hin|Hin]; [apply elem_of_app; by left|].
    apply elem_of_cons in Hin as [->|Hin]; [done|].
    apply elem_of_app. by right.
Qed.

Lemma handle_unwatch_detaches_witness :
  ∃ w', handle double registry_example
          (reqUnwatch (mkKey "users" (IInt 7)) (Some 1%nat)) = Ok w' ∧
    (∀ info, info ∈ watches_of w' (mkKey "users" (IInt 7)) →
             info_ch info ≠ Some 1%nat) ∧
    (∀ info, info ∈ watches_of registry_example (mkKey "users" (IInt 7)) →
             info_ch info ≠ Some 1%nat →
             info ∈ watches_of w' (mkKey "users" (IInt 7))) ∧
    (∀ e, e ∈ syncEvents w' ++ request_queue w' →
          ev_key e = mkKey "users" (IInt 7) → ev_ch e = Some 1%nat →
          Some 1%nat = None) ∧
    current w' = current registry_example.
Proof.
  apply (handle_unwatch_detaches double registry_example
           (mkKey "users" (IInt 7)) (Some 1%nat)).
  vm_compute. apply NoDup_cons. split.
  - intros Hin. apply elem_of_cons in Hin as [Heq|Hin]; [discriminate|].
    by apply elem_of_nil in Hin.
  - apply NoDup_singleton.
Defined.

(** ** Distinct channels in every reachable state *)

Lemma same_channels_trans w1 w2 w3 :
  same_channels w1 w2 → same_channels w2 w3 → same_channels w1 w3.
Proof. intros H1 H2 key. by rewrite H2, H1. Qed.

Lemma advance_channels v (infos : list watchInfo) :
  info_ch <$> (advance v <$> infos) = info_ch <$> infos.
Proof.
  rewrite <- list_fmap_compose. apply list_fmap_ext. intros _ info _.
  simpl. unfold advance. by destruct (decide _).
Qed.

Lemma sync_triple_channels cname di ri w (seen : gset watchKey) w' seen' :
  sync_triple cname di ri (w, seen) = Ok (w', seen') → same_channels w w'.
Proof.
  intros Hrun. destruct di as [docid| | |]; [|done..].
  destruct (decide (mkKey cname docid ∈ seen)) as [Hs|Hs].
  { rewrite sync_triple_seen in Hrun by done. by inversion Hrun; subst. }
  destruct (decide (is_int64 ri)) as [[n ->]|Hri].
  - destruct (decide (current_or_zero w (mkKey cname docid) = canonical n))
      as [Heq|Hneq].
    + rewrite sync_triple_same in Hrun by done. by inversion Hrun; subst.
    + destruct (sync_triple_update cname docid n w seen Hs Hneq)
        as (w1 & Hrun1 & _ & _ & Hwat & _).
      rewrite Hrun1 in Hrun. inversion Hrun; subst. intros key.
      unfold watches_of. rewrite Hwat.
      destruct (watches w !! mkKey cname docid) as [infos|] eqn:Hw; [|done].
      destruct (decide (mkKey cname docid = key)) as [<-|Hne].
      * rewrite lookup_insert_eq, Hw. simpl. apply advance_channels.
      * by rewrite lookup_insert_ne.
  - rewrite sync_triple_not_int64 in Hrun by done. by inversion Hrun; subst.
Qed.

Lemma sync_docs_channels cname d r n w (seen : gset watchKey) w' seen' :
  sync_docs cname d r n (w, seen) = Ok (w', seen') → same_channels w w'.
Proof.
  revert w seen. induction n as [|i IH]; intros w seen Hrun; simpl in Hrun.
  - by inversion Hrun; subst.
  - destruct (d !! i) as [di|]; [|done]. destruct (r !! i) as [ri|]; [|done].
    destruct (sync_triple cname di ri (w, seen)) as [[w1 seen1]|] eqn:Ht;
      simpl in Hrun; [|done].
    eapply same_channels_trans; [by eapply sync_triple_channels | by eapply IH].
Qed.

Lemma sync_fields_channels fields w (seen : gset watchKey) w' seen' :
  sync_fields fields (w, seen) = Ok (w', seen') → same_channels w w'.
Proof.
  revert w seen. induction fields as [|c fields IH]; intros w seen Hrun;
    simpl in Hrun.
  - by inversion Hrun; subst.
  - destruct (sync_field c (w, seen)) as [[w1 seen1]|] eqn:Hf;
      simpl in Hrun; [|done].
    eapply same_channels_trans; [|by eapply IH].
    unfold sync_field in Hf. destruct (changed_docs c.2) as [d r].
    destruct (_ || _); [by inversion Hf; subst | by eapply sync_docs_channels].
Qed.

Lemma sync_entries_channels log first lastId0 w (seen : gset watchKey) w' seen' :
  sync_entries log first lastId0 (w, seen) = Ok (w', seen') → same_channels w w'.
Proof.
  revert first w seen.
  induction log as [|entry log IH]; intros first w seen Hrun; simpl in Hrun.
  - by inversion Hrun; subst.
  - destruct entry as [|[name value] fields]; [by eapply IH|].
    destruct (decide (name = "_id")); [|done].
    assert (∃ w0, (if first then (set_lastId w value, seen) else (w, seen))
                  = (w0, seen) ∧ same_channels w w0) as (w0 & Hst & Hq0).
    { destruct first; eexists; (split; [reflexivity|]); done. }
    rewrite Hst in Hrun.
    destruct (iface_eq value lastId0) as [[]|]; [| |done].
    + by inversion Hrun; subst.
    + simpl in Hrun.
      destruct (sync_fields fields (w0, seen)) as [[w1 seen1]|] eqn:Hf;
        simpl in Hrun; [|done].
      eapply same_channels_trans; [done|].
      eapply same_channels_trans; [by eapply sync_fields_channels | by eapply IH].
Qed.

Lemma sync_channels w log err w' err' :
  sync w log err = Ok (w', err') → same_channels w w'.
Proof.
  unfold sync.
  destruct (sync_entries log true (lastId w) (w, ∅)) as [[w1 seen1]|] eqn:Hs;
    simpl; [|done].
  intros [= <- _]. by eapply sync_entries_channels.
Qed.

Lemma handle_distinct growcap w req w' :
  distinct_channels w → handle growcap w req = Ok w' → distinct_channels w'.
Proof.
  intros Hd. destruct req as [done|key [ch k]|key ch|].
  - unfold handle. intros [= <-]. by destruct done.
  - destruct (find_ch ch (watches_of w key)) as [i|] eqn:Hf.
    { unfold handle. simpl. by rewrite Hf. }
    rewrite handle_watch_fresh by done.
    assert (∀ k', distinct_channels (attached w key ch k')) as Hatt.
    { intros k' key'. unfold attached. rewrite watches_of_set_watches.
      destruct (decide (key = key')) as [<-|Hne].
      - rewrite lookup_insert_eq. simpl. rewrite fmap_app. simpl.
        apply NoDup_app. split_and!; [apply Hd| |apply NoDup_singleton].
        intros x Hx Hx'. apply list_elem_of_singleton in Hx' as ->.
        by apply find_ch_None_channels in Hf.
      - rewrite lookup_insert_ne by done. apply Hd. }
    intros [= <-]. destruct (current w !! key) as [v|]; [|apply Hatt].
    destruct (decide (newer v k)); [|apply Hatt]. exact (Hatt v).
  - unfold handle. intros [= <-].
    destruct (find_ch ch (watches_of w key)) as [i|] eqn:Hf; [|apply Hd].
    intros key'. unfold watches_of. simpl.
    destruct (decide (key = key')) as [<-|Hne].
    + rewrite lookup_insert_eq. simpl.
      rewrite (remove_at_delete i _ (find_ch_lt _ _ _ Hf)), list_fmap_delete.
      eapply sublist_NoDup; [apply Hd | apply sublist_delete].
    + rewrite lookup_insert_ne by done. apply Hd.
  - done.
Qed.

(** In every state the watcher reaches, the records of a key are on
    different channels. *)
Theorem reachable_distinct_channels (growcap : nat → nat)
    (P : list (list (string * bval)) → Prop) (w : Watcher) :
  reachable growcap P w → distinct_channels w.
Proof.
  induction 1 as [newest|w _ IH|w req w' _ IH Hh|w log err w' err' _ IH Hlog Hs
                 |w sched w' _ IH Hf].
  - intros key. apply NoDup_nil_2.
  - done.
  - by eapply handle_distinct.
  - intros key. rewrite (sync_channels w log err w' err' Hs key). apply IH.
  - apply (flush_inv growcap distinct_channels) with (w := w) (sched := sched);
      [apply handle_distinct|done..].
Qed.

(** ** What a triple does, by cases *)

(** A triple that does not panic has a comparable document id, and either
    leaves the watcher as it is or updates the registry value of a key
    that is new to the pass. *)
Lemma sync_triple_cases cname di ri w (seen : gset watchKey) w' seen' :
  sync_triple cname di ri (w, seen) = Ok (w', seen') →
  ∃ docid, di = BScalar docid ∧
    let key := mkKey cname docid in
    ((w' = w ∧ seen' = {[key]} ∪ seen) ∨
     (∃ revno, let v := canonical revno in
        ri = BScalar (IInt64 revno) ∧ (key ∉ seen) ∧ seen' = {[key]} ∪ seen ∧
        current_or_zero w key ≠ v ∧
        current w' = <[key := v]> (current w) ∧
        syncEvents w' = syncEvents w ++ coll_events key v (watches_of w (collKey cname))
                        ++ omap (doc_event key v) (watches_of w key) ∧
        watches w' = match watches w !! key with
                     | Some infos => <[key := advance v <$> infos]> (watches w)
                     | None => watches w
                     end ∧
        heap w' = heap w ∧ requestEvents w' = requestEvents w ∧
        syncDone w' = syncDone w ∧ lastId w' = lastId w ∧ next w' = next w)).
Proof.
  intros Hrun. destruct di as [docid| | |]; [|done..].
  exists docid. split; [done|]. simpl.
  destruct (decide (mkKey cname docid ∈ seen)) as [Hs|Hs].
  { rewrite sync_triple_seen in Hrun by done. injection Hrun as <- <-.
    left. split; [done|]. symmetry. apply subseteq_union_1_L.
    by apply singleton_subseteq_l. }
  destruct (decide (is_int64 ri)) as [[n ->]|Hri].
  - destruct (decide (current_or_zero w (mkKey cname docid) = canonical n))
      as [Heq|Hneq].
    + rewrite sync_triple_same in Hrun by done. injection Hrun as <- <-. by left.
    + destruct (sync_triple_update cname docid n w seen Hs Hneq) as (w1 & Hrun1 & Hrest).
      rewrite Hrun1 in Hrun. injection Hrun as <- <-.
      right. exists n. by split_and!; try apply Hrest.
  - rewrite sync_triple_not_int64 in Hrun by done. injection Hrun as <- <-. by left.
Qed.

(** ** Properties every step of a pass keeps *)

Section PassInvariant.
Variable I : pass → Prop.
Hypothesis I_triple :
  ∀ cname di ri st st', I st → sync_triple cname di ri st = Ok st' → I st'.

Lemma sync_docs_inv cname d r n st st' :
  I st → sync_docs cname d r n st = Ok st' → I st'.
Proof.
  revert st. induction n as [|i IH]; intros st Hst Hrun; simpl in Hrun.
  - by inversion Hrun; subst.
  - destruct (d !! i) as [di|]; [|done]. destruct (r !! i) as [ri|]; [|done].
    destruct (sync_triple cname di ri st) as [st1|] eqn:Ht; simpl in Hrun; [|done].
    eapply IH; [|done]. by eapply I_triple.
Qed.

Lemma sync_fields_inv fields st st' :
  I st → sync_fields fields st = Ok st' → I st'.
Proof.
  revert st. induction fields as [|c fields IH]; intros st Hst Hrun; simpl in Hrun.
  - by inversion Hrun; subst.
  - destruct (sync_field c st) as [st1|] eqn:Hf; simpl in Hrun; [|done].
    eapply IH; [|done]. unfold sync_field in Hf.
    destruct (changed_docs c.2) as [d r]. destruct (_ || _).
    + by inversion Hf; subst.
    + by eapply sync_docs_inv.
Qed.

Lemma sync_entries_inv log first lastId0 st st' :
  (first = true → ∀ w seen v, I (w, seen) → I (set_lastId w v, seen)) →
  I st → sync_entries log first lastId0 st = Ok st' → I st'.
Proof.
  revert first st.
  induction log as [|entry log IH]; intros first st Hid Hst Hrun; simpl in Hrun.
  - by inversion Hrun; subst.
  - destruct entry as [|[name value] fields]; [by eapply IH|].
    destruct (decide (name = "_id")); [|done].
    assert (I (if first then (set_lastId st.1 value, st.2) else st)) as Hst0.
    { destruct first; [|done]. destruct st as [w seen]. by apply Hid. }
    destruct (iface_eq value lastId0) as [[]|]; [| |done].
    + by inversion Hrun; subst.
    + simpl in Hrun.
      destruct (sync_fields fields _) as [st1|] eqn:Hf; simpl in Hrun; [|done].
      eapply (IH false); [done| |done]. by eapply sync_fields_inv.
Qed.

Lemma sync_inv w log err w' err' :
  (∀ w seen v, I (w, seen) → I (set_lastId w v, seen)) →
  I (w, ∅) → sync w log err = Ok (w', err') → ∃ seen', I (w', seen').
Proof.
  intros Hid Hst. unfold sync.
  destruct (sync_entries log true (lastId w) (w, ∅)) as [[w1 seen1]|] eqn:Hs;
    simpl; [|done].
  intros [= <- _]. exists seen1.
  eapply sync_entries_inv; [|exact Hst|exact Hs]. intros _. exact Hid.
Qed.

End PassInvariant.

(** ** The registry after a pass *)

(** A pass never takes a key out of the registry: a document it finds
    deleted keeps its key, with the revision -1. *)
Theorem sync_keeps_registry_keys (w : Watcher) (log : list (list (string * bval)))
    (err : option string) (w' : Watcher) (err' : option string) (key : watchKey) :
  sync w log err = Ok (w', err') →
  is_Some (current w !! key) → is_Some (current w' !! key).
Proof.
  intros Hrun Hkey.
  set (I := λ st : pass, is_Some (current st.1 !! key)).
  assert (∀ cname di ri st st', I st → sync_triple cname di ri st = Ok st' → I st')
    as Htriple.
  { intros cname di ri [w1 seen1] [w2 seen2] H1 Ht. unfold I in *. simpl in *.
    apply sync_triple_cases in Ht
      as (docid & -> & [[-> _]|(revno & _ & _ & _ & _ & Hcur & _)]); [done|].
    rewrite Hcur. destruct (decide (mkKey cname docid = key)) as [->|Hne].
    - by rewrite lookup_insert_eq.
    - by rewrite lookup_insert_ne. }
  by destruct (sync_inv I Htriple w log err w' err') as [seen' H].
Qed.

Lemma sync_keeps_registry_keys_witness :
  is_Some (current deleted_example !! mkKey "users" (IInt 7)).
Proof.
  apply (sync_keeps_registry_keys registry_example
           [log_entry (IInt 100) [doc_field "users" [IInt 7] [IInt64 (-3)]]]
           None deleted_example None (mkKey "users" (IInt 7))).
  - vm_compute. reflexivity.
  - vm_compute. by eexists.
Defined.

Lemma coll_events_elem e key v (infos : list watchInfo) :
  e ∈ coll_events key v infos → ev_key e = key ∧ ev_revno e = v.
Proof.
  unfold coll_events. intros (info & -> & _)%list_elem_of_fmap. done.
Qed.

Lemma doc_events_elem e key v (infos : list watchInfo) :
  e ∈ omap (doc_event key v) infos → ev_key e = key ∧ ev_revno e = v.
Proof.
  intros (info & _ & He)%list_elem_of_omap. unfold doc_event in He.
  destruct (decide _); [|done]. by injection He as <-.
Qed.

(** The events a pass queues carry the revision the registry holds for
    their key when the pass ends, which is -1 or more. *)
Theorem sync_events_carry_registry (w : Watcher) (log : list (list (string * bval)))
    (err : option string) (w' : Watcher) (err' : option string) :
  sync w log err = Ok (w', err') →
  ∃ new, syncEvents w' = syncEvents w ++ new ∧
    ∀ e, e ∈ new → current w' !! ev_key e = Some (ev_revno e) ∧ -1 ≤ ev_revno e.
Proof.
  intros Hrun.
  set (I := λ st : pass,
         ∃ new, syncEvents st.1 = syncEvents w ++ new ∧
           ∀ e, e ∈ new → ev_key e ∈ st.2 ∧
             current st.1 !! ev_key e = Some (ev_revno e) ∧ -1 ≤ ev_revno e).
  assert (∀ cname di ri st st', I st → sync_triple cname di ri st = Ok st' → I st')
    as Htriple.
  { intros cname di ri [w1 seen1] [w2 seen2] (new & Hev & Hnew) Ht.
    unfold I. simpl in *.
    apply sync_triple_cases in Ht
      as (docid & -> & [[-> ->]|(revno & _ & Hs & -> & _ & Hcur & Hev2 & _)]).
    - exists new. split; [done|]. intros e He.
      destruct (Hnew e He) as (? & ? & ?).
      split_and!; [apply elem_of_union; by right|done..].
    - exists (new ++ coll_events (mkKey cname docid) (canonical revno)
                       (watches_of w1 (collKey cname))
                  ++ omap (doc_event (mkKey cname docid) (canonical revno))
                       (watches_of w1 (mkKey cname docid))).
      split; [by rewrite Hev2, Hev, <- (assoc_L (++))|].
      intros e He. rewrite Hcur. apply elem_of_app in He as [He|He].
      + destruct (Hnew e He) as (Hin & ? & ?).
        split_and!; [apply elem_of_union; by right| |done].
        rewrite lookup_insert_ne; [done|]. intros Heq. apply Hs. by rewrite Heq.
      + assert (ev_key e = mkKey cname docid ∧ ev_revno e = canonical revno)
          as [Hk Hv].
        { apply elem_of_app in He as [He|He];
            [by eapply coll_events_elem | by eapply doc_events_elem]. }
        rewrite Hk, Hv, lookup_insert_eq.
        split_and!; [|done|apply canonical_ge].
        apply elem_of_union. left. by apply elem_of_singleton. }
  assert (∀ w1 seen1 v, I (w1, seen1) → I (set_lastId w1 v, seen1)) as Hid.
  { intros w1 seen1 v (new & Hev & Hnew). by exists new. }
  assert (I (w, ∅)) as Hst.
  { exists []. split; [by rewrite app_nil_r|]. by intros e He%elem_of_nil. }
  destruct (sync_inv I Htriple w log err w' err' Hid Hst Hrun)
    as [seen' (new & Hev & Hnew)].
  exists new. split; [done|]. intros e He. by destruct (Hnew e He) as (_ & ? & ?).
Qed.

Lemma sync_events_carry_registry_witness :
  ∃ new, syncEvents deleted_example = syncEvents registry_example ++ new ∧
    ∀ e, e ∈ new →
         current deleted_example !! ev_key e = Some (ev_revno e) ∧ -1 ≤ ev_revno e.
Proof.
  apply (sync_events_carry_registry registry_example
           [log_entry (IInt 100) [doc_field "users" [IInt 7] [IInt64 (-3)]]]
           None deleted_example None).
  vm_compute. reflexivity.
Defined.

(** ** The identifier a pass stops at *)

Lemma sync_entries_lastId log lastId0 w (seen : gset watchKey) w' seen' :
  sync_entries log false lastId0 (w, seen) = Ok (w', seen') → lastId w' = lastId w.
Proof.
  intros Hrun.
  set (I := λ st : pass, lastId st.1 = lastId w).
  assert (∀ cname di ri st st', I st → sync_triple cname di ri st = Ok st' → I st')
    as Htriple.
  { intros cname di ri [w1 seen1] [w2 seen2] H1 Ht. unfold I in *. simpl in *.
    apply sync_triple_cases in Ht as (docid & -> & [[-> _]|(revno & Hrest)]); [done|].
    destruct Hrest as (_ & _ & _ & _ & _ & _ & _ & _ & _ & _ & Hl & _). congruence. }
  by apply (sync_entries_inv I Htriple log false lastId0 (w, seen) (w', seen')).
Qed.

Lemma sync_fields_lastId fields w (seen : gset watchKey) w' seen' :
  sync_fields fields (w, seen) = Ok (w', seen') → lastId w' = lastId w.
Proof.
  intros Hrun.
  set (I := λ st : pass, lastId st.1 = lastId w).
  assert (∀ cname di ri st st', I st → sync_triple cname di ri st = Ok st' → I st')
    as Htriple.
  { intros cname di ri [w1 seen1] [w2 seen2] H1 Ht. unfold I in *. simpl in *.
    apply sync_triple_cases in Ht as (docid & -> & [[-> _]|(revno & Hrest)]); [done|].
    destruct Hrest as (_ & _ & _ & _ & _ & _ & _ & _ & _ & _ & Hl & _). congruence. }
  by apply (sync_fields_inv I Htriple fields (w, seen) (w', seen')).
Qed.

Lemma sync_entries_takes_newest log lastId0 w (seen : gset watchKey) w' seen' :
  sync_entries log true lastId0 (w, seen) = Ok (w', seen') →
  lastId w' = default (lastId w) (snd <$> newest_field log).
Proof.
  induction log as [|entry log IH]; simpl.
  - by intros [= <- _].
  - destruct entry as [|[name value] fields]; [done|].
    destruct (decide (name = "_id")); [|done]. simpl.
    destruct (iface_eq value lastId0) as [[]|]; [| |done].
    + by intros [= <- _].
    + destruct (sync_fields fields _) as [[w1 seen1]|] eqn:Hf; simpl; [|done].
      intros Hrun. apply sync_entries_lastId in Hrun.
      apply sync_fields_lastId in Hf. by rewrite Hrun, Hf.
Qed.

(** After a pass [w.lastId] is the [_id] of the newest entry of the log,
    the first the iterator yields that is not empty; over a log without
    such an entry it is as before. *)
Theorem sync_takes_newest_id (w : Watcher) (log : list (list (string * bval)))
    (err : option string) (w' : Watcher) (err' : option string) :
  sync w log err = Ok (w', err') →
  lastId w' = default (lastId w) (snd <$> newest_field log).
Proof.
  unfold sync.
  destruct (sync_entries log true (lastId w) (w, ∅)) as [[w1 seen1]|] eqn:Hs;
    simpl; [|done].
  intros [= <- _]. by eapply sync_entries_takes_newest.
Qed.

Lemma sync_takes_newest_id_witness :
  lastId deleted_example
  = default (lastId registry_example)
      (snd <$> newest_field
                 [[]; log_entry (IInt 100) [doc_field "users" [IInt 7] [IInt64 (-3)]]]).
Proof.
  apply (sync_takes_newest_id registry_example
           [[]; log_entry (IInt 100) [doc_field "users" [IInt 7] [IInt64 (-3)]]]
           None deleted_example None).
  vm_compute. reflexivity.
Defined.

Lemma set_lastId_same w : set_lastId w (lastId w) = w.
Proof. by destruct w. Qed.

Lemma sync_entries_nothing_new log id w (seen : gset watchKey) :
  lastId w = BScalar id →
  newest_field log = Some ("_id", BScalar id) →
  sync_entries log true (BScalar id) (w, seen) = Ok (w, seen).
Proof.
  intros Hl. induction log as [|entry log IH]; simpl; [done|].
  destruct entry as [|[name value] fields]; [done|].
  intros [= -> ->]. simpl.
  rewrite bool_decide_eq_true_2 by done. by rewrite <- Hl, set_lastId_same.
Qed.

(** A pass over a log whose newest entry is the one [w.lastId] names
    reads nothing and leaves the watcher as it is. *)
Theorem sync_nothing_new (w : Watcher) (log : list (list (string * bval)))
    (err : option string) (id : iface) :
  lastId w = BScalar id →
  newest_field log = Some ("_id", BScalar id) →
  sync w log err = Ok (w, iteration_error err).
Proof.
  intros Hl Hn. unfold sync. rewrite Hl.
  by rewrite (sync_entries_nothing_new log id w ∅ Hl Hn).
Qed.

Lemma sync_nothing_new_witness :
  sync deleted_example
    [[]; log_entry (IInt 100) [doc_field "users" [IInt 7] [IInt64 (-3)]];
         log_entry (IInt 99) [doc_field "users" [IInt 8] [IInt64 2]]] None
  = Ok (deleted_example, iteration_error None).
Proof.
  apply (sync_nothing_new deleted_example _ None (IInt 100)); reflexivity.
Defined.

(** A second pass over the same log changes nothing, provided the [_id]
    of its newest entry is a comparable value. *)
Theorem sync_again_changes_nothing (w : Watcher) (log : list (list (string * bval)))
    (err : option string) (w' : Watcher) (err' : option string) :
  sync w log err = Ok (w', err') →
  (∀ c, newest_field log = Some c → scalar c.2) →
  sync w' log err = Ok (w', err').
Proof.
  intros Hrun Hsc. unfold sync in *.
  destruct (sync_entries log true (lastId w) (w, ∅)) as [[w1 seen1]|] eqn:Hs;
    simpl in Hrun; [|done].
  injection Hrun as <- <-.
  pose proof (sync_entries_takes_newest _ _ _ _ _ _ Hs) as Hl.
  destruct (newest_field log) as [[name value]|] eqn:Hn.
  - destruct (Hsc _ eq_refl) as [id Hid]. simpl in Hid, Hl.
    rewrite Hid in Hl, Hn. clear Hid.
    assert (name = "_id") as ->.
    { clear Hsc. revert Hs Hn. generalize (w, (∅ : gset watchKey)) as st0.
      induction log as [|entry log IH]; intros st0; simpl; [done|].
      destruct entry as [|[name' value'] fields]; [apply IH|].
      destruct (decide (name' = "_id")) as [->|]; [|done]. by intros _ [= <- _]. }
    rewrite Hl. by rewrite (sync_entries_nothing_new log id w1 ∅ Hl Hn).
  - assert (∀ first l0 st, sync_entries log first l0 st = Ok st) as Hnop.
    { clear Hs Hl Hsc. induction log as [|entry log IH]; intros first l0 st;
        simpl; [done|].
      destruct entry as [|c fields]; [|done]. by apply IH. }
    rewrite Hnop in Hs |- *. by injection Hs as <- <-.
Qed.

Lemma sync_again_changes_nothing_witness :
  sync deleted_example
    [log_entry (IInt 100) [doc_field "users" [IInt 7] [IInt64 (-3)]]] None
  = Ok (deleted_example, None).
Proof.
  apply (sync_again_changes_nothing registry_example
           [log_entry (IInt 100) [doc_field "users" [IInt 7] [IInt64 (-3)]]]
           None deleted_example None).
  - vm_compute. reflexivity.
  - intros c [= <-]. by eexists.
Defined.

Lemma sync_entries_ignores_older newer id fields older1 older2 first st :
  sync_entries (newer ++ (("_id", BScalar id) :: fields) :: older1) first (BScalar id) st
  = sync_entries (newer ++ (("_id", BScalar id) :: fields) :: older2) first (BScalar id) st.
Proof.
  revert first st. induction newer as [|entry newer IH]; intros first st; simpl.
  - by rewrite bool_decide_eq_true_2.
  - destruct entry as [|[name value] fields']; [apply IH|].
    destruct (decide (name = "_id")); [|done].
    destruct (iface_eq value (BScalar id)) as [[]|]; [done| |done].
    simpl. destruct (sync_fields fields' _); simpl; [apply IH|done].
Qed.

(** A pass stops at the entry [w.lastId] names: what the log holds after
    that entry makes no difference to the result. *)
Theorem sync_ignores_older_entries (w : Watcher)
    (newer : list (list (string * bval))) (id : iface) (fields : list (string * bval))
    (older1 older2 : list (list (string * bval))) (err : option string) :
  lastId w = BScalar id →
  sync w (newer ++ (("_id", BScalar id) :: fields) :: older1) err
  = sync w (newer ++ (("_id", BScalar id) :: fields) :: older2) err.
Proof.
  intros Hl. unfold sync. rewrite Hl.
  by rewrite (sync_entries_ignores_older newer id fields older1 older2).
Qed.

Lemma sync_ignores_older_entries_witness :
  sync deleted_example
    ([log_entry (IInt 101) [doc_field "users" [IInt 7] [IInt64 4]]]
     ++ log_entry (IInt 100) []
        :: [log_entry (IInt 99) [doc_field "users" [IInt 8] [IInt64 2]]]) None
  = sync deleted_example
      ([log_entry (IInt 101) [doc_field "users" [IInt 7] [IInt64 4]]]
       ++ log_entry (IInt 100) [] :: []) None.
Proof.
  apply (sync_ignores_older_entries deleted_example
           [log_entry (IInt 101) [doc_field "users" [IInt 7] [IInt64 4]]]
           (IInt 100) []).
  reflexivity.
Defined.

(** ** Logs a pass reads without a panic *)

Lemma sync_triple_returns cname docid ri st :
  ∃ st', sync_triple cname (BScalar docid) ri st = Ok st'.
Proof.
  destruct st as [w seen].
  destruct (decide (mkKey cname docid ∈ seen)) as [Hs|Hs].
  { rewrite sync_triple_seen by done. by eexists. }
  destruct (decide (is_int64 ri)) as [[n ->]|Hri].
  - destruct (decide (current_or_zero w (mkKey cname docid) = canonical n))
      as [Heq|Hneq].
    + rewrite sync_triple_same by done. by eexists.
    + destruct (sync_triple_update cname docid n w seen Hs Hneq) as (w1 & Hrun1 & _).
      by eexists.
  - rewrite sync_triple_not_int64 by done. by eexists.
Qed.

Lemma sync_docs_returns cname d r n st :
  (n ≤ length d)%nat → (n ≤ length r)%nat → Forall scalar d →
  ∃ st', sync_docs cname d r n st = Ok st'.
Proof.
  intros Hd Hr Hsc. revert st. induction n as [|i IH]; intros st; simpl.
  - by eexists.
  - destruct (lookup_lt_is_Some_2 d i) as [di Hdi]; [lia|].
    destruct (lookup_lt_is_Some_2 r i) as [ri Hri]; [lia|].
    rewrite Hdi, Hri.
    destruct (proj1 (Forall_lookup _ _) Hsc i di Hdi) as [docid ->].
    destruct (sync_triple_returns cname docid ri st) as [st1 ->]. simpl.
    apply IH; lia.
Qed.

Lemma sync_fields_returns fields st :
  (∀ c, c ∈ fields → Forall scalar (changed_docs c.2).1) →
  ∃ st', sync_fields fields st = Ok st'.
Proof.
  revert st. induction fields as [|c fields IH]; intros st Hsc; simpl.
  - by eexists.
  - assert (∃ st1, sync_field c st = Ok st1) as [st1 ->].
    { unfold sync_field. pose proof (Hsc c (list_elem_of_here _ _)) as Hc.
      destruct (changed_docs c.2) as [d r]. simpl in Hc.
      destruct (length d =? 0)%nat eqn:H0; simpl; [by eexists|].
      destruct (Nat.eqb_spec (length d) (length r)) as [Hlen|]; simpl; [|by eexists].
      apply sync_docs_returns; [lia..|done]. }
    simpl. apply IH. intros c' Hc'. apply Hsc. by apply list_elem_of_further.
Qed.

Lemma sync_entries_returns log first lastId0 st :
  Forall well_formed log → ∃ st', sync_entries log first lastId0 st = Ok st'.
Proof.
  intros Hwf. revert first st.
  induction Hwf as [|entry log Hentry _ IH]; intros first st; simpl.
  - by eexists.
  - destruct entry as [|[name value] fields]; [apply IH|].
    destruct Hentry as (-> & [id ->] & Hsc). simpl.
    pose proof (λ st0, sync_fields_returns fields st0 Hsc) as Hf.
    destruct lastId0 as [y| | |]; [destruct (bool_decide (id = y)); [by eexists|]|..];
      match goal with
      | |- context [sync_fields fields ?x] => destruct (Hf x) as [st1 ->]
      end; simpl; apply IH.
Qed.

(** A pass panics on no log whose entries are empty or well formed: its
    indices stay within [d] and [r], its keys can be hashed and its
    identifiers compared. *)
Theorem sync_returns_on_well_formed_log (w : Watcher)
    (log : list (list (string * bval))) (err : option string) :
  Forall well_formed log →
  ∃ w', sync w log err = Ok (w', iteration_error err).
Proof.
  intros Hwf. unfold sync.
  destruct (sync_entries_returns log true (lastId w) (w, ∅) Hwf) as [st ->].
  by eexists.
Qed.

Lemma sync_returns_on_well_formed_log_witness :
  ∃ w', sync registry_example
          [[]; log_entry (IInt 100) [doc_field "users" [IInt 7; IInt 8] [IInt64 4]]]
          (Some "EOF")
        = Ok (w', iteration_error (Some "EOF")).
Proof.
  apply (sync_returns_on_well_formed_log registry_example
           [[]; log_entry (IInt 100) [doc_field "users" [IInt 7; IInt 8] [IInt64 4]]]
           (Some "EOF")).
  repeat constructor.
  - by eexists.
  - intros c Hc. apply list_elem_of_singleton in Hc as ->.
    vm_compute. repeat constructor; by eexists.
Defined.

(** ** Deduplication within a pass *)

Lemma sync_triples_app l1 l2 st :
  sync_triples (l1 ++ l2) st = do st' <- sync_triples l1 st; sync_triples l2 st'.
Proof.
  revert st. induction l1 as [|[k v] l1 IH]; intros st; simpl; [done|].
  destruct (sync_triple _ _ _ st); simpl; [apply IH|done].
Qed.

Lemma sync_triples_returns l st : ∃ st', sync_triples l st = Ok st'.
Proof.
  revert st. induction l as [|[k v] l IH]; intros st; simpl; [by eexists|].
  destruct (sync_triple_returns (wk_c k) (wk_id k) (BScalar (IInt64 v)) st)
    as [st1 ->].
  simpl. apply IH.
Qed.

Lemma sync_triples_marks l st st' :
  sync_triples l st = Ok st' →
  ∀ k, k ∈ st.2 ∨ k ∈ (fst <$> l) → k ∈ st'.2.
Proof.
  revert st. induction l as [|[k0 v0] l IH]; intros st; simpl.
  - intros [= <-] k [Hk|Hk]; [done|]. by apply elem_of_nil in Hk.
  - destruct (sync_triple _ _ _ st) as [st1|] eqn:Ht; simpl; [|done].
    intros Hrun k Hk. apply (IH st1 Hrun).
    destruct st as [w seen], st1 as [w1 seen1].
    apply sync_triple_cases in Ht as (docid & [= <-] & Hcases). simpl in *.
    assert (seen1 = {[k0]} ∪ seen) as ->.
    { destruct k0. by destruct Hcases as [[_ ->]|(revno & _ & _ & -> & _)]. }
    destruct Hk as [Hk|[->|Hk]%elem_of_cons].
    + left. apply elem_of_union. by right.
    + left. apply elem_of_union. left. by apply elem_of_singleton.
    + by right.
Qed.

(** A triple whose key occurs before it in the list changes nothing. *)
Lemma sync_triples_later l1 k v l2 st :
  k ∈ (fst <$> l1) →
  sync_triples (l1 ++ (k, v) :: l2) st = sync_triples (l1 ++ l2) st.
Proof.
  intros Hk. rewrite !sync_triples_app.
  destruct (sync_triples l1 st) as [[w1 seen1]|] eqn:H1; simpl; [|done].
  pose proof (sync_triples_marks l1 st (w1, seen1) H1 k (or_intror Hk)) as Hin.
  destruct k as [c d]. simpl in *. by rewrite sync_triple_seen.
Qed.

(** The registry after a run: the first occurrence of a key decides. *)
Lemma sync_triples_first l w (seen : gset watchKey) w' seen' :
  sync_triples l (w, seen) = Ok (w', seen') →
  ∀ k, if decide (k ∈ seen) then current w' !! k = current w !! k
       else match first_rev l k with
            | Some v =>
                current w' !! k
                = if decide (current w !! k = None ∧ canonical v = 0)
                  then None else Some (canonical v)
            | None => current w' !! k = current w !! k
            end.
Proof.
  revert w seen. induction l as [|[k0 v0] l IH]; intros w seen; simpl.
  - intros [= <- <-] k. by destruct (decide _).
  - destruct (sync_triple _ _ _ (w, seen)) as [[w1 seen1]|] eqn:Ht; simpl; [|done].
    intros Hrun k. specialize (IH w1 seen1 Hrun k).
    pose proof Ht as Hcases.
    apply sync_triple_cases in Hcases as (docid & [= <-] & Hcases). simpl in Hcases.
    assert (mkKey (wk_c k0) (wk_id k0) = k0) as Hk0 by (by destruct k0).
    rewrite Hk0 in Hcases.
    destruct (decide (k0 ∈ seen)) as [Hs0|Hs0].
    { assert (w1 = w ∧ seen1 = seen) as [-> ->].
      { destruct Hcases as [[-> ->]|(revno & _ & Hn & _)]; [|done].
        split; [done|]. apply subseteq_union_1_L. by apply singleton_subseteq_l. }
      destruct (decide (k ∈ seen)) as [Hs|Hs]; [done|].
      rewrite decide_False by (intros ->; done). done. }
    assert (seen1 = {[k0]} ∪ seen) as ->
      by (by destruct Hcases as [[_ ->]|(revno & _ & _ & -> & _)]).
    assert (∀ k', k' ≠ k0 → current w1 !! k' = current w !! k') as Hother.
    { intros k' Hne. destruct Hcases as [[-> _]|(revno & _ & _ & _ & _ & -> & _)];
        [done|]. by rewrite lookup_insert_ne. }
    assert (current w1 !! k0
            = if decide (current w !! k0 = None ∧ canonical v0 = 0)
              then None else Some (canonical v0)) as Hfirst.
    { destruct Hcases as [[-> _]|(revno & [= <-] & _ & _ & Hne & -> & _)].
      - assert (current_or_zero w k0 = canonical v0) as Hsame.
        { rewrite <- Hk0 in Ht, Hs0 |- *.
          by apply (sync_triple_same_iff (wk_c k0) (wk_id k0) v0 w seen Hs0). }
        unfold current_or_zero in Hsame.
        destruct (current w !! k0) as [cur|] eqn:Hcur; simpl in Hsame.
        + rewrite decide_False by (by intros [? _]). by rewrite Hsame.
        + by rewrite decide_True.
      - rewrite lookup_insert_eq. unfold current_or_zero in Hne.
        destruct (current w !! k0) as [cur|] eqn:Hcur; simpl in Hne.
        + by rewrite decide_False by (by intros [? _]).
        + by rewrite decide_False by (by intros [_ ?]). }
    destruct (decide (k ∈ seen)) as [Hs|Hs].
    + rewrite decide_True in IH by (apply elem_of_union; by right).
      rewrite IH. apply Hother. by intros ->.
    + destruct (decide (k0 = k)) as [->|Hne].
      * rewrite decide_True in IH
          by (apply elem_of_union; left; by apply elem_of_singleton).
        by rewrite IH.
      * rewrite decide_False in IH.
        -- rewrite Hother in IH by done. done.
        -- intros [Hin|Hin]%elem_of_union; [|done].
           apply elem_of_singleton in Hin. done.
Qed.

(** The pass over encoded entries is the run over their triples. *)
Lemma sync_list_triples c (ps : list (iface * Z)) st :
  sync_list c ((λ p, (BScalar p.1, BScalar (IInt64 p.2))) <$> ps) st
  = sync_triples ((λ p, (mkKey c p.1, p.2)) <$> ps) st.
Proof.
  revert st. induction ps as [|p ps IH]; intros st; simpl; [done|].
  destruct (sync_triple _ _ _ st); simpl; [apply IH|done].
Qed.

Lemma zip_encoded (ps : list (iface * Z)) :
  zip (BScalar <$> (fst <$> ps)) (BScalar <$> (IInt64 <$> (snd <$> ps)))
  = (λ p, (BScalar p.1, BScalar (IInt64 p.2))) <$> ps.
Proof. induction ps as [|p ps IH]; [done|]. simpl. f_equal. exact IH. Qed.

Lemma sync_field_encoded f st :
  sync_field (encode_field f) st = sync_triples (field_triples f) st.
Proof.
  destruct f as [c ps]. unfold sync_field, encode_field, field_triples. simpl.
  change (changed_docs (BDoc [("d", BArray (BScalar <$> (fst <$> ps)));
                              ("r", BArray (BScalar <$> (IInt64 <$> (snd <$> ps))))]))
    with (BScalar <$> (fst <$> ps), BScalar <$> (IInt64 <$> (snd <$> ps))).
  remember (BScalar <$> (fst <$> ps)) as d eqn:Hd.
  remember (BScalar <$> (IInt64 <$> (snd <$> ps))) as r eqn:Hr.
  assert (length d = length ps) as Hld by (subst; by rewrite !length_fmap).
  assert (length r = length ps) as Hlr by (subst; by rewrite !length_fmap).
  replace (length r) with (length d) by lia.
  rewrite Nat.eqb_refl, orb_false_r.
  destruct (Nat.eqb_spec (length d) 0) as [H0|H0].
  - assert (ps = []) as -> by (apply nil_length_inv; lia). done.
  - rewrite sync_docs_reverse by lia. subst d r.
    by rewrite zip_encoded, <- fmap_reverse, sync_list_triples.
Qed.

Lemma sync_fields_encoded fields st :
  sync_fields (encode_field <$> fields) st
  = sync_triples (fields ≫= field_triples) st.
Proof.
  revert st. induction fields as [|f fields IH]; intros st; simpl; [done|].
  rewrite sync_triples_app, sync_field_encoded.
  destruct (sync_triples (field_triples f) st); simpl; [apply IH|done].
Qed.

Lemma sync_entries_new id fields rest first lastId0 st :
  BScalar id ≠ lastId0 →
  sync_entries (log_entry id fields :: rest) first lastId0 st
  = do st' <- sync_fields fields
                (if first then (set_lastId st.1 (BScalar id), st.2) else st);
    sync_entries rest false lastId0 st'.
Proof.
  intros Hne. unfold log_entry. simpl.
  destruct lastId0 as [y| | |]; try done.
  rewrite bool_decide_eq_false_2; [done|]. congruence.
Qed.

Lemma sync_entries_encoded (log : list new_entry) lastId0 st :
  (∀ e, e ∈ log → BScalar e.1 ≠ lastId0) →
  sync_entries (encode_entry <$> log) false lastId0 st
  = sync_triples (pass_triples log) st.
Proof.
  revert st. induction log as [|e log IH]; intros st Hnew; [done|].
  unfold pass_triples. rewrite fmap_cons, bind_cons, sync_triples_app.
  unfold encode_entry at 1. rewrite sync_entries_new by (apply Hnew; by left).
  unfold entry_triples at 1. rewrite sync_fields_encoded.
  destruct (sync_triples _ st); simpl; [|done].
  apply IH. intros e' He'. apply Hnew. by right.
Qed.

Lemma sync_encoded w (log : list new_entry) err :
  (∀ e, e ∈ log → BScalar e.1 ≠ lastId w) →
  sync w (encode_entry <$> log) err
  = do st <- sync_triples (pass_triples log)
               (set_lastId w (default (lastId w) (BScalar <$> head (fst <$> log))), ∅);
    Ok (st.1, iteration_error err).
Proof.
  intros Hnew. unfold sync. destruct log as [|e log].
  - simpl. by rewrite set_lastId_same.
  - unfold pass_triples. rewrite fmap_cons, bind_cons, sync_triples_app.
    unfold encode_entry at 1. rewrite sync_entries_new by (apply Hnew; by left).
    unfold entry_triples at 1. rewrite sync_fields_encoded. simpl.
    destruct (sync_triples _ _); simpl; [|done].
    rewrite sync_entries_encoded; [done|].
    intros e' He'. apply Hnew. by right.
Qed.

(** C4. Within a pass the first occurrence of a key wins.  (1) A pass
    over new entries is the run of the body of the index loop over their
    triples taken in this order: the entries as the iterator yields them,
    newest first, the collections of an entry in their order, the
    documents of a collection from the last to the first; one [seen] set
    serves the whole pass.  After it the registry holds, for each key of
    the log, the canonical revision of the first occurrence of the key in
    that order, whatever the later, older, occurrences say (a key the
    registry did not hold and whose first occurrence has the revision 0
    stays out of it, as in C2), and the keys the log does not name are as
    they were.  (2) In such a run a triple whose key occurs before it
    changes nothing: nor the registry, nor a subscriber record, nor a
    queue.  (3) With a watcher of collection "apps" on channel 7 and the
    single new entry [{apps: {d: [1, 2, 1], r: [10, 11, 12]}}] over an
    empty registry, exactly two sync events are queued: id 1 with revision
    12 and id 2 with revision 11.  (4) With an older entry
    [{apps: {d: [1, 2], r: [10, 11]}}] after a newer one
    [{apps: {d: [1], r: [12]}}], the same. *)
Theorem sync_first_occurrence_wins :
  (∀ (w : Watcher) (log : list new_entry) (err : option string),
     (∀ e, e ∈ log → BScalar e.1 ≠ lastId w) →
     ∃ w' seen',
       sync w (encode_entry <$> log) err = Ok (w', iteration_error err) ∧
       sync_triples (pass_triples log)
         (set_lastId w (default (lastId w) (BScalar <$> head (fst <$> log))), ∅)
       = Ok (w', seen') ∧
       ∀ k, match first_rev (pass_triples log) k with
            | Some v =>
                current w' !! k
                = if decide (current w !! k = None ∧ canonical v = 0)
                  then None else Some (canonical v)
            | None => current w' !! k = current w !! k
            end) ∧
  (∀ l1 k v l2 st,
     k ∈ (fst <$> l1) →
     sync_triples (l1 ++ (k, v) :: l2) st = sync_triples (l1 ++ l2) st) ∧
  (∀ growcap,
     (do w <- handle growcap New (WatchCollection "apps" (Some 7%nat));
      do r <- sync w [log_entry (IInt 100)
                        [doc_field "apps" [IInt 1; IInt 2; IInt 1]
                                          [IInt64 10; IInt64 11; IInt64 12]]] None;
      Ok (syncEvents r.1,
          current r.1 !! mkKey "apps" (IInt 1),
          current r.1 !! mkKey "apps" (IInt 2)))
     = Ok ([mkEvent (Some 7%nat) (mkKey "apps" (IInt 1)) 12;
            mkEvent (Some 7%nat) (mkKey "apps" (IInt 2)) 11],
           Some 12, Some 11)) ∧
  (∀ growcap,
     (do w <- handle growcap New (WatchCollection "apps" (Some 7%nat));
      do r <- sync w [log_entry (IInt 101) [doc_field "apps" [IInt 1] [IInt64 12]];
                      log_entry (IInt 100)
                        [doc_field "apps" [IInt 1; IInt 2] [IInt64 10; IInt64 11]]]
                None;
      Ok (syncEvents r.1,
          current r.1 !! mkKey "apps" (IInt 1),
          current r.1 !! mkKey "apps" (IInt 2)))
     = Ok ([mkEvent (Some 7%nat) (mkKey "apps" (IInt 1)) 12;
            mkEvent (Some 7%nat) (mkKey "apps" (IInt 2)) 11],
           Some 12, Some 11)).
Proof.
  split_and!.
  - intros w log err Hnew. rewrite sync_encoded by done.
    destruct (sync_triples_returns (pass_triples log)
                (set_lastId w (default (lastId w) (BScalar <$> head (fst <$> log))), ∅))
      as [[w' seen'] Hrun].
    exists w', seen'. rewrite Hrun. split; [done|]. split; [done|].
    intros k. pose proof (sync_triples_first _ _ _ _ _ Hrun k) as H.
    by rewrite decide_False in H by apply not_elem_of_empty.
  - apply sync_triples_later.
  - intros growcap. vm_compute. reflexivity.
  - intros growcap. vm_compute. reflexivity.
Qed.

Lemma sync_first_occurrence_wins_witness :
  ∃ w' seen',
    sync collection_example
      (encode_entry <$>
         [(IInt 101, [("users", [(IInt 7, 12)])]);
          (IInt 100, [("users", [(IInt 7, 10); (IInt 8, 11)])])]) None
    = Ok (w', iteration_error None) ∧
    sync_triples
      (pass_triples [(IInt 101, [("users", [(IInt 7, 12)])]);
                     (IInt 100, [("users", [(IInt 7, 10); (IInt 8, 11)])])])
      (set_lastId collection_example
         (default (lastId collection_example)
            (BScalar <$> head (fst <$>
               [(IInt 101, [("users", [(IInt 7, 12)])]);
                (IInt 100, [("users", [(IInt 7, 10); (IInt 8, 11)])])]))), ∅)
    = Ok (w', seen') ∧
    ∀ k, match first_rev
                 (pass_triples [(IInt 101, [("users", [(IInt 7, 12)])]);
                                (IInt 100, [("users", [(IInt 7, 10); (IInt 8, 11)])])])
                 k with
         | Some v =>
             current w' !! k
             = if decide (current collection_example !! k = None ∧ canonical v = 0)
               then None else Some (canonical v)
         | None => current w' !! k = current collection_example !! k
         end.
Proof.
  apply (proj1 sync_first_occurrence_wins collection_example
           [(IInt 101, [("users", [(IInt 7, 12)])]);
            (IInt 100, [("users", [(IInt 7, 10); (IInt 8, 11)])])] None).
  intros e He. vm_compute.
  apply elem_of_cons in He as [->|He]; [discriminate|].
  apply list_elem_of_singleton in He as ->. discriminate.
Defined.

(** ** The timer and the pending [Sync]s *)

Lemma handle_armed growcap w req w' :
  armed w → handle growcap w req = Ok w' → armed w'.
Proof.
  intros [Hn Hs]. unfold handle.
  destruct req as [[d|]|key info|key ch|].
  - by intros [= <-].
  - by intros [= <-].
  - destruct (find_ch _ _); [done|].
    destruct (current w !! key) as [v|]; [|by intros [= <-]].
    destruct (newer_watch _ _); [|by intros [= <-]].
    destruct (append_event _ _ _ _). by intros [= <-].
  - intros [= <-]. by destruct (find_ch _ _).
  - done.
Qed.

Lemma sync_keeps_timer w log err w' err' :
  sync w log err = Ok (w', err') → next w' = next w ∧ syncDone w' = syncDone w.
Proof.
  intros Hrun.
  set (I := λ st : pass, next st.1 = next w ∧ syncDone st.1 = syncDone w).
  assert (∀ cname di ri st st', I st → sync_triple cname di ri st = Ok st' → I st')
    as Htriple.
  { intros cname di ri [w1 seen1] [w2 seen2] [H1 H2] Ht. unfold I in *. simpl in *.
    apply sync_triple_cases in Ht as (docid & -> & [[-> _]|(revno & Hrest)]); [done|].
    destruct Hrest as (_ & _ & _ & _ & _ & _ & _ & _ & _ & Hd & _ & Hn).
    split; congruence. }
  by destruct (sync_inv I Htriple w log err w' err') as [seen' H].
Qed.

Lemma sync_armed w log err w' err' :
  armed w → sync w log err = Ok (w', err') → armed w'.
Proof.
  intros Ha Hrun. destruct (sync_keeps_timer w log err w' err' Hrun) as [Hn Hd].
  unfold armed. by rewrite Hn, Hd.
Qed.

(** In every state the watcher reaches its timer is set, and it is set
    to fire at once whenever a [done] channel is pending: a [Sync] never
    waits for the period to elapse. *)
Theorem reachable_armed (growcap : nat → nat)
    (P : list (list (string * bval)) → Prop) (w : Watcher) :
  reachable growcap P w → armed w.
Proof.
  induction 1 as [newest|w _ IH|w req w' _ IH Hh|w log err w' err' _ IH Hlog Hs
                 |w sched w' _ IH Hf].
  - by split.
  - by split.
  - by eapply handle_armed.
  - by eapply sync_armed.
  - apply (flush_inv growcap armed) with (w := w) (sched := sched);
      [apply handle_armed|done..].
Qed.

Lemma reachable_armed_witness : armed (on_timer (loop_start None)).
Proof.
  apply (reachable_armed double (λ _, True) (on_timer (loop_start None))).
  apply reach_timer, reach_New.
Defined.

(** ** The registry and the subscriber records *)

Lemma sync_canonical w log err w' err' :
  canonical_registry w → sync w log err = Ok (w', err') → canonical_registry w'.
Proof.
  intros Hc Hrun.
  set (I := λ st : pass, canonical_registry st.1).
  assert (∀ cname di ri st st', I st → sync_triple cname di ri st = Ok st' → I st')
    as Htriple.
  { intros cname di ri [w1 seen1] [w2 seen2] H1 Ht. unfold I in *. simpl in *.
    apply sync_triple_cases in Ht
      as (docid & -> & [[-> _]|(revno & _ & _ & _ & _ & Hcur & _)]); [done|].
    intros key v. rewrite Hcur.
    destruct (decide (mkKey cname docid = key)) as [->|Hne].
    - rewrite lookup_insert_eq. intros [= <-]. apply canonical_ge.
    - rewrite lookup_insert_ne by done. apply H1. }
  by destruct (sync_inv I Htriple w log err w' err') as [seen' H].
Qed.

(** In every state the watcher reaches the registry holds no revision
    below -1, so the rule of [handle], which tests [revno == -1], and the
    rule of [sync], which tests [revno < 0], agree on every value it
    holds. *)
Theorem reachable_registry_canonical (growcap : nat → nat)
    (P : list (list (string * bval)) → Prop) (w : Watcher) (key : watchKey) (v k : Z) :
  reachable growcap P w →
  current w !! key = Some v →
  -1 ≤ v ∧ newer_watch v k = newer_sync v k.
Proof.
  intros Hreach Hcur.
  assert (canonical_registry w) as Hc.
  { clear Hcur.
    induction Hreach as [newest|w _ IH|w req w' _ IH Hh|w log err w' err' _ IH Hlog Hs
                        |w sched w' _ IH Hf].
    - by intros ??.
    - done.
    - intros ??. rewrite (handle_current growcap w req w' Hh). apply IH.
    - by eapply sync_canonical.
    - intros ??. rewrite (flush_current growcap w sched w' Hf). apply IH. }
  pose proof (Hc key v Hcur) as Hv. split; [done|].
  by rewrite newer_watch_spec, newer_sync_spec.
Qed.

Lemma observed_example_reachable (P : list (list (string * bval)) → Prop) :
  P [log_entry (IInt 100) [doc_field "users" [IInt 7] [IInt64 (-3)]]] →
  reachable double P observed_example.
Proof.
  intros HP.
  apply (reach_sync double P
           (set_watches (loop_start None)
              {[mkKey "users" (IInt 7) := [mkInfo (Some 1%nat) 5]]})
           [log_entry (IInt 100) [doc_field "users" [IInt 7] [IInt64 (-3)]]]
           None observed_example None); [|done|vm_compute; reflexivity].
  apply (reach_handle double P (loop_start None)
           (reqWatch (mkKey "users" (IInt 7)) (mkInfo (Some 1%nat) 5)));
    [apply reach_New|vm_compute; reflexivity].
Qed.

Lemma grown_example_reachable (P : list (list (string * bval)) → Prop) :
  P [log_entry (IInt 100) [doc_field "users" [IInt 7] [IInt64 (-3)]]] →
  reachable double P grown_example.
Proof.
  intros HP.
  apply (reach_handle double P
           (attached_caught_up double observed_example (mkKey "users" (IInt 7))
              (Some 2%nat) (-1))
           (reqWatch (mkKey "users" (IInt 7)) (mkInfo (Some 3%nat) 0)));
    [|vm_compute; reflexivity].
  apply (reach_handle double P observed_example
           (reqWatch (mkKey "users" (IInt 7)) (mkInfo (Some 2%nat) 4)));
    [by apply observed_example_reachable|vm_compute; reflexivity].
Qed.

Lemma registry_holds_document_keys_witness :
  current grown_example !! collKey "users" = None ∧
  ((∀ info, info ∈ watches_of grown_example (collKey "users") →
            info_ch info ≠ Some 7%nat) →
   ∃ w', handle double grown_example (WatchCollection "users" (Some 7%nat)) = Ok w' ∧
         request_queue w' = request_queue grown_example ∧
         watches_of w' (collKey "users")
         = watches_of grown_example (collKey "users") ++ [mkInfo (Some 7%nat) 0]).
Proof.
  apply (proj2 (proj2 (proj2 (registry_holds_document_keys double)))
           grown_example "users" (Some 7%nat)).
  apply grown_example_reachable.
  intros entry c Hentry Hc.
  apply list_elem_of_singleton in Hentry as ->.
  apply list_elem_of_singleton in Hc as ->.
  vm_compute. apply not_elem_of_cons. split; [discriminate|apply not_elem_of_nil].
Defined.

Lemma reachable_wf_queue_witness : wf_queue grown_example.
Proof.
  apply (reachable_wf_queue double (λ _, True) grown_example).
  by apply grown_example_reachable.
Defined.

Lemma reachable_distinct_channels_witness : distinct_channels grown_example.
Proof.
  apply (reachable_distinct_channels double (λ _, True) grown_example).
  by apply grown_example_reachable.
Defined.

(** The state of these witnesses: three subscribers of document 7, and
    two events in a queue that [append] has moved to a second array. *)
Example grown_example_state :
  (watches_of grown_example (mkKey "users" (IInt 7)),
   current grown_example !! mkKey "users" (IInt 7),
   requestEvents grown_example, request_queue grown_example)
  = ([mkInfo (Some 1%nat) (-1); mkInfo (Some 2%nat) (-1); mkInfo (Some 3%nat) (-1)],
     Some (-1), mkSlice 1 2 2,
     [mkEvent (Some 2%nat) (mkKey "users" (IInt 7)) (-1);
      mkEvent (Some 3%nat) (mkKey "users" (IInt 7)) (-1)]).
Proof. vm_compute. reflexivity. Qed.

Lemma reachable_registry_canonical_witness :
  -1 ≤ -1 ∧ newer_watch (-1) 4 = newer_sync (-1) 4.
Proof.
  apply (reachable_registry_canonical double (λ _, True) observed_example
           (mkKey "users" (IInt 7)) (-1) 4); [|reflexivity].
  by apply observed_example_reachable.
Defined.

Lemma newer_irrefl v : ¬ newer v v.
Proof. unfold newer. lia. Qed.

Lemma handle_caught_up growcap w req w' :
  caught_up w → handle growcap w req = Ok w' → caught_up w'.
Proof.
  intros Hc. destruct req as [done|key [ch k]|key ch|].
  - unfold handle. intros [= <-]. by destruct done.
  - destruct (find_ch ch (watches_of w key)) as [i|] eqn:Hf.
    { unfold handle. simpl. by rewrite Hf. }
    rewrite handle_watch_fresh by done.
    assert (∀ x, (∀ v, current w !! key = Some v → ¬ newer v x) →
                 ∀ w1, current w1 = current w →
                       (∀ key', watches_of w1 key'
                                = default [] (<[key := watches_of w key ++ [mkInfo ch x]]>
                                                (watches w) !! key')) →
                       caught_up w1) as Hatt.
    { intros x Hx w1 Hcur Hwat key' v info. rewrite Hcur, Hwat.
      destruct (decide (key = key')) as [<-|Hne].
      - rewrite lookup_insert_eq. simpl. intros Hv [Hin|Hin]%elem_of_app.
        + by apply (Hc key v info).
        + apply list_elem_of_singleton in Hin as ->. by apply Hx.
      - rewrite lookup_insert_ne by done. apply Hc. }
    intros [= <-]. destruct (current w !! key) as [v|] eqn:Hcur.
    + destruct (decide (newer v k)) as [Hn|Hn].
      * apply (Hatt v); [|done..]. intros v' [= <-]. apply newer_irrefl.
      * apply (Hatt k); [|done..]. by intros v' [= <-].
    + by apply (Hatt k).
  - unfold handle. intros [= <-].
    destruct (find_ch ch (watches_of w key)) as [i|] eqn:Hf; [|apply Hc].
    intros key' v info. unfold watches_of. simpl.
    destruct (decide (key = key')) as [<-|Hne].
    + rewrite lookup_insert_eq. simpl.
      rewrite (remove_at_delete i _ (find_ch_lt _ _ _ Hf)).
      intros Hv Hin. apply (Hc key v info Hv).
      by eapply list_elem_of_delete_inv.
    + rewrite lookup_insert_ne by done. apply Hc.
  - done.
Qed.

Lemma sync_caught_up w log err w' err' :
  caught_up w → sync w log err = Ok (w', err') → caught_up w'.
Proof.
  intros Hc Hrun.
  set (I := λ st : pass, caught_up st.1).
  assert (∀ cname di ri st st', I st → sync_triple cname di ri st = Ok st' → I st')
    as Htriple.
  { intros cname di ri [w1 seen1] [w2 seen2] H1 Ht. unfold I in *. simpl in *.
    apply sync_triple_cases in Ht
      as (docid & -> & [[-> _]|(revno & _ & _ & _ & _ & Hcur & _ & Hwat & _)]); [done|].
    intros key v info. unfold watches_of. rewrite Hcur, Hwat.
    destruct (decide (mkKey cname docid = key)) as [<-|Hne].
    - rewrite lookup_insert_eq. intros [= <-].
      destruct (watches w1 !! mkKey cname docid) as [infos|] eqn:Hw.
      + rewrite lookup_insert_eq. simpl.
        intros (info0 & -> & _)%list_elem_of_fmap. unfold advance.
        destruct (decide (newer _ _)); [apply newer_irrefl|done].
      + rewrite Hw. simpl. by intros ?%elem_of_nil.
    - rewrite lookup_insert_ne by done. intros Hv Hin. apply (H1 key v info Hv).
      unfold watches_of.
      destruct (watches w1 !! mkKey cname docid) as [infos|]; [|done].
      by rewrite lookup_insert_ne in Hin. }
  by destruct (sync_inv I Htriple w log err w' err') as [seen' H].
Qed.

(** In every state the watcher reaches no subscriber is behind the
    registry: whenever the registry holds a revision for a key, that
    revision is not news for any subscriber record of the key. *)
Theorem reachable_caught_up (growcap : nat → nat)
    (P : list (list (string * bval)) → Prop) (w : Watcher) :
  reachable growcap P w → caught_up w.
Proof.
  induction 1 as [newest|w _ IH|w req w' _ IH Hh|w log err w' err' _ IH Hlog Hs
                 |w sched w' _ IH Hf].
  - by intros ???.
  - done.
  - by eapply handle_caught_up.
  - by eapply sync_caught_up.
  - apply (flush_inv growcap caught_up) with (w := w) (sched := sched);
      [apply handle_caught_up|done..].
Qed.

Lemma reachable_caught_up_witness : caught_up observed_example.
Proof.
  apply (reachable_caught_up double (λ _, True) observed_example).
  by apply observed_example_reachable.
Defined.

(** ** A [flush] that is interrupted *)

(** [tail] is a schedule on which a [select] that waits leaves [flush]
    with the result [stop]. *)
Section FlushStops.
Variable growcap : nat → nat.
Variable w : Watcher.
Variable tail : list outcome.
Variable stop : list (nat * Change) → flushed.
Hypothesis Htail :
  ∀ read sent ch, ev_ch (read w) = Some ch →
                  send_loop growcap read tail w sent = Stop (stop sent).

Lemma flush_request_stops bound i k sent :
  (s_len (requestEvents w) - i ≤ bound)%nat →
  (k < length (deliveries (drop i (request_queue w))))%nat →
  flush_request growcap bound i (sends k ++ tail) w sent
  = stop (sent ++ take k (deliveries (drop i (request_queue w)))).
Proof.
  revert i k sent. induction bound as [|bound IH]; intros i k sent Hb Hk.
  - rewrite drop_ge in Hk by (pose proof (request_queue_length w); lia).
    simpl in Hk. lia.
  - pose proof (deliveries_drop_live (request_queue w) i) as Hi.
    assert (i < length (request_queue w))%nat as Hi'.
    { apply Hi. intros Heq. rewrite Heq in Hk. simpl in Hk. lia. }
    pose proof (request_queue_length w) as Hlen.
    destruct (lookup_lt_is_Some_2 (request_queue w) i Hi') as [e He].
    rewrite (drop_S _ _ _ He) in Hk |- *.
    rewrite flush_request_step by lia.
    assert (deref (heap w) (mkPtr (s_ptr (requestEvents w)) i) = e) as Hread
      by (rewrite deref_request_queue, He by lia; done).
    rewrite deliveries_cons in Hk |- *.
    destruct (ev_ch e) as [ch|] eqn:Hch.
    + destruct k as [|k].
      * simpl. rewrite (Htail _ sent ch) by (by rewrite Hread).
        by rewrite app_nil_r.
      * rewrite sends_S. simpl app.
        rewrite (send_loop_send growcap _ _ w sent ch) by (by rewrite Hread).
        rewrite Hread. simpl in Hk. rewrite IH by lia.
        by rewrite <- (assoc_L (++)).
    + rewrite send_loop_cleared by (by rewrite Hread).
      apply IH; [lia|done].
Qed.

Lemma flush_sync_stops n k sent :
  (n ≤ length (syncEvents w))%nat →
  (k < length (deliveries (reverse (take n (syncEvents w)))
               ++ deliveries (request_queue w)))%nat →
  flush_sync growcap n (sends k ++ tail) w sent
  = stop (sent ++ take k (deliveries (reverse (take n (syncEvents w)))
                          ++ deliveries (request_queue w))).
Proof.
  revert k sent. induction n as [|i IH]; intros k sent Hn Hk.
  - simpl in *. rewrite <- (drop_0 (request_queue w)) in Hk |- *.
    apply flush_request_stops; [lia|done].
  - destruct (lookup_lt_is_Some_2 (syncEvents w) i) as [e He]; [lia|].
    rewrite (take_S_r _ _ _ He), reverse_snoc in Hk |- *.
    rewrite flush_sync_step.
    rewrite deliveries_cons in Hk |- *.
    destruct (ev_ch e) as [ch|] eqn:Hch.
    + destruct k as [|k].
      * simpl. rewrite (Htail _ sent ch) by (by rewrite (sync_event_at_lookup i w e)).
        by rewrite app_nil_r.
      * rewrite sends_S. simpl app.
        rewrite (send_loop_send growcap _ _ w sent ch)
          by (by rewrite (sync_event_at_lookup i w e)).
        rewrite (sync_event_at_lookup i w e) by done.
        simpl in Hk. rewrite IH by lia.
        by rewrite <- (assoc_L (++)).
    + rewrite send_loop_cleared by (by rewrite (sync_event_at_lookup i w e)).
      apply IH; [lia|done].
Qed.

End FlushStops.

(** A [flush] that finds the tomb dying, or no receiver, after [k] of
    its deliveries has made exactly the first [k] of them, and returns or
    waits with the watcher as it was: neither queue is truncated, the
    events already sent included. *)
Theorem flush_interrupted_keeps_queues (growcap : nat → nat) (w : Watcher)
    (k : nat) (rest : list outcome) :
  (k < length (due w))%nat →
  flush growcap w (sends k ++ selDying :: rest) = Killed w rest (take k (due w)) ∧
  flush growcap w (sends k) = Blocked w (take k (due w)).
Proof.
  intros Hk. unfold flush, due in *.
  assert (∀ tail stop,
            (∀ read sent ch, ev_ch (read w) = Some ch →
               send_loop growcap read tail w sent = Stop (stop sent)) →
            flush_sync growcap (length (syncEvents w)) (sends k ++ tail) w []
            = stop (take k (deliveries (reverse (syncEvents w))
                            ++ deliveries (request_queue w)))) as H.
  { intros tail stop Htail.
    pose proof (flush_sync_stops growcap w tail stop Htail
                  (length (syncEvents w)) k []) as H.
    rewrite firstn_all in H. by apply H. }
  rewrite <- (app_nil_r (sends k)) at 2.
  split; apply H; intros read sent ch Hch; unfold send_loop; by rewrite Hch.
Qed.

Lemma flush_interrupted_keeps_queues_witness :
  flush double deleted_example (sends 1 ++ selDying :: [selSend])
  = Killed deleted_example [selSend] (take 1 (due deleted_example)) ∧
  flush double deleted_example (sends 1)
  = Blocked deleted_example (take 1 (due deleted_example)).
Proof.
  apply (flush_interrupted_keeps_queues double deleted_example 1 [selSend]).
  vm_compute. lia.
Defined.

(** ** Attaching and detaching at once *)

Lemma find_ch_app_fresh ch (infos : list watchInfo) x :
  find_ch ch infos = None → find_ch ch (infos ++ [mkInfo ch x]) = Some (length infos).
Proof.
  induction infos as [|info infos IH]; simpl.
  - intros _. by rewrite decide_True.
  - destruct (decide (info_ch info = ch)); [done|].
    destruct (find_ch ch infos); [done|]. intros _. by rewrite IH.
Qed.

Lemma remove_at_last (infos : list watchInfo) info :
  remove_at (length infos) (infos ++ [info]) = infos.
Proof.
  unfold remove_at. rewrite length_app. simpl.
  replace (length infos + 1 - 1)%nat with (length infos) by lia.
  rewrite list_lookup_middle by done.
  rewrite insert_app_r_alt, Nat.sub_diag by lia. simpl.
  by rewrite take_app_length.
Qed.

Lemma deliveries_tombstone_own key ch v :
  deliveries (tombstone key ch <$> [mkEvent ch key v]) = [].
Proof. simpl. unfold tombstone. simpl. by rewrite decide_True. Qed.

(** A [reqUnwatch] handled right after the [reqWatch] of the same key
    and channel undoes it: every subscriber list and the registry are as
    before the two, and the catch-up event the [reqWatch] may have queued
    is cleared, so that the queues deliver what they would have delivered
    after the [reqUnwatch] alone. *)
Theorem handle_watch_then_unwatch (growcap : nat → nat) (w : Watcher)
    (key : watchKey) (ch : chan) (k : Z) :
  wf_queue w →
  (∀ info, info ∈ watches_of w key → info_ch info ≠ ch) →
  ∃ w1 w2,
    handle growcap w (reqWatch key (mkInfo ch k)) = Ok w1 ∧
    handle growcap w1 (reqUnwatch key ch) = Ok w2 ∧
    (∀ key', watches_of w2 key' = watches_of w key') ∧
    current w2 = current w ∧
    syncEvents w2 = tombstone key ch <$> syncEvents w ∧
    deliveries (request_queue w2) = deliveries (tombstone key ch <$> request_queue w).
Proof.
  intros Hwf Hfresh. apply find_ch_None in Hfresh.
  assert (∃ w1 x, handle growcap w (reqWatch key (mkInfo ch k)) = Ok w1 ∧
            current w1 = current w ∧ syncEvents w1 = syncEvents w ∧
            watches w1 = <[key := watches_of w key ++ [mkInfo ch x]]> (watches w) ∧
            (request_queue w1 = request_queue w
             ∨ ∃ v, request_queue w1 = request_queue w ++ [mkEvent ch key v]))
    as (w1 & x & Hh1 & Hcur1 & Hse1 & Hwat1 & Hq1).
  { rewrite handle_watch_fresh by done.
    destruct (current w !! key) as [v|];
      [destruct (decide (newer v k))|]; eexists _, _; (split; [reflexivity|]);
      split_and!; try done; try by left.
    right. exists v. by apply attached_caught_up_queue. }
  destruct (handle growcap w1 (reqUnwatch key ch)) as [w2|] eqn:Hh2; [|done].
  exists w1, w2. split; [done|]. split; [done|].
  destruct (handle_unwatch_queues growcap w1 key ch w2 Hh2) as (Hse2 & Hq2 & Hcur2).
  split_and!.
  - unfold handle in Hh2. injection Hh2 as <-.
    assert (watches_of w1 key = watches_of w key ++ [mkInfo ch x]) as Hw1.
    { unfold watches_of at 1. by rewrite Hwat1, lookup_insert_eq. }
    rewrite Hw1, (find_ch_app_fresh ch _ x Hfresh), remove_at_last.
    intros key'. unfold watches_of at 1. simpl. rewrite Hwat1.
    destruct (decide (key = key')) as [<-|Hne].
    + by rewrite lookup_insert_eq.
    + by rewrite !lookup_insert_ne by done.
  - congruence.
  - congruence.
  - rewrite Hq2. destruct Hq1 as [->|[v ->]]; [done|].
    by rewrite fmap_app, deliveries_app, deliveries_tombstone_own, app_nil_r.
Qed.

Lemma handle_watch_then_unwatch_witness :
  ∃ w1 w2,
    handle double observed_example
      (reqWatch (mkKey "users" (IInt 7)) (mkInfo (Some 2%nat) 4)) = Ok w1 ∧
    handle double w1 (reqUnwatch (mkKey "users" (IInt 7)) (Some 2%nat)) = Ok w2 ∧
    (∀ key', watches_of w2 key' = watches_of observed_example key') ∧
    current w2 = current observed_example ∧
    syncEvents w2
    = tombstone (mkKey "users" (IInt 7)) (Some 2%nat) <$> syncEvents observed_example ∧
    deliveries (request_queue w2)
    = deliveries (tombstone (mkKey "users" (IInt 7)) (Some 2%nat)
                    <$> request_queue observed_example).
Proof.
  apply (handle_watch_then_unwatch double observed_example
           (mkKey "users" (IInt 7)) (Some 2%nat) 4).
  - split; vm_compute; lia.
  - intros info Hin. vm_compute in Hin.
    apply list_elem_of_singleton in Hin as ->. discriminate.
Defined.

(** ** The states of [loop] *)

Lemma loop_from_reachable growcap P turns w0 acts w :
  logs_satisfy P turns →
  reachable growcap P w0 →
  looped_state (loop_from growcap turns w0 acts).1 = Some w →
  reachable growcap P w.
Proof.
  revert w0 acts. induction turns as [|t turns IH]; intros w0 acts Hlogs Hw0; simpl.
  - by intros [= <-].
  - assert (logs_satisfy P turns) as Hlogs'.
    { intros log iterErr sched Hin. eapply Hlogs. by right. }
    assert (∀ w1 sched k,
              reachable growcap P w1 →
              (∀ w2 acts2, reachable growcap P w2 →
                 looped_state (k w2 acts2).1 = Some w → reachable growcap P w) →
              looped_state (after_flush (flush growcap w1 sched) acts k).1 = Some w →
              reachable growcap P w) as Hflush.
    { intros w1 sched k Hw1 Hk. unfold after_flush.
      destruct (flush growcap w1 sched) as [w2 r s|w2 r s|msg s|w2 s|] eqn:Hf;
        simpl; try done.
      - apply Hk. eapply reach_flush; [exact Hw1|]. by rewrite Hf.
      - apply Hk. eapply reach_flush; [exact Hw1|]. by rewrite Hf.
      - intros [= <-]. eapply reach_flush; [exact Hw1|]. by rewrite Hf. }
    destruct t as [|log iterErr sched|req sched].
    + by intros [= <-].
    + destruct (sync (on_timer w0) log iterErr) as [[w1 [err|]]|] eqn:Hs; simpl.
      * intros [= <-]. eapply reach_sync; [by apply reach_timer| |exact Hs].
        eapply Hlogs. by left.
      * apply Hflush.
        { eapply reach_sync; [by apply reach_timer| |exact Hs].
          eapply Hlogs. by left. }
        intros w2 acts2 Hw2. destruct (close_all _ _) as [[msg|] acts3]; [done|].
        by apply IH.
      * done.
    + destruct (handle growcap w0 req) as [w1|] eqn:Hh; simpl; [|done].
      apply Hflush; [by eapply reach_handle|]. intros w2 acts2 Hw2. by apply IH.
Qed.

(** Every state in which a run of [loop] returns or waits is a state the
    watcher reaches by the steps of [reachable]: what holds of these holds
    at every [select] of [loop] and of its [flush]. *)
Theorem loop_reachable (growcap : nat → nat)
    (P : list (list (string * bval)) → Prop) (first : found) (turns : list turn)
    (w : Watcher) :
  logs_satisfy P turns →
  looped_state (loop growcap first turns).1 = Some w →
  reachable growcap P w.
Proof.
  intros Hlogs. unfold loop. destruct first as [id| |err].
  - apply loop_from_reachable; [done|]. apply (reach_New growcap P (Some id)).
  - apply loop_from_reachable; [done|]. apply (reach_New growcap P None).
  - simpl. intros [= <-]. apply (reach_New growcap P None).
Qed.

Lemma loop_reachable_witness : reachable double (λ _, True) idle_example.
Proof.
  apply (loop_reachable double (λ _, True) ErrNotFound example_turns idle_example).
  - by intros log iterErr sched _.
  - vm_compute. reflexivity.
Defined.

(** ** A turn of [loop] whose receivers are ready *)

Lemma close_all_fresh dones acts :
  NoDup dones → (∀ d, d ∈ dones → Closed d ∉ acts) →
  close_all dones acts = (None, acts ++ (Closed <$> dones)).
Proof.
  revert acts. induction dones as [|d dones IH]; intros acts Hnd Hfresh; simpl.
  - by rewrite app_nil_r.
  - apply NoDup_cons in Hnd as [Hd Hnd].
    rewrite decide_False by (apply Hfresh; by left).
    rewrite IH; [by rewrite <- (assoc_L (++))|done|].
    intros d' Hd' [Hin|Hin]%elem_of_app.
    + apply (Hfresh d'); [by right|done].
    + apply list_elem_of_singleton in Hin. injection Hin as ->. done.
Qed.

Lemma sent_actions_not_closed d sent : Closed d ∉ sent_actions sent.
Proof. unfold sent_actions. by intros (p & [=] & _)%list_elem_of_fmap. Qed.

Lemma flush_all growcap w :
  flush growcap w (sends (length (due w))) = Flushed (truncate_queues w) [] (due w).
Proof.
  unfold flush, due.
  pose proof (flush_sync_sends growcap (length (syncEvents w)) [] w []) as H.
  rewrite firstn_all, app_nil_r in H. by apply H.
Qed.

(** A turn on the timer whose pass returns and whose receivers are
    ready: the events due after the pass are delivered, then the [done]
    channels that were pending when the turn began are closed, in the
    order of their requests, and [loop] goes on with empty queues and no
    pending channel. *)
Theorem loop_timer_turn (growcap : nat → nat) (w : Watcher)
    (log : list (list (string * bval))) (w1 : Watcher) (rest : list turn)
    (acts : list action) :
  sync (on_timer w) log None = Ok (w1, None) →
  NoDup (syncDone w) →
  (∀ d, d ∈ syncDone w → Closed d ∉ acts) →
  loop_from growcap (onTimer log None (sends (length (due w1))) :: rest) w acts
  = loop_from growcap rest (truncate_queues w1)
      (acts ++ sent_actions (due w1) ++ (Closed <$> syncDone w)) ∧
  syncDone (truncate_queues w1) = [].
Proof.
  intros Hs Hnd Hfresh. split.
  - simpl. rewrite Hs, flush_all. simpl.
    rewrite close_all_fresh; [by rewrite <- (assoc_L (++))|done|].
    intros d Hd [Hin|Hin]%elem_of_app; [by apply (Hfresh d)|].
    by apply sent_actions_not_closed in Hin.
  - simpl. destruct (sync_keeps_timer (on_timer w) log None w1 None Hs) as [_ Hd].
    by rewrite Hd.
Qed.

Lemma loop_timer_turn_witness :
  loop_from double
    (onTimer [log_entry (IInt 100) [doc_field "users" [IInt 7] [IInt64 (-3)]]] None
       (sends (length (due (set_next observed_example AfterPeriod)))) :: [])
    waiting_example []
  = loop_from double [] (truncate_queues (set_next observed_example AfterPeriod))
      ([] ++ sent_actions (due (set_next observed_example AfterPeriod))
          ++ (Closed <$> syncDone waiting_example)) ∧
  syncDone (truncate_queues (set_next observed_example AfterPeriod)) = [].
Proof.
  apply (loop_timer_turn double waiting_example
           [log_entry (IInt 100) [doc_field "users" [IInt 7] [IInt64 (-3)]]]
           (set_next observed_example AfterPeriod) [] []).
  - vm_compute. reflexivity.
  - apply NoDup_singleton.
  - intros d _ Hin. by apply elem_of_nil in Hin.
Defined.

(** A [Watch] of a document whose revision in the registry is news for
    the subscriber is answered in the turn that handles it: after the
    deliveries that were due, the subscriber receives the revision of the
    registry, and [loop] goes on with empty queues. *)
Theorem loop_watch_turn (growcap : nat → nat) (w : Watcher) (key : watchKey)
    (c : nat) (k v : Z) (rest : list turn) (acts : list action) :
  wf_queue w →
  (∀ info, info ∈ watches_of w key → info_ch info ≠ Some c) →
  current w !! key = Some v →
  newer v k →
  loop_from growcap
    (onRequest (reqWatch key (mkInfo (Some c) k)) (sends (S (length (due w)))) :: rest)
    w acts
  = loop_from growcap rest
      (truncate_queues (attached_caught_up growcap w key (Some c) v))
      (acts ++ sent_actions (due w) ++ [Sent c (mkChange (wk_c key) (wk_id key) v)]).
Proof.
  intros Hwf Hfresh Hcur Hn. apply find_ch_None in Hfresh. simpl.
  rewrite handle_watch_fresh, Hcur, decide_True by done.
  assert (due (attached_caught_up growcap w key (Some c) v)
          = due w ++ [(c, mkChange (wk_c key) (wk_id key) v)]) as Hdue.
  { unfold due. rewrite attached_caught_up_queue by done.
    by rewrite deliveries_app, (assoc_L (++)). }
  replace (S (length (due w)))
    with (length (due (attached_caught_up growcap w key (Some c) v)))
    by (rewrite Hdue, length_app; simpl; lia).
  rewrite flush_all. simpl. rewrite Hdue. unfold sent_actions.
  by rewrite fmap_app.
Qed.

Lemma loop_watch_turn_witness :
  loop_from double
    (onRequest (reqWatch (mkKey "users" (IInt 7)) (mkInfo (Some 2%nat) 4))
       (sends (S (length (due observed_example)))) :: [])
    observed_example []
  = loop_from double []
      (truncate_queues
         (attached_caught_up double observed_example (mkKey "users" (IInt 7))
            (Some 2%nat) (-1)))
      ([] ++ sent_actions (due observed_example)
          ++ [Sent 2 (mkChange (wk_c (mkKey "users" (IInt 7)))
                        (wk_id (mkKey "users" (IInt 7))) (-1))]).
Proof.
  apply (loop_watch_turn double observed_example (mkKey "users" (IInt 7)) 2 4 (-1) [] []).
  - split; vm_compute; lia.
  - intros info Hin. vm_compute in Hin.
    apply list_elem_of_singleton in Hin as ->. discriminate.
  - reflexivity.
  - right. lia.
Defined.

(** ** The queues between two turns *)

Section Killed.
Variable growcap : nat → nat.

Lemma send_loop_rest read sched w sent w' rest sent' :
  send_loop growcap read sched w sent = Left w' rest sent' →
  ∀ o, o ∈ rest → o ∈ sched.
Proof.
  revert w. unfold send_loop.
  induction sched as [|o sched IH]; intros w; simpl.
  - destruct (ev_ch (read w)); [done|]. by intros [= _ <- _].
  - destruct (ev_ch (read w)); [|by intros [= _ <- _]].
    destruct o as [|req|].
    + done.
    + destruct (handle growcap w req) as [w1|]; [|done].
      intros Hrun o Ho. right. by eapply IH.
    + intros [= _ <- _] o Ho. by right.
Qed.

Lemma send_loop_Killed read sched w sent w' rest sent' :
  send_loop growcap read sched w sent = Stop (Killed w' rest sent') →
  selDying ∈ sched.
Proof.
  revert w. unfold send_loop.
  induction sched as [|o sched IH]; intros w; simpl.
  - by destruct (ev_ch (read w)).
  - destruct (ev_ch (read w)); [|done].
    destruct o as [|req|].
    + intros _. by left.
    + destruct (handle growcap w req) as [w1|]; [|done].
      intros Hrun. right. by eapply IH.
    + done.
Qed.

Lemma flush_request_Killed bound i sched w sent w' rest sent' :
  flush_request growcap bound i sched w sent = Killed w' rest sent' →
  selDying ∈ sched.
Proof.
  revert i sched w sent. induction bound as [|bound IH]; intros i sched w sent;
    simpl; destruct (_ <? _)%nat; try done.
  destruct (send_loop growcap _ sched w sent) as [w1 rest1 sent1|f1] eqn:Hs.
  - intros Hrun. eapply send_loop_rest; [exact Hs|]. by eapply IH.
  - intros ->. by eapply send_loop_Killed.
Qed.

Lemma flush_Killed w sched w' rest sent' :
  flush growcap w sched = Killed w' rest sent' → selDying ∈ sched.
Proof.
  unfold flush. generalize (@nil (nat * Change)) as sent.
  generalize (length (syncEvents w)) as n. intros n. revert sched w.
  induction n as [|i IH]; intros sched w sent; simpl.
  - apply flush_request_Killed.
  - destruct (send_loop growcap _ sched w sent) as [w1 rest1 sent1|f1] eqn:Hs.
    + intros Hrun. eapply send_loop_rest; [exact Hs|]. by eapply IH.
    + intros ->. by eapply send_loop_Killed.
Qed.

Lemma after_flush_Idle w sched acts k w' :
  selDying ∉ sched →
  (after_flush (flush growcap w sched) acts k).1 = Idle w' →
  ∃ w1 acts1, syncEvents w1 = [] ∧ request_queue w1 = [] ∧ (k w1 acts1).1 = Idle w'.
Proof.
  intros Hnd. unfold after_flush.
  destruct (flush growcap w sched) as [w2 r s|w2 r s|msg s|w2 s|] eqn:Hf;
    simpl; try done.
  - intros Hk. exists w2, (acts ++ sent_actions s).
    destruct (flush_sync_end growcap (length (syncEvents w)) sched w []
                (flush growcap w sched) eq_refl) as [_ He].
    destruct (He w2 r s Hf). done.
  - apply flush_Killed in Hf. done.
Qed.

Lemma loop_from_Idle turns w acts w' :
  Forall undisturbed turns →
  syncEvents w = [] → request_queue w = [] →
  (loop_from growcap turns w acts).1 = Idle w' →
  syncEvents w' = [] ∧ request_queue w' = [].
Proof.
  intros Hu. revert w acts.
  induction Hu as [|t turns Ht _ IH]; intros w acts Hse Hrq; simpl.
  - by intros [= <-].
  - destruct t as [|log iterErr sched|req sched]; [done| |].
    + destruct (sync (on_timer w) log iterErr) as [[w1 [err|]]|]; simpl; [done| |done].
      intros (w2 & acts2 & Hse2 & Hrq2 & Hk)%after_flush_Idle; [|done].
      destruct (close_all _ _) as [[msg|] acts3]; [done|]. by eapply IH.
    + destruct (handle growcap w req) as [w1|]; simpl; [|done].
      intros (w2 & acts2 & Hse2 & Hrq2 & Hk)%after_flush_Idle; [|done].
      by eapply IH.
Qed.

End Killed.

(** As long as the tomb is not dying, [loop] comes back to its [select]
    with both queues empty: what a turn queues, its [flush] delivers and
    drops before the next turn. *)
Theorem loop_idle_queues_empty (growcap : nat → nat) (first : found)
    (turns : list turn) (w : Watcher) :
  Forall undisturbed turns →
  (loop growcap first turns).1 = Idle w →
  syncEvents w = [] ∧ request_queue w = [].
Proof.
  intros Hu. unfold loop.
  destruct first as [id| |err]; [| |done]; by apply loop_from_Idle.
Qed.

Lemma loop_idle_queues_empty_witness :
  syncEvents idle_example = [] ∧ request_queue idle_example = [].
Proof.
  apply (loop_idle_queues_empty double ErrNotFound example_turns idle_example).
  - repeat constructor; vm_compute.
    + intros Hin. by apply elem_of_nil in Hin.
    + intros [Hin|Hin]%elem_of_cons; [discriminate|]. by apply elem_of_nil in Hin.
  - vm_compute. reflexivity.
Defined.

(** ** The [done] channels during a [flush] *)

Section Pending.
Variable growcap : nat → nat.

Lemma handle_syncDone w req w' :
  handle growcap w req = Ok w' →
  syncDone w' = syncDone w ++ sync_dones [selRequest req].
Proof.
  unfold handle. destruct req as [[d|]|key info|key ch|]; simpl.
  - by intros [= <-].
  - intros [= <-]. by rewrite app_nil_r.
  - destruct (find_ch _ _); [done|]. rewrite app_nil_r.
    destruct (current w !! key) as [v|]; [|by intros [= <-]].
    destruct (newer_watch _ _); [|by intros [= <-]].
    destruct (append_event _ _ _ _). by intros [= <-].
  - intros [= <-]. rewrite app_nil_r. by destruct (find_ch _ _).
  - done.
Qed.

Lemma pending_since_refl w sched : pending_since w sched w.
Proof. exists [], sched. simpl. by rewrite app_nil_r. Qed.

Lemma pending_since_step w sched used rest w1 w' :
  sched = used ++ rest →
  syncDone w1 = syncDone w ++ sync_dones used →
  pending_since w1 rest w' →
  pending_since w sched w'.
Proof.
  intros -> H1 (used2 & rest2 & -> & H2).
  exists (used ++ used2), rest2. split; [by rewrite (assoc_L (++))|].
  unfold sync_dones in *. by rewrite H2, H1, omap_app, (assoc_L (++)).
Qed.

Lemma send_loop_pending read sched w sent :
  match send_loop growcap read sched w sent with
  | Left w' rest _ =>
      ∃ used, sched = used ++ rest ∧ syncDone w' = syncDone w ++ sync_dones used
  | Stop f => ∀ w', flushed_state f = Some w' → pending_since w sched w'
  end.
Proof.
  revert w. unfold send_loop.
  induction sched as [|o sched IH]; intros w; simpl.
  - destruct (ev_ch (read w)).
    + intros w' [= <-]. apply pending_since_refl.
    + exists []. simpl. by rewrite app_nil_r.
  - destruct (ev_ch (read w)); [|exists []; simpl; by rewrite app_nil_r].
    destruct o as [|req|].
    + intros w' [= <-]. apply pending_since_refl.
    + destruct (handle growcap w req) as [w1|] eqn:Hh; [|done].
      pose proof (handle_syncDone w req w1 Hh) as H1.
      specialize (IH w1). fold (send_loop growcap read sched w1 sent) in IH |- *.
      destruct (send_loop growcap read sched w1 sent) as [w2 rest2 sent2|f].
      * destruct IH as (used & -> & H2). exists (selRequest req :: used).
        split; [done|]. rewrite H2, H1. unfold sync_dones.
        rewrite <- (assoc_L (++)), <- omap_app. done.
      * intros w' Hw'.
        apply (pending_since_step w _ [selRequest req] sched w1 w');
          [done|exact H1|by apply IH].
    + exists [selSend]. split; [done|]. simpl. by rewrite app_nil_r.
Qed.

Lemma pending_since_truncate w sched : pending_since w sched (truncate_queues w).
Proof. exists [], sched. simpl. by rewrite app_nil_r. Qed.

Lemma flush_request_pending bound i sched w sent w' :
  flushed_state (flush_request growcap bound i sched w sent) = Some w' →
  pending_since w sched w'.
Proof.
  revert i sched w sent. induction bound as [|bound IH]; intros i sched w sent;
    simpl; destruct (_ <? _)%nat; try done.
  - intros [= <-]. apply pending_since_truncate.
  - pose proof (send_loop_pending
                  (λ w0, deref (heap w0) (mkPtr (s_ptr (requestEvents w)) i))
                  sched w sent) as Hs.
    destruct (send_loop growcap _ sched w sent) as [w1 rest1 sent1|f1].
    + destruct Hs as (used & Hsched & H1). intros Hrun.
      eapply pending_since_step; [exact Hsched|exact H1|by eapply IH].
    + apply Hs.
  - intros [= <-]. apply pending_since_truncate.
Qed.

Lemma flush_sync_pending n sched w sent w' :
  flushed_state (flush_sync growcap n sched w sent) = Some w' →
  pending_since w sched w'.
Proof.
  revert sched w sent. induction n as [|i IH]; intros sched w sent; simpl.
  - apply flush_request_pending.
  - pose proof (send_loop_pending (sync_event_at i) sched w sent) as Hs.
    destruct (send_loop growcap _ sched w sent) as [w1 rest1 sent1|f1].
    + destruct Hs as (used & Hsched & H1). intros Hrun.
      eapply pending_since_step; [exact Hsched|exact H1|by eapply IH].
    + apply Hs.
Qed.

End Pending.

(** A [flush] closes no [done] channel and drops none from
    [w.syncDone]: after it the list holds what it held before, followed
    by the channels of the [Sync] requests the [flush] took, in the order
    of the schedule, of which these requests are in a first part. *)
Theorem flush_keeps_pending_syncs (growcap : nat → nat) (w : Watcher)
    (sched : list outcome) (w' : Watcher) :
  flushed_state (flush growcap w sched) = Some w' →
  ∃ used rest, sched = used ++ rest ∧ syncDone w' = syncDone w ++ sync_dones used.
Proof. intros Hf. by apply (flush_sync_pending growcap) in Hf. Qed.

Lemma flush_keeps_pending_syncs_witness :
  ∃ used rest,
    [selRequest (Sync 9); selSend; selRequest (Sync 10)] = used ++ rest ∧
    syncDone (set_syncDone (truncate_queues observed_example) [9%nat])
    = syncDone observed_example ++ sync_dones used.
Proof.
  apply (flush_keeps_pending_syncs double observed_example
           [selRequest (Sync 9); selSend; selRequest (Sync 10)]
           (set_syncDone (truncate_queues observed_example) [9%nat])).
  vm_compute. reflexivity.
Defined.

(** ** Closing the [done] channels *)

Lemma sync_dones_app l1 l2 : sync_dones (l1 ++ l2) = sync_dones l1 ++ sync_dones l2.
Proof. apply omap_app. Qed.

Lemma dones_of_cons t turns : dones_of (t :: turns) = turn_dones t ++ dones_of turns.
Proof. done. Qed.

Lemma to_close_sublist l1 l2 acts :
  l1 `sublist_of` l2 → to_close l2 acts → to_close l1 acts.
Proof.
  intros Hsub [Hnd Hfresh]. split; [by eapply sublist_NoDup|].
  intros d Hd. apply Hfresh. by eapply elem_of_sublist.
Qed.

Lemma to_close_sent dones acts sent :
  to_close dones acts → to_close dones (acts ++ sent_actions sent).
Proof.
  intros [Hnd Hfresh]. split; [done|].
  intros d Hd [Hin|Hin]%elem_of_app; [by apply (Hfresh d)|].
  by apply sent_actions_not_closed in Hin.
Qed.

Lemma to_close_closed pending later acts :
  to_close (pending ++ later) acts →
  close_all pending acts = (None, acts ++ (Closed <$> pending)) ∧
  to_close later (acts ++ (Closed <$> pending)).
Proof.
  intros [Hnd Hfresh]. apply NoDup_app in Hnd as (Hnd1 & Hdis & Hnd2). split.
  - apply close_all_fresh; [done|]. intros d Hd. apply Hfresh, elem_of_app. by left.
  - split; [done|]. intros d Hd [Hin|Hin]%elem_of_app.
    + apply (Hfresh d); [apply elem_of_app; by right|done].
    + apply list_elem_of_fmap in Hin as (d' & [= <-] & Hd'). by apply (Hdis d).
Qed.

Lemma loop_from_closes growcap turns w acts :
  to_close (syncDone w ++ dones_of turns) acts →
  close_panicked (loop_from growcap turns w acts).1 = false.
Proof.
  revert w acts. induction turns as [|t turns IH]; intros w acts Hc; simpl; [done|].
  destruct t as [|log iterErr sched|req sched]; [done| |].
  - destruct (sync (on_timer w) log iterErr) as [[w1 [err|]]|] eqn:Hs; simpl;
      [done| |done].
    destruct (sync_keeps_timer _ _ _ _ _ Hs) as [_ Hd1]. simpl in Hd1.
    unfold after_flush.
    destruct (flush growcap w1 sched) as [w2 r s|w2 r s|msg s|w2 s|] eqn:Hf;
      simpl; try done.
    all: assert (flushed_state (flush growcap w1 sched) = Some w2) as Hst
           by (by rewrite Hf);
         apply (flush_sync_pending growcap) in Hst as (used & rest' & -> & Hd2);
         rewrite Hd1 in Hd2; simpl in Hd2;
         rewrite dones_of_cons in Hc; simpl in Hc; rewrite sync_dones_app in Hc;
         apply (to_close_sent _ _ s) in Hc;
         apply to_close_closed in Hc as [-> Hc];
         apply IH; rewrite Hd2;
         eapply to_close_sublist; [|exact Hc];
         rewrite <- (assoc_L (++));
         apply sublist_app; [done|]; apply sublist_inserts_l; done.
  - destruct (handle growcap w req) as [w1|] eqn:Hh; simpl; [|done].
    pose proof (handle_syncDone growcap w req w1 Hh) as Hd1.
    unfold after_flush.
    destruct (flush growcap w1 sched) as [w2 r s|w2 r s|msg s|w2 s|] eqn:Hf;
      simpl; try done.
    all: assert (flushed_state (flush growcap w1 sched) = Some w2) as Hst
           by (by rewrite Hf);
         apply (flush_sync_pending growcap) in Hst as (used & rest' & -> & Hd2);
         rewrite dones_of_cons in Hc; unfold turn_dones in Hc;
         change (selRequest req :: used ++ rest')
           with ([selRequest req] ++ used ++ rest') in Hc;
         rewrite !sync_dones_app in Hc;
         apply (to_close_sent _ _ s) in Hc;
         apply IH; rewrite Hd2, Hd1;
         eapply to_close_sublist; [|exact Hc];
         rewrite <- !(assoc_L (++));
         do 3 (apply sublist_app; [done|]); apply sublist_inserts_l; done.
Qed.

(** [loop] never closes a [done] channel twice: when the [Sync] requests
    of a run each carry a channel of their own, as those of [Sync] do, no
    [close] of the run panics. *)
Theorem loop_closes_each_channel_once (growcap : nat → nat) (first : found)
    (turns : list turn) :
  NoDup (dones_of turns) →
  close_panicked (loop growcap first turns).1 = false.
Proof.
  intros Hnd. unfold loop.
  destruct first as [id| |err]; [| |done]; apply loop_from_closes; split;
    try done; by intros d _ Hin%elem_of_nil.
Qed.

Lemma loop_closes_each_channel_once_witness :
  close_panicked (loop double ErrNotFound sync_turns).1 = false.
Proof.
  apply (loop_closes_each_channel_once double ErrNotFound sync_turns).
  vm_compute. apply NoDup_cons. split; [|apply NoDup_singleton].
  apply not_elem_of_cons. split; [discriminate|apply not_elem_of_nil].
Defined.

(** ** The history before the watcher *)

(** [initLastId] makes the first pass ignore the history when the [_id]
    of the most recent entry is a comparable value: as long as the newest
    entry of the log is still the one [initLastId] read, the first turn on
    the timer queues nothing, makes no [select] in its [flush], and leaves
    the watcher as [loop] started it, the timer apart.  It does not when
    that [_id] is a document, which [initLastId] holds as a [bson.M] and
    [sync] reads as a [bson.D]: the first pass takes the entry for a new
    one and notifies its changes.  When it is an array the first pass
    panics on the comparison. *)
Theorem loop_ignores_history (growcap : nat → nat) :
  (∀ (id : iface) (log : list (list (string * bval))) (sched : list outcome)
     (rest : list turn),
     newest_field log = Some ("_id", BScalar id) →
     loop growcap (FoundEntry (BScalar id)) (onTimer log None sched :: rest)
     = loop_from growcap rest (on_timer (loop_start (Some (BScalar id)))) []) ∧
  loop growcap (FoundEntry (BDoc [("n", BScalar (IInt 100))]))
    [onRequest (WatchCollection "users" (Some 1%nat)) [];
     onTimer [("_id", BDoc [("n", BScalar (IInt 100))])
              :: [doc_field "users" [IInt 7] [IInt64 3]]] None (sends 1)]
  = (Idle (mkWatcher {[collKey "users" := [mkInfo (Some 1%nat) 0]]}
                     {[mkKey "users" (IInt 7) := 3]} [] [] nil_slice []
                     (BDoc [("n", BScalar (IInt 100))]) AfterPeriod),
     [Sent 1 (mkChange "users" (IInt 7) 3)]) ∧
  loop growcap (FoundEntry (BArray [BScalar (IInt 100)]))
    [onTimer [("_id", BArray [BScalar (IInt 100)])
              :: [doc_field "users" [IInt 7] [IInt64 3]]] None []]
  = (Panicked inSync "runtime error: comparing uncomparable type", []).
Proof.
  split_and!.
  - intros id log sched rest Hn. unfold loop. simpl. unfold sync.
    rewrite (sync_entries_nothing_new log id
               (on_timer (initLastId (set_next New After0) (Some (BScalar id)))) ∅
               eq_refl Hn).
    simpl. unfold flush. simpl. by destruct sched.
  - vm_compute. reflexivity.
  - vm_compute. reflexivity.
Qed.

Lemma loop_ignores_history_witness :
  loop double (FoundEntry (BScalar (IInt 100)))
    (onTimer [[]; log_entry (IInt 100) [doc_field "users" [IInt 7] [IInt64 (-3)]]]
       None [selSend] :: [onDying])
  = loop_from double [onDying] (on_timer (loop_start (Some (BScalar (IInt 100))))) [].
Proof.
  apply (proj1 (loop_ignores_history double) (IInt 100)
           [[]; log_entry (IInt 100) [doc_field "users" [IInt 7] [IInt64 (-3)]]]
           [selSend] [onDying]).
  reflexivity.
Defined.

(** ** The scenarios of the specification *)

(** Scenario 1: an entry for a watched document that was declared
    nonexistent. *)
Example scenario_watch_then_change :
  (do q <- Watch "users" (IInt 7) (-1) (Some 1%nat);
   do w <- handle double (loop_start None) q;
   do r <- sync (on_timer w)
             [log_entry (IInt 100) [doc_field "users" [IInt 7] [IInt64 1]]] None;
   Ok (flushed_sent (flush double r.1 (sends 1))))
  = Ok [(1%nat, mkChange "users" (IInt 7) 1)].
Proof. vm_compute. reflexivity. Qed.

(** Scenario 2: an entry with the revision the subscriber declared. *)
Example scenario_same_revno :
  (do q <- Watch "users" (IInt 7) 5 (Some 1%nat);
   do w <- handle double (loop_start None) q;
   do r <- sync (on_timer w)
             [log_entry (IInt 100) [doc_field "users" [IInt 7] [IInt64 5]]] None;
   Ok (syncEvents r.1, flushed_sent (flush double r.1 (sends 1))))
  = Ok ([], []).
Proof. vm_compute. reflexivity. Qed.

(** Scenario 4: the deletion of a document declared to exist. *)
Example scenario_deletion :
  (do q <- Watch "users" (IInt 7) 5 (Some 1%nat);
   do w <- handle double (loop_start None) q;
   do r <- sync (on_timer w)
             [log_entry (IInt 100) [doc_field "users" [IInt 7] [IInt64 (-3)]]] None;
   Ok (flushed_sent (flush double r.1 (sends 1))))
  = Ok [(1%nat, mkChange "users" (IInt 7) (-1))].
Proof. vm_compute. reflexivity. Qed.

(** Scenario 5: two subscribers of a document, one of which detaches
    between two passes. *)
Example scenario_two_subscribers :
  (do q1 <- Watch "users" (IInt 7) 0 (Some 1%nat);
   do q2 <- Watch "users" (IInt 7) 0 (Some 2%nat);
   do q3 <- Unwatch "users" (IInt 7) (Some 1%nat);
   do w <- handle double (loop_start None) q1;
   do w <- handle double w q2;
   do r <- sync (on_timer w)
             [log_entry (IInt 100) [doc_field "users" [IInt 7] [IInt64 3]]] None;
   let f1 := flush double r.1 (sends 2) in
   do w <- default (Panic "panic in flush") (Ok <$> flushed_state f1);
   do w <- handle double w q3;
   do r <- sync (on_timer w)
             [log_entry (IInt 101) [doc_field "users" [IInt 7] [IInt64 4]];
              log_entry (IInt 100) [doc_field "users" [IInt 7] [IInt64 3]]] None;
   Ok (flushed_sent f1, flushed_sent (flush double r.1 (sends 2))))
  = Ok ([(2%nat, mkChange "users" (IInt 7) 3); (1%nat, mkChange "users" (IInt 7) 3)],
        [(2%nat, mkChange "users" (IInt 7) 4)]).
Proof. vm_compute. reflexivity. Qed.
